(** * VIA: 3D Euclidean distance transform (vialib/EuclideanDist3d.c)

    A shallow embedding of [VEuclideanDist3d], [VEDistFloat3d] and
    [VEDistShort3d] and the properties of the three-pass transform.

    Conventions of the embedding.
    - C [int] values (indices, extents, step counts) are [Z]: on an image
      with extents of at most 46340 and fewer than 2^31 pixels no [int]
      expression of the code leaves the 32-bit range.
    - An image's pixel block is a flat list in band, row, column order, the
      order in which [VPixelPtr(img,0,0,0)] walks it.
    - A [VBit] pixel is an integer (0 background, 1 foreground).
    - A [VShort] pixel is an integer; the narrowing conversions of the code
      are written out ([VShort_of_int]).
    - A [VFloat] pixel holds an integer value during the three passes; it is
      the integer itself, and storing into a [VFloat] rounds to 24
      significant bits ([VFloat_of_Z]).  After finalization a [VFloat]
      pixel is a binary floating-point number ([float]). *)

From Stdlib Require Import ZArith Lia List Bool Reals Lra.
From Stdlib Require Import Floats.PrimFloat Floats.FloatOps Floats.SpecFloat.
From Stdlib Require Import Floats.FloatAxioms Floats.FloatLemmas.
From Stdlib Require Import Numbers.Cyclic.Int63.Uint63.
From stdpp Require Import base option list strings gmap.

Local Open Scope Z_scope.

(** ** Loops *)

(** [for (i = lo; i < hi; i++) s = body i s]. *)
Fixpoint for_loop {S : Type} (n : nat) (i : Z) (body : Z -> S -> S) (s : S) : S :=
  match n with
  | O => s
  | Datatypes.S n' => for_loop n' (i + 1) body (body i s)
  end.

Definition for_range {S : Type} (lo hi : Z) (body : Z -> S -> S) (s : S) : S :=
  for_loop (Z.to_nat (hi - lo)) lo body s.

(** ** Pixel blocks *)

(** [p[i]] and [p[i] = v] on a pixel block. An access outside the block is
    not defined in C; here it reads 0 and writes nothing. *)
Definition getpix (l : list Z) (i : Z) : Z :=
  if i <? 0 then 0 else default 0 (l !! Z.to_nat i).
Definition setpix (l : list Z) (i : Z) (v : Z) : list Z :=
  if i <? 0 then l else <[Z.to_nat i := v]> l.

(** ** Element types *)

(** [(VShort) x] for an [int] x: reduction to 16 bits, two's complement. *)
Definition VShort_of_int (z : Z) : Z := (z + 32768) mod 65536 - 32768.

(** [(VShort) (0.5 * n * n)]: the product is a double (exact), the
    conversion truncates toward zero. For n > 255 the value is outside the
    range of a short and the conversion is not defined in C; here it is
    reduced to 16 bits. *)
Definition VShort_of_half_square (n : Z) : Z := VShort_of_int (Z.quot (n * n) 2).

(** [(VFloat) x] for an integer-valued x: round to nearest, ties to even, on
    24 significant bits. *)
Definition VFloat_of_Z (z : Z) : Z :=
  let a := Z.abs z in
  let n := Z.log2 a + 1 in
  if n <=? 24 then z
  else
    let s := n - 24 in
    let q := Z.shiftr a s in
    let rem := a - Z.shiftl q s in
    let half := Z.shiftl 1 (s - 1) in
    let q' := if (half <? rem) || ((rem =? half) && Z.odd q) then q + 1 else q in
    Z.sgn z * Z.shiftl q' s.

(** Modelled from the spec: the macro [VPixelMaxValue] of viaio, which is
    not part of the sources at hand; the largest value the destination's
    element type represents, 32767 for a short image and FLT_MAX for a float
    image. *)
Definition VShort_max : Z := 32767.
Definition VFloat_max : Z := (2 ^ 24 - 1) * 2 ^ 104.

(** An assignment between variables of one type converts nothing. *)
Definition same (z : Z) : Z := z.

(** [(int) sqrt(x)] for a double x holding a non-negative integer: the
    correctly rounded square root of an integer below 2^52 truncates to the
    integer square root. On a negative x the C expression is not defined;
    [Z.sqrt] gives 0 there. *)
Definition int_sqrt (x : Z) : Z := Z.sqrt x.

(** ** The three passes *)

Section Passes.

(** Extents and pixel block of [src]. *)
Variables nbands nrows ncols : Z.
Variable src : list Z.

(** Offset of pixel (b,r,c) in a block of these extents. *)
Definition pixel_index (b r c : Z) : Z := (b * nrows + r) * ncols + c.

Definition VPixel (img : list Z) (b r c : Z) : Z := getpix img (pixel_index b r c).

Definition VPixel_set (img : list Z) (b r c : Z) (v : Z) : list Z :=
  setpix img (pixel_index b r c) v.

(** [while (cc1 < ncols && *srcpix++ == 0) cc1++;] with [srcpix] at
    offset [p]. *)
Fixpoint scan_forward (fuel : nat) (p cc1 : Z) : Z :=
  match fuel with
  | O => cc1
  | Datatypes.S f =>
      if (cc1 <? ncols) && (getpix src p =? 0)
      then scan_forward f (p + 1) (cc1 + 1)
      else cc1
  end.

(** [while (cc2 >= 0 && *srcpix-- == 0) cc2--;] *)
Fixpoint scan_backward (fuel : nat) (p cc2 : Z) : Z :=
  match fuel with
  | O => cc2
  | Datatypes.S f =>
      if (0 <=? cc2) && (getpix src p =? 0)
      then scan_backward f (p - 1) (cc2 - 1)
      else cc2
  end.

(** The two scans from pixel (b,r,c). The forward loop makes at most
    [ncols - c] iterations and the backward loop at most [c + 1]; the fuel
    is one more, so the loops end by their own tests. *)
Definition forward_stop (b r c : Z) : Z :=
  scan_forward (Datatypes.S (Z.to_nat (ncols - c))) (pixel_index b r c) c.

Definition backward_stop (b r c : Z) : Z :=
  scan_backward (Datatypes.S (Z.to_nat (c + 1))) (pixel_index b r c) c.

(** [d1 = (cc1 >= ncols ? ncols : (cc1 - c))] *)
Definition forward_steps (b r c : Z) : Z :=
  let cc1 := forward_stop b r c in
  if cc1 >=? ncols then ncols else cc1 - c.

(** Float variant: [d2 = (cc2 <= 0 ? ncols : (c - cc2))] *)
Definition backward_steps_float (b r c : Z) : Z :=
  let cc2 := backward_stop b r c in
  if cc2 <=? 0 then ncols else c - cc2.

(** Short variant: [d2 = (cc2 < 0 ? ncols : (c - cc2))] *)
Definition backward_steps_short (b r c : Z) : Z :=
  let cc2 := backward_stop b r c in
  if cc2 <? 0 then ncols else c - cc2.

(** *** First pass, float variant *)

Definition first_pass_float_voxel (b r c : Z) (dest : list Z) : list Z :=
  if VPixel src b r c =? 1 then VPixel_set dest b r c 0
  else
    let d1 := forward_steps b r c in
    let d2 := backward_steps_float b r c in
    let d := if d1 <=? d2 then d1 else d2 in
    VPixel_set dest b r c (VFloat_of_Z (d * d)).

Definition first_pass_float (dest : list Z) : list Z :=
  for_range 0 nbands (fun b =>
    for_range 0 nrows (fun r =>
      for_range 0 ncols (fun c => first_pass_float_voxel b r c))) dest.

(** *** First pass, short variant *)

(** The search loop that jumps to [n1] at the first foreground pixel of
    the row. *)
Definition row_has_foreground (b r : Z) : bool :=
  for_range 0 ncols (fun c found => found || (VPixel src b r c =? 1)) false.

Definition first_pass_short_voxel (b r c : Z) (dest : list Z) : list Z :=
  if VPixel src b r c =? 1 then VPixel_set dest b r c 0
  else
    let d1 := forward_steps b r c in
    let d2 := backward_steps_short b r c in
    let d := if d1 <? d2 then d1 else d2 in
    VPixel_set dest b r c (VShort_of_int (d * d)).

Definition first_pass_short_row (b r : Z) (dest : list Z) : list Z :=
  if row_has_foreground b r
  then for_range 0 ncols (fun c => first_pass_short_voxel b r c) dest
  else for_range 0 ncols
         (fun c d => VPixel_set d b r c (VShort_of_half_square nrows)) dest.

Definition first_pass_short (dest : list Z) : list Z :=
  for_range 0 nbands (fun b => for_range 0 nrows (fun r => first_pass_short_row b r)) dest.

(** *** Second and third pass

    Both passes, in both variants, run the same loop over one line of the
    volume.  The line has [n] voxels, voxel [i] at offset [at_ i]; [extra]
    is what the third pass subtracts from [istart] in addition (0 in the
    second pass, 1 in the third); [dmax] is [VPixelMaxValue(dest)];
    [conv_u] is the conversion in [u = ...] and [conv_d] the one in
    [dmin = u]. *)
Section Line.
Variables (n extra dmax : Z) (conv_u conv_d : Z -> Z) (at_ : Z -> Z).

(** [for (rr = istart; rr < iend; rr++) { u = array[rr] + (r - rr) * (r - rr);
    if (u < dmin) dmin = u; }] *)
Definition window_scan (array : list Z) (i istart iend : Z) (dmin : Z) : Z :=
  for_range istart iend (fun ii dmin =>
    let u := conv_u (getpix array ii + (i - ii) * (i - ii)) in
    if u <? dmin then conv_d u else dmin) dmin.

Definition window_start (array : list Z) (i : Z) : Z :=
  let istart := i - int_sqrt (getpix array i) - extra in
  if istart <? 0 then 0 else istart.

Definition window_end (array : list Z) (i : Z) : Z :=
  let iend := i + int_sqrt (getpix array i) + 1 in
  if iend >=? n then n else iend.

(** [for (r = 0; r < nrows; r++) array[r] = (double) VPixel(dest,b,r,c);]
    Every entry the window may read is assigned here before it is
    read, so the scratch buffer is a value local to the line. *)
Definition load_line (dest : list Z) : list Z :=
  for_range 0 n (fun i array => array ++ [getpix dest (at_ i)]) [].

Definition minimize_voxel (array : list Z) (i : Z) (dest : list Z) : list Z :=
  if getpix src (at_ i) =? 1 then dest
  else
    setpix dest (at_ i)
      (window_scan array i (window_start array i) (window_end array i) dmax).

Definition minimize_line (dest : list Z) : list Z :=
  let array := load_line dest in
  for_range 0 n (minimize_voxel array) dest.
End Line.

Definition second_pass_float (dest : list Z) : list Z :=
  for_range 0 nbands (fun b =>
    for_range 0 ncols (fun c =>
      minimize_line nrows 0 VFloat_max VFloat_of_Z same (fun r => pixel_index b r c))) dest.

Definition third_pass_float (dest : list Z) : list Z :=
  for_range 0 nrows (fun r =>
    for_range 0 ncols (fun c =>
      minimize_line nbands 1 VFloat_max VFloat_of_Z same (fun b => pixel_index b r c))) dest.

Definition second_pass_short (dest : list Z) : list Z :=
  for_range 0 nbands (fun b =>
    for_range 0 ncols (fun c =>
      minimize_line nrows 0 VShort_max same VShort_of_int (fun r => pixel_index b r c))) dest.

Definition third_pass_short (dest : list Z) : list Z :=
  for_range 0 nrows (fun r =>
    for_range 0 ncols (fun c =>
      minimize_line nbands 1 VShort_max same VShort_of_int (fun b => pixel_index b r c))) dest.

(** [VFillImage(dest,VAllBands,0)] on the selected destination. *)
Definition cleared : list Z := replicate (Z.to_nat (nbands * nrows * ncols)) 0.

(** The squared-distance field before finalization. *)
Definition squared_field_float : list Z :=
  third_pass_float (second_pass_float (first_pass_float cleared)).

Definition squared_field_short : list Z :=
  third_pass_short (second_pass_short (first_pass_short cleared)).

End Passes.

(** ** Finalization *)

(** [(double) x] for an integer x. *)
Definition double_of_Z (z : Z) : float :=
  if z <? 0 then PrimFloat.opp (PrimFloat.of_uint63 (Uint63.of_Z (- z)))
  else PrimFloat.of_uint63 (Uint63.of_Z z).

(** [(int) x] for a double x: truncation toward zero. It is not defined
    in C on NaN and infinities, where this gives 0. *)
Definition int_of_double (x : float) : Z :=
  match Prim2SF x with
  | S754_finite s m e => cond_Zopp s (Z.shiftl (Z.pos m) e)
  | _ => 0
  end.

(** [(VFloat) x] for a double x: rounding to binary32. *)
Definition VFloat_of_double (x : float) : float :=
  match Prim2SF x with
  | S754_finite s m e => SF2Prim (binary_round 24 128 s m e)
  | _ => x
  end.

(** Modelled from the spec: the macro [VRint] of viaio/Vlib.h, which is not
    part of the sources at hand; rounding to nearest, ties away from
    zero. *)
Definition VRint (x : float) : Z :=
  if PrimFloat.leb 0 x
  then int_of_double (PrimFloat.add x 0.5)
  else int_of_double (PrimFloat.sub x 0.5).

(** [sqrt((double) x)] stored into a [VFloat], for the pixel value x. *)
Definition finalize_float_pixel (v : Z) : float :=
  VFloat_of_double (PrimFloat.sqrt (double_of_Z v)).

(** [(VShort) VRint((double) 10.0 * sqrt((double) x))] for the pixel value x. *)
Definition finalize_short_pixel (v : Z) : Z :=
  VShort_of_int (VRint (PrimFloat.mul 10 (PrimFloat.sqrt (double_of_Z v)))).

(** [for (i = 0; i < npixels; i++)] over the pixels at [destpix]. The
    float block changes from integer-valued pixels to binary32 values, so
    its loop builds the finalized block pixel by pixel. *)
Definition finalize_float (npixels : Z) (field : list Z) : list float :=
  for_range 0 npixels (fun i out => out ++ [finalize_float_pixel (getpix field i)]) [].

Definition finalize_short (npixels : Z) (field : list Z) : list Z :=
  for_range 0 npixels (fun i d => setpix d i (finalize_short_pixel (getpix d i))) field.

(** Pixel block returned by each engine for a source of the given extents. *)
Definition VEDistFloat3d_pixels (nbands nrows ncols : Z) (src : list Z) : list float :=
  finalize_float (nbands * nrows * ncols) (squared_field_float nbands nrows ncols src).

Definition VEDistShort3d_pixels (nbands nrows ncols : Z) (src : list Z) : list Z :=
  finalize_short (nbands * nrows * ncols) (squared_field_short nbands nrows ncols src).

(** ** Images, image store and the three functions *)

(** Modelled from the spec: the pixel representations [VRepnKind] of
    viaio/Vlib.h, which is not part of the sources at hand; the three the
    code names (bit, short, float) and the other numeric ones. *)
Inductive VRepnKind : Set :=
  | VUnknownRepn | VBitRepn | VUByteRepn | VSByteRepn
  | VShortRepn | VLongRepn | VFloatRepn | VDoubleRepn.

#[global] Instance VRepnKind_eq_dec : EqDecision VRepnKind.
Proof. solve_decision. Defined.

(** Modelled from the spec: an image of viaio, by its extents, its pixel
    representation, its pixel block and its attribute list. The pixel block
    holds integer pixels (bit, byte, short, long) or floating-point
    pixels. *)
Inductive VPixels : Type :=
  | IntPixels (l : list Z)
  | RealPixels (l : list float).

Record VImageRec : Type := mkImage {
  VImageNBands : Z;
  VImageNRows : Z;
  VImageNColumns : Z;
  VPixelRepn : VRepnKind;
  VImageData : VPixels;
  VImageAttrList : list (string * string)
}.

(** A [VImage] is a pointer; the store maps the live pointers to their
    images. [None] is the null pointer. *)
Abbreviation VImage := (option positive).
Abbreviation store := (gmap positive VImageRec).

Inductive VErrorKind : Set := InvalidInputKind | UnsupportedOutputKind.

(** Outcome of a call: a value, a fatal [VError] (the call does not
    return), or a step that C leaves undefined (a dangling [src], a [src]
    whose pixels are not integers). *)
Inductive outcome (A : Type) : Type :=
  | Returns (a : A)
  | Fatal (e : VErrorKind)
  | Undefined.
Arguments Returns {A} a.
Arguments Fatal {A} e.
Arguments Undefined {A}.

(** Computations on the image store. *)
Definition M (A : Type) : Type := store -> outcome A * store.

#[global] Instance M_ret : MRet M := fun A a h => (Returns a, h).
#[global] Instance M_bind : MBind M := fun A B f m h =>
  match m h with
  | (Returns a, h') => f a h'
  | (Fatal e, h') => (Fatal e, h')
  | (Undefined, h') => (Undefined, h')
  end.

(** Modelled from the spec: [VError] of viaio, which is not part of the
    sources at hand; the failure is fatal to the call. *)
Definition VError {A : Type} (e : VErrorKind) : M A := fun h => (Fatal e, h).

Definition undefined {A : Type} : M A := fun h => (Undefined, h).

Definition load (p : positive) : M VImageRec := fun h =>
  match h !! p with
  | Some img => (Returns img, h)
  | None => (Undefined, h)
  end.

Definition store_image (p : positive) (img : VImageRec) : M unit := fun h =>
  (Returns tt, <[p := img]> h).

Definition int_pixels (img : VImageRec) : M (list Z) :=
  match VImageData img with
  | IntPixels l => mret l
  | RealPixels _ => undefined
  end.

(** Modelled from the spec: the destination provisioner
    [VSelectDestImage] of viaio, which is not part of the sources at hand;
    a supplied destination is reused if its extents and element type
    already match, otherwise a fresh buffer is produced. *)
Definition dest_matches (img : VImageRec) (nbands nrows ncols : Z) (repn : VRepnKind) : bool :=
  (VImageNBands img =? nbands) && (VImageNRows img =? nrows)
  && (VImageNColumns img =? ncols) && bool_decide (VPixelRepn img = repn).

Definition blank_image (nbands nrows ncols : Z) (repn : VRepnKind) : VImageRec :=
  mkImage nbands nrows ncols repn
    (IntPixels (replicate (Z.to_nat (nbands * nrows * ncols)) 0)) [].

Definition VSelectDestImage (dest : VImage) (nbands nrows ncols : Z) (repn : VRepnKind)
  : M VImage := fun h =>
  let fresh_image :=
    let p := fresh (dom h) in
    (Returns (Some p), <[p := blank_image nbands nrows ncols repn]> h) in
  match dest with
  | Some p =>
      match h !! p with
      | Some img =>
          if dest_matches img nbands nrows ncols repn then (Returns (Some p), h)
          else fresh_image
      | None => fresh_image
      end
  | None => fresh_image
  end.

(** The engines below read [src] while they write [dest]. When the
    selected destination is the block of [src] itself (which needs a [src]
    that already has the output representation) the passes would read
    pixels they have overwritten; the embedding leaves that call
    undefined. *)

(** [VCopyImageAttrs (src, dest)] followed by [return dest], for the pixel
    block [pix] the passes left in [dest]. *)
Definition finish (src : positive) (d : positive) (repn : VRepnKind) (pix : VPixels)
  : M VImage :=
  s ← load src;
  store_image d (mkImage (VImageNBands s) (VImageNRows s) (VImageNColumns s)
                   repn pix (VImageAttrList s));;
  mret (Some d).

Definition VEDistFloat3d (src : positive) (dest : VImage) : M VImage :=
  s ← load src;
  pix ← int_pixels s;
  let nbands := VImageNBands s in
  let nrows := VImageNRows s in
  let ncols := VImageNColumns s in
  dest ← VSelectDestImage dest nbands nrows ncols VFloatRepn;
  match dest with
  | None => mret None
  | Some d =>
      if bool_decide (d = src) then undefined
      else finish src d VFloatRepn (RealPixels (VEDistFloat3d_pixels nbands nrows ncols pix))
  end.

Definition VEDistShort3d (src : positive) (dest : VImage) : M VImage :=
  s ← load src;
  pix ← int_pixels s;
  let nbands := VImageNBands s in
  let nrows := VImageNRows s in
  let ncols := VImageNColumns s in
  dest ← VSelectDestImage dest nbands nrows ncols VShortRepn;
  match dest with
  | None => mret None
  | Some d =>
      if bool_decide (d = src) then undefined
      else finish src d VShortRepn (IntPixels (VEDistShort3d_pixels nbands nrows ncols pix))
  end.

Definition VEuclideanDist3d (src : positive) (dest : VImage) (repn : VRepnKind) : M VImage :=
  s ← load src;
  (if bool_decide (VPixelRepn s ≠ VBitRepn) then VError InvalidInputKind else mret tt);;
  if bool_decide (repn = VShortRepn) then VEDistShort3d src dest
  else if bool_decide (repn = VFloatRepn) then VEDistFloat3d src dest
  else VError UnsupportedOutputKind.

(** * Vocabulary of the statements *)

(** ** Minima and representable fields *)

(** [m] is the minimum of [f] over the integers of [lo, hi). *)
Definition is_min_over (f : Z -> Z) (lo hi m : Z) : Prop :=
  (exists k, lo <= k < hi /\ m = f k) /\ (forall k, lo <= k < hi -> m <= f k).

(** Fields whose squared values the element type represents exactly,
    together with every candidate sum a window builds from them. *)
Definition float_field_ok (nbands nrows : Z) (d : list Z) : Prop :=
  Forall (fun v => 0 <= v /\ v + nrows * nrows <= 2 ^ 24 /\ v + nbands * nbands <= 2 ^ 24) d.

Definition short_field_ok (d : list Z) : Prop :=
  Forall (fun v => 0 <= v <= 32767) d.

(** [x] has at most 24 significant bits, the size of the significand of a
    [VFloat]. *)
Definition significand_holds (x : Z) : Prop :=
  exists m e, 0 <= e /\ Z.abs m < 2 ^ 24 /\ x = m * 2 ^ e.

(** A [VFloat] holds the integer [x] without rounding: [x] has at most 24
    significant bits and does not exceed the largest [VFloat]. *)
Definition VFloat_holds (x : Z) : Prop :=
  Z.abs x <= VFloat_max /\ significand_holds x.

(** [x] is a value of the type [VShort]. *)
Definition VShort_holds (x : Z) : Prop := -32768 <= x <= 32767.

(** ** Step counts of the first pass *)

(** [d1] is the forward step count of the spec at (b,r,c): the offset of
    the nearest foreground voxel at a column [cc1 >= c] of the row, or
    [ncols] when the row has none from [c] on. *)
Definition forward_distance (nrows ncols : Z) (src : list Z) (b r c d1 : Z) : Prop :=
  (exists cc1, c <= cc1 < ncols /\ VPixel nrows ncols src b r cc1 = 1 /\
               (forall k, c <= k < cc1 -> VPixel nrows ncols src b r k = 0) /\
               d1 = cc1 - c)
  \/ ((forall k, c <= k < ncols -> VPixel nrows ncols src b r k = 0) /\ d1 = ncols).

(** [d2] is the backward step count at (b,r,c): the offset of the nearest
    foreground voxel at a column [cc2 <= c], for [cc2 >= lowest], or [ncols]
    when the row has none up to [c]. *)
Definition backward_distance (lowest nrows ncols : Z) (src : list Z) (b r c d2 : Z) : Prop :=
  (exists cc2, lowest <= cc2 <= c /\ VPixel nrows ncols src b r cc2 = 1 /\
               (forall k, cc2 < k <= c -> VPixel nrows ncols src b r k = 0) /\
               d2 = c - cc2)
  \/ ((forall k, 0 <= k <= c -> VPixel nrows ncols src b r k = 0) /\ d2 = ncols).

(** ** Euclidean distance *)

Definition sq_dist (b r c b' r' c' : Z) : Z :=
  (b - b') ^ 2 + (r - r') ^ 2 + (c - c') ^ 2.

(** [m] is the true minimum squared Euclidean distance from (b,r,c) to a
    foreground voxel of the volume. *)
Definition is_nearest_sq_dist (nbands nrows ncols : Z) (src : list Z) (b r c m : Z) : Prop :=
  (exists b' r' c', 0 <= b' < nbands /\ 0 <= r' < nrows /\ 0 <= c' < ncols /\
                    VPixel nrows ncols src b' r' c' = 1 /\ m = sq_dist b r c b' r' c') /\
  (forall b' r' c', 0 <= b' < nbands -> 0 <= r' < nrows -> 0 <= c' < ncols ->
                    VPixel nrows ncols src b' r' c' = 1 -> m <= sq_dist b r c b' r' c').

(** A bit image of the given extents: one pixel per voxel, each 0 or 1. *)
Definition bit_volume (nbands nrows ncols : Z) (src : list Z) : Prop :=
  length src = Z.to_nat (nbands * nrows * ncols) /\ Forall (fun v => v = 0 \/ v = 1) src.

(** The field [d] holds 0 at every foreground voxel. *)
Definition zero_at_foreground (nbands nrows ncols : Z) (src d : list Z) : Prop :=
  forall b r c, 0 <= b < nbands -> 0 <= r < nrows -> 0 <= c < ncols ->
                VPixel nrows ncols src b r c = 1 -> VPixel nrows ncols d b r c = 0.

(** Rounding to nearest, ties away from zero, on the reals. *)
Definition round_half_away (x : R) : Z :=
  if Rle_dec 0 x then Int_part (x + / 2) else - Int_part (- x + / 2).

(** Reflection of a volume along one axis. *)
Inductive axis : Set := BandAxis | RowAxis | ColumnAxis.

Definition reflect_index (a : axis) (nbands nrows ncols : Z) (i : Z) : Z :=
  let b := i / (nrows * ncols) in
  let r := (i / ncols) mod nrows in
  let c := i mod ncols in
  match a with
  | BandAxis => pixel_index nrows ncols (nbands - 1 - b) r c
  | RowAxis => pixel_index nrows ncols b (nrows - 1 - r) c
  | ColumnAxis => pixel_index nrows ncols b r (ncols - 1 - c)
  end.

Definition reflect_volume {A : Type} (a : axis) (nbands nrows ncols : Z) (l : list A)
  : list A :=
  omap (fun i => l !! Z.to_nat (reflect_index a nbands nrows ncols (Z.of_nat i)))
       (seq 0 (length l)).

(** The voxel that the reflection along an axis maps (b,r,c) to. *)
Definition reflect_voxel (a : axis) (nbands nrows ncols : Z) (v : Z * Z * Z) : Z * Z * Z :=
  let '(b, r, c) := v in
  match a with
  | BandAxis => (nbands - 1 - b, r, c)
  | RowAxis => (b, nrows - 1 - r, c)
  | ColumnAxis => (b, r, ncols - 1 - c)
  end.

(** ** Finalized float pixels *)

(** The real number a finite [float] stands for. *)
Definition float_value (x : float) : option R :=
  match Prim2SF x with
  | S754_zero _ => Some 0%R
  | S754_finite s m e =>
      Some ((if s then -1 else 1) * IZR (Z.pos m) * powerRZ 2 e)%R
  | _ => None
  end.

(** [r] is a single-precision number: a significand of at most 24 bits
    times a power of two. *)
Definition single_precision (r : R) : Prop :=
  exists m e, Z.abs m < 2 ^ 24 /\ r = (IZR m * powerRZ 2 e)%R.

(** * Auxiliary definitions of the proofs *)

(** Two blocks agree on a set of offsets. *)
Definition agree_on (P : Z -> Prop) (d d' : list Z) : Prop :=
  forall p, P p -> getpix d p = getpix d' p.

(** One iteration of a loop that writes one pixel per iteration: it either
    skips or stores [val i] at offset [at_ i]. *)
Definition cond_write (at_ : Z -> Z) (skip : Z -> bool) (val : Z -> Z)
    (i : Z) (d : list Z) : list Z :=
  if skip i then d else setpix d (at_ i) (val i).

(** The candidate [u] of the window loop for voxel [i] at position [ii]. *)
Definition window_candidate (array : list Z) (i ii : Z) : Z :=
  getpix array ii + (i - ii) * (i - ii).

(** The value the line loop computes for voxel [i] of the line. *)
Definition line_value (n extra dmax : Z) (conv_u conv_d : Z -> Z) (at_ : Z -> Z)
    (d : list Z) (i : Z) : Z :=
  let array := load_line n at_ d in
  window_scan conv_u conv_d array i
    (window_start extra array i) (window_end n array i) dmax.

(** Two nested loops over the lines of a volume: voxel [i] of line [(o,j)]
    lies at offset [pos o j i], and [line o j] is what the loop body does to
    line [(o,j)]. *)
Definition on_line (n : Z) (pos : Z -> Z -> Z -> Z) (o j p : Z) : Prop :=
  exists i, 0 <= i < n /\ p = pos o j i.

Definition lines (n_inner : Z) (line : Z -> Z -> list Z -> list Z) (o : Z)
  : list Z -> list Z :=
  for_range 0 n_inner (line o).

Definition all_lines (n_outer n_inner : Z) (line : Z -> Z -> list Z -> list Z)
    (d : list Z) : list Z :=
  for_range 0 n_outer (fun o => for_range 0 n_inner (line o)) d.

(** The second and the third pass as loops over lines. *)
Definition line_pass (src : list Z) (n extra dmax : Z) (conv_u conv_d : Z -> Z)
    (n_outer n_inner : Z) (pos : Z -> Z -> Z -> Z) (d : list Z) : list Z :=
  all_lines n_outer n_inner
    (fun o j => minimize_line src n extra dmax conv_u conv_d (pos o j)) d.

Definition second_pass (nbands nrows ncols : Z) (src : list Z) (dmax : Z)
    (conv_u conv_d : Z -> Z) (d : list Z) : list Z :=
  line_pass src nrows 0 dmax conv_u conv_d nbands ncols
    (fun b c r => pixel_index nrows ncols b r c) d.

Definition third_pass (nbands nrows ncols : Z) (src : list Z) (dmax : Z)
    (conv_u conv_d : Z -> Z) (d : list Z) : list Z :=
  line_pass src nbands 1 dmax conv_u conv_d nrows ncols
    (fun r c b => pixel_index nrows ncols b r c) d.

(** The first pass as loops over lines that store [val o j i]. *)
Definition write_line (n : Z) (pos : Z -> Z -> Z -> Z) (val : Z -> Z -> Z -> Z)
    (o j : Z) (d : list Z) : list Z :=
  for_range 0 n (cond_write (pos o j) (fun _ => false) (val o j)) d.

Definition write_pass (n n_outer n_inner : Z) (pos : Z -> Z -> Z -> Z)
    (val : Z -> Z -> Z -> Z) (d : list Z) : list Z :=
  all_lines n_outer n_inner (write_line n pos val) d.

(** What the first pass stores at (b,r,c). *)
Definition first_value_float (nrows ncols : Z) (src : list Z) (b r c : Z) : Z :=
  if VPixel nrows ncols src b r c =? 1 then 0
  else
    let d1 := forward_steps nrows ncols src b r c in
    let d2 := backward_steps_float nrows ncols src b r c in
    let d := if d1 <=? d2 then d1 else d2 in
    VFloat_of_Z (d * d).

Definition first_value_short (nrows ncols : Z) (src : list Z) (b r c : Z) : Z :=
  if row_has_foreground nrows ncols src b r then
    if VPixel nrows ncols src b r c =? 1 then 0
    else
      let d1 := forward_steps nrows ncols src b r c in
      let d2 := backward_steps_short nrows ncols src b r c in
      let d := if d1 <? d2 then d1 else d2 in
      VShort_of_int (d * d)
  else VShort_of_half_square nrows.

(** The integer that [round(10 x sqrt v)] is, computed on integers. *)
Definition rounded_tenths (v : Z) : Z := (Z.sqrt (400 * v) + 1) / 2.

(** The floating-point expression of the short finalization gives
    [rounded_tenths] on the [fuel] values from [v] on. *)
Fixpoint tenths_agree (fuel : nat) (v : Z) : bool :=
  match fuel with
  | O => true
  | Datatypes.S f => (finalize_short_pixel v =? rounded_tenths v) && tenths_agree f (v + 1)
  end.

(** Two floating-point values with the same sign, mantissa and exponent. *)
Definition same_float (x y : float) : bool :=
  match Prim2SF x, Prim2SF y with
  | S754_zero s, S754_zero s' => Bool.eqb s s'
  | S754_infinity s, S754_infinity s' => Bool.eqb s s'
  | S754_nan, S754_nan => true
  | S754_finite s m e, S754_finite s' m' e' => Bool.eqb s s' && Pos.eqb m m' && Z.eqb e e'
  | _, _ => false
  end.

(** The float finalization gives [k] on the square of [k], for the [fuel]
    values from [k] on. *)
Fixpoint squares_agree (fuel : nat) (k : Z) : bool :=
  match fuel with
  | O => true
  | Datatypes.S f =>
      same_float (finalize_float_pixel (k * k)) (double_of_Z k) && squares_agree f (k + 1)
  end.

(** Case analysis over the voxels of a small volume, for statements on
    the nearest foreground voxel. *)
Ltac nearest_by_cases :=
  intros ? ? ? ? ? ? ?;
  repeat match goal with
         | H : 0 <= ?x < 1 |- _ => assert (x = 0) as -> by lia; clear H
         | H : 0 <= ?x < 2 |- _ =>
             let E := fresh in
             assert (x = 0 \/ x = 1) as E by lia; clear H; destruct E as [-> | ->]
         | H : 0 <= ?x < 4 |- _ =>
             let E := fresh in
             assert (x = 0 \/ x = 1 \/ x = 2 \/ x = 3) as E by lia; clear H;
             destruct E as [-> | [-> | [-> | ->]]]
         end;
  first [ match goal with H : VPixel _ _ _ _ _ _ = 1 |- _ =>
            vm_compute in H; discriminate H end
        | vm_compute; discriminate ].

(** * Properties *)

(** ** Loops *)

Lemma for_loop_snoc {S : Type} (n : nat) (i : Z) (body : Z -> S -> S) (s : S) :
  for_loop (Datatypes.S n) i body s = body (i + Z.of_nat n) (for_loop n i body s).
Proof.
  revert i s. induction n as [|n IH]; intros i s.
  - simpl. f_equal. lia.
  - change (for_loop (Datatypes.S (Datatypes.S n)) i body s)
      with (for_loop (Datatypes.S n) (i + 1) body (body i s)).
    rewrite IH. simpl. f_equal. lia.
Qed.

Lemma for_range_nil {S : Type} (lo hi : Z) (body : Z -> S -> S) (s : S) :
  hi <= lo -> for_range lo hi body s = s.
Proof.
  intros H. unfold for_range. replace (Z.to_nat (hi - lo)) with O by lia. reflexivity.
Qed.

Lemma for_range_snoc {S : Type} (lo hi : Z) (body : Z -> S -> S) (s : S) :
  lo <= hi -> for_range lo (hi + 1) body s = body hi (for_range lo hi body s).
Proof.
  intros H. unfold for_range.
  replace (Z.to_nat (hi + 1 - lo)) with (Datatypes.S (Z.to_nat (hi - lo))) by lia.
  rewrite for_loop_snoc. f_equal. lia.
Qed.

(** Invariant rule for a counted loop. *)
Lemma for_range_ind {S : Type} (P : Z -> S -> Prop) (lo hi : Z) (body : Z -> S -> S) (s : S) :
  lo <= hi ->
  P lo s ->
  (forall i t, lo <= i < hi -> P i t -> P (i + 1) (body i t)) ->
  P hi (for_range lo hi body s).
Proof.
  intros Hle H0.
  remember (Z.to_nat (hi - lo)) as n eqn:Hn.
  revert hi Hle Hn. induction n as [|n IH]; intros hi Hle Hn Hstep.
  - replace hi with lo by lia. rewrite for_range_nil by lia. exact H0.
  - replace hi with (hi - 1 + 1) by lia.
    rewrite for_range_snoc by lia.
    apply Hstep; [lia|].
    apply IH; [lia|lia|].
    intros i t Hi. apply Hstep. lia.
Qed.

(** ** Pixel blocks *)

Lemma length_setpix (l : list Z) (i v : Z) : length (setpix l i v) = length l.
Proof. unfold setpix. destruct (i <? 0); [reflexivity|apply length_insert]. Qed.

Lemma getpix_setpix_eq (l : list Z) (i v : Z) :
  0 <= i < Z.of_nat (length l) -> getpix (setpix l i v) i = v.
Proof.
  intros H. unfold getpix, setpix.
  destruct (Z.ltb_spec i 0) as [Hneg|_]; [lia|].
  rewrite list_lookup_insert_eq by lia. reflexivity.
Qed.

Lemma getpix_setpix_ne (l : list Z) (i j v : Z) :
  i <> j -> getpix (setpix l i v) j = getpix l j.
Proof.
  intros Hne. unfold getpix, setpix.
  destruct (Z.ltb_spec j 0) as [Hj|Hj]; [reflexivity|].
  destruct (Z.ltb_spec i 0) as [Hi|Hi]; [reflexivity|].
  rewrite list_lookup_insert_ne by lia. reflexivity.
Qed.

Lemma getpix_replicate (n : nat) (i : Z) : getpix (replicate n 0) i = 0.
Proof.
  unfold getpix. destruct (i <? 0); [reflexivity|].
  destruct (replicate n 0 !! Z.to_nat i) as [x|] eqn:E; [|reflexivity].
  apply lookup_replicate in E. simpl. tauto.
Qed.

Lemma getpix_app_l (l k : list Z) (i : Z) :
  i < Z.of_nat (length l) -> getpix (l ++ k) i = getpix l i.
Proof.
  intros H. unfold getpix. destruct (Z.ltb_spec i 0); [reflexivity|].
  rewrite lookup_app_l by lia. reflexivity.
Qed.

Lemma getpix_snoc (l : list Z) (x : Z) : getpix (l ++ [x]) (Z.of_nat (length l)) = x.
Proof.
  unfold getpix. destruct (Z.ltb_spec (Z.of_nat (length l)) 0); [lia|].
  rewrite Nat2Z.id, lookup_app_r by lia.
  rewrite Nat.sub_diag. reflexivity.
Qed.

(** Offsets of in-range coordinates lie in the block and determine the
    coordinates. *)
Lemma pixel_index_range (nbands nrows ncols b r c : Z) :
  0 <= b < nbands -> 0 <= r < nrows -> 0 <= c < ncols ->
  0 <= pixel_index nrows ncols b r c < nbands * nrows * ncols.
Proof.
  intros Hb Hr Hc. unfold pixel_index.
  assert (0 <= b * nrows + r < nbands * nrows) by nia.
  nia.
Qed.

Lemma pixel_index_inj (nrows ncols b r c b' r' c' : Z) :
  0 <= r < nrows -> 0 <= c < ncols -> 0 <= r' < nrows -> 0 <= c' < ncols ->
  pixel_index nrows ncols b r c = pixel_index nrows ncols b' r' c' ->
  b = b' /\ r = r' /\ c = c'.
Proof.
  unfold pixel_index. intros Hr Hc Hr' Hc' E.
  assert (E1 : b * nrows + r = b' * nrows + r') by nia.
  assert (c = c') by lia.
  assert (b = b') by nia.
  subst. lia.
Qed.

(** ** Loops that write disjoint parts of a block

    Iteration [i] of the loop owns the offsets [owns i]; it writes no other
    offset, and what it writes depends only on what the block holds at
    the offsets it owns. Then each offset ends with the value its owner
    writes on the initial block. *)

Section Owned.
Variable body : Z -> list Z -> list Z.
Variable owns : Z -> Z -> Prop.
Variables lo hi : Z.
Variable N : nat.

Hypothesis body_length : forall i d, length (body i d) = length d.
Hypothesis owns_disjoint :
  forall i j p, lo <= i < hi -> lo <= j < hi -> owns i p -> owns j p -> i = j.
Hypothesis body_frame :
  forall i d p, lo <= i < hi -> length d = N -> ~ owns i p ->
                getpix (body i d) p = getpix d p.
Hypothesis body_local :
  forall i d d', lo <= i < hi -> length d = N -> length d' = N ->
                 agree_on (owns i) d d' -> agree_on (owns i) (body i d) (body i d').

Lemma for_range_length (d : list Z) :
  length (for_range lo hi body d) = length d.
Proof.
  destruct (Z.le_gt_cases lo hi) as [Hle|Hgt].
  - apply (for_range_ind (fun _ t => length t = length d)); [exact Hle|reflexivity|].
    intros i t _ Ht. rewrite body_length. exact Ht.
  - rewrite for_range_nil by lia. reflexivity.
Qed.

Lemma for_range_partial (d : list Z) (k : Z) :
  length d = N -> lo <= k <= hi ->
  let t := for_range lo k body d in
  length t = N /\
  (forall p, (forall j, lo <= j < k -> ~ owns j p) -> getpix t p = getpix d p) /\
  (forall i p, lo <= i < k -> owns i p -> getpix t p = getpix (body i d) p).
Proof.
  intros Hd Hk.
  apply (for_range_ind (fun k t =>
    k <= hi ->
    length t = N /\
    (forall p, (forall j, lo <= j < k -> ~ owns j p) -> getpix t p = getpix d p) /\
    (forall i p, lo <= i < k -> owns i p -> getpix t p = getpix (body i d) p)));
    [lia| | |lia].
  - intros _. split; [exact Hd|]. split; [reflexivity|]. intros i p Hi. lia.
  - intros i t Hi IH Hle. destruct IH as (Hlen & Hfr & Hown); [lia|].
    split; [rewrite body_length; exact Hlen|]. split.
    + intros p Hp. rewrite body_frame; [|lia|exact Hlen|apply Hp; lia].
      apply Hfr. intros j Hj. apply Hp. lia.
    + intros j p Hj Hp. destruct (Z.eq_dec j i) as [->|Hne].
      * apply body_local; [lia|exact Hlen|exact Hd| |exact Hp].
        intros q Hq. apply Hfr. intros j Hj' Hq'.
        assert (j = i) by (apply (owns_disjoint j i q); [lia|lia|exact Hq'|exact Hq]).
        lia.
      * rewrite body_frame; [|lia|exact Hlen|].
        -- apply Hown; [lia|exact Hp].
        -- intros Hp'.
           assert (i = j) by (apply (owns_disjoint i j p); [lia|lia|exact Hp'|exact Hp]).
           lia.
Qed.

Lemma for_range_owned (d : list Z) (i p : Z) :
  length d = N -> lo <= i < hi -> owns i p ->
  getpix (for_range lo hi body d) p = getpix (body i d) p.
Proof.
  intros Hd Hi Hp.
  destruct (for_range_partial d hi Hd) as (_ & _ & H); [lia|].
  apply H; assumption.
Qed.

Lemma for_range_unowned (d : list Z) (p : Z) :
  length d = N -> (forall j, lo <= j < hi -> ~ owns j p) ->
  getpix (for_range lo hi body d) p = getpix d p.
Proof.
  intros Hd Hp.
  destruct (Z.le_gt_cases lo hi) as [Hle|Hgt].
  - destruct (for_range_partial d hi Hd) as (_ & H & _); [lia|].
    apply H. exact Hp.
  - rewrite for_range_nil by lia. reflexivity.
Qed.

(** The loop as a whole is again local to the union of what its
    iterations own. *)
Lemma for_range_local (d d' : list Z) :
  length d = N -> length d' = N ->
  agree_on (fun p => exists i, lo <= i < hi /\ owns i p) d d' ->
  agree_on (fun p => exists i, lo <= i < hi /\ owns i p)
    (for_range lo hi body d) (for_range lo hi body d').
Proof.
  intros Hd Hd' Hag p (i & Hi & Hp).
  rewrite (for_range_owned d i p Hd Hi Hp), (for_range_owned d' i p Hd' Hi Hp).
  apply body_local; [exact Hi|exact Hd|exact Hd'| |exact Hp].
  intros q Hq. apply Hag. exists i. split; assumption.
Qed.
End Owned.

Lemma for_range_ext {S : Type} (lo hi : Z) (body body' : Z -> S -> S) (s : S) :
  (forall i t, lo <= i < hi -> body i t = body' i t) ->
  for_range lo hi body s = for_range lo hi body' s.
Proof.
  intros Hext.
  destruct (Z.le_gt_cases lo hi) as [Hle|Hgt].
  - apply (for_range_ind (fun k t => k <= hi -> t = for_range lo k body' s));
      [exact Hle| | |lia].
    + intros _. rewrite for_range_nil by lia. reflexivity.
    + intros i t Hi IH _. rewrite for_range_snoc by lia.
      rewrite Hext by lia. f_equal. apply IH. lia.
  - rewrite !for_range_nil by lia. reflexivity.
Qed.

(** ** Loops that write one pixel per iteration

    Iteration [i] either skips or stores [val i] at offset [at_ i]. *)

Section WriteLoop.
Variables (at_ : Z -> Z) (skip : Z -> bool) (val : Z -> Z).
Variables lo hi : Z.
Variable N : nat.

Hypothesis at_range : forall i, lo <= i < hi -> 0 <= at_ i < Z.of_nat N.
Hypothesis at_inj : forall i j, lo <= i < hi -> lo <= j < hi -> at_ i = at_ j -> i = j.

Lemma cond_write_length (i : Z) (d : list Z) :
  length (cond_write at_ skip val i d) = length d.
Proof. unfold cond_write. destruct (skip i); [reflexivity|apply length_setpix]. Qed.

Lemma write_loop_length (d : list Z) :
  length (for_range lo hi (cond_write at_ skip val) d) = length d.
Proof. apply for_range_length. apply cond_write_length. Qed.

Lemma write_loop_other (d : list Z) (p : Z) :
  length d = N -> (forall i, lo <= i < hi -> p <> at_ i) ->
  getpix (for_range lo hi (cond_write at_ skip val) d) p = getpix d p.
Proof.
  intros Hd Hp.
  apply (for_range_unowned _ (fun i q => q = at_ i) lo hi N);
    [apply cond_write_length| | | |exact Hd|exact Hp].
  - intros i j q Hi Hj -> E. apply at_inj; assumption.
  - intros i t q Hi Ht Hq. unfold cond_write. destruct (skip i); [reflexivity|].
    apply getpix_setpix_ne. congruence.
  - intros i t t' Hi Ht Ht' Hag q ->. unfold cond_write.
    destruct (skip i).
    + apply Hag. reflexivity.
    + rewrite !getpix_setpix_eq; [reflexivity| |];
        pose proof (at_range i Hi); lia.
Qed.

Lemma write_loop_get (d : list Z) (i : Z) :
  length d = N -> lo <= i < hi ->
  getpix (for_range lo hi (cond_write at_ skip val) d) (at_ i)
  = if skip i then getpix d (at_ i) else val i.
Proof.
  intros Hd Hi.
  rewrite (for_range_owned _ (fun i q => q = at_ i) lo hi N) with (i := i);
    [| apply cond_write_length | | | |exact Hd|exact Hi|reflexivity].
  - unfold cond_write. destruct (skip i); [reflexivity|].
    apply getpix_setpix_eq. pose proof (at_range i Hi). lia.
  - intros j k q Hj Hk -> E. apply at_inj; assumption.
  - intros j t q Hj Ht Hq. unfold cond_write. destruct (skip j); [reflexivity|].
    apply getpix_setpix_ne. congruence.
  - intros j t t' Hj Ht Ht' Hag q ->. unfold cond_write. destruct (skip j).
    + apply Hag. reflexivity.
    + rewrite !getpix_setpix_eq; [reflexivity| |]; pose proof (at_range j Hj); lia.
Qed.
End WriteLoop.

(** ** One line of the second and third pass *)

Section LineFacts.
Variables (src : list Z) (n extra dmax : Z) (conv_u conv_d : Z -> Z) (at_ : Z -> Z).
Variable N : nat.

Hypothesis at_range : forall i, 0 <= i < n -> 0 <= at_ i < Z.of_nat N.
Hypothesis at_inj : forall i j, 0 <= i < n -> 0 <= j < n -> at_ i = at_ j -> i = j.

Lemma load_line_spec (d : list Z) :
  0 <= n ->
  length (load_line n at_ d) = Z.to_nat n /\
  forall i, 0 <= i < n -> getpix (load_line n at_ d) i = getpix d (at_ i).
Proof.
  intros Hn. unfold load_line.
  apply (for_range_ind (fun k t =>
    length t = Z.to_nat k /\ forall i, 0 <= i < k -> getpix t i = getpix d (at_ i)));
    [exact Hn| |].
  - split; [reflexivity|]. intros i Hi. lia.
  - intros k t Hk [Hlen Hget]. split.
    + rewrite length_app, Hlen. simpl. lia.
    + intros i Hi. destruct (Z.eq_dec i k) as [->|Hne].
      * pose proof (getpix_snoc t (getpix d (at_ k))) as G.
        replace (Z.of_nat (length t)) with k in G by lia. exact G.
      * rewrite getpix_app_l by lia. apply Hget. lia.
Qed.

Lemma load_line_get (d : list Z) (i : Z) :
  0 <= i < n -> getpix (load_line n at_ d) i = getpix d (at_ i).
Proof. intros Hi. apply load_line_spec; lia. Qed.

Lemma load_line_ext (d d' : list Z) :
  (forall i, 0 <= i < n -> getpix d (at_ i) = getpix d' (at_ i)) ->
  load_line n at_ d = load_line n at_ d'.
Proof.
  intros H. unfold load_line. apply for_range_ext.
  intros i t Hi. rewrite H by exact Hi. reflexivity.
Qed.


Lemma minimize_line_unfold (d : list Z) :
  minimize_line src n extra dmax conv_u conv_d at_ d
  = for_range 0 n
      (cond_write at_ (fun i => getpix src (at_ i) =? 1) (line_value n extra dmax conv_u conv_d at_ d)) d.
Proof. reflexivity. Qed.

Lemma minimize_line_length (d : list Z) :
  length (minimize_line src n extra dmax conv_u conv_d at_ d) = length d.
Proof. rewrite minimize_line_unfold. apply write_loop_length. Qed.

Lemma minimize_line_get (d : list Z) (i : Z) :
  length d = N -> 0 <= i < n ->
  getpix (minimize_line src n extra dmax conv_u conv_d at_ d) (at_ i)
  = if getpix src (at_ i) =? 1 then getpix d (at_ i) else line_value n extra dmax conv_u conv_d at_ d i.
Proof.
  intros Hd Hi. rewrite minimize_line_unfold.
  apply (write_loop_get at_ (fun i => getpix src (at_ i) =? 1) (line_value n extra dmax conv_u conv_d at_ d) 0 n N);
    assumption.
Qed.

Lemma minimize_line_other (d : list Z) (p : Z) :
  length d = N -> (forall i, 0 <= i < n -> p <> at_ i) ->
  getpix (minimize_line src n extra dmax conv_u conv_d at_ d) p = getpix d p.
Proof.
  intros Hd Hp. rewrite minimize_line_unfold.
  apply (write_loop_other at_ (fun i => getpix src (at_ i) =? 1) (line_value n extra dmax conv_u conv_d at_ d) 0 n N);
    assumption.
Qed.

Lemma minimize_line_local (d d' : list Z) :
  length d = N -> length d' = N ->
  agree_on (fun p => exists i, 0 <= i < n /\ p = at_ i) d d' ->
  agree_on (fun p => exists i, 0 <= i < n /\ p = at_ i)
    (minimize_line src n extra dmax conv_u conv_d at_ d)
    (minimize_line src n extra dmax conv_u conv_d at_ d').
Proof.
  intros Hd Hd' Hag p (i & Hi & ->).
  rewrite !minimize_line_get by assumption.
  assert (E : load_line n at_ d = load_line n at_ d').
  { apply load_line_ext. intros j Hj. apply Hag. exists j. split; [exact Hj|reflexivity]. }
  unfold line_value. rewrite E.
  destruct (getpix src (at_ i) =? 1); [|reflexivity].
  apply Hag. exists i. split; [exact Hi|reflexivity].
Qed.
End LineFacts.

(** ** A whole pass: every line of the volume, two nested loops

    Voxel [i] of line [(o,j)] lies at offset [pos o j i]; [line o j] is
    what the body of the two loops does to line [(o,j)]. *)

Section Lines.
Variables n n_outer n_inner : Z.
Variable pos : Z -> Z -> Z -> Z.
Variable N : nat.
Variable line : Z -> Z -> list Z -> list Z.


Hypothesis pos_inj :
  forall o j i o' j' i',
    0 <= o < n_outer -> 0 <= j < n_inner -> 0 <= i < n ->
    0 <= o' < n_outer -> 0 <= j' < n_inner -> 0 <= i' < n ->
    pos o j i = pos o' j' i' -> o = o' /\ j = j' /\ i = i'.
Hypothesis line_length : forall o j t, length (line o j t) = length t.
Hypothesis line_frame :
  forall o j t p, 0 <= o < n_outer -> 0 <= j < n_inner -> length t = N ->
                  ~ on_line n pos o j p -> getpix (line o j t) p = getpix t p.
Hypothesis line_local :
  forall o j t t', 0 <= o < n_outer -> 0 <= j < n_inner ->
                   length t = N -> length t' = N ->
                   agree_on (on_line n pos o j) t t' ->
                   agree_on (on_line n pos o j) (line o j t) (line o j t').


Lemma on_line_disjoint (o j1 j2 p : Z) :
  0 <= o < n_outer -> 0 <= j1 < n_inner -> 0 <= j2 < n_inner ->
  on_line n pos o j1 p -> on_line n pos o j2 p -> j1 = j2.
Proof.
  intros Ho Hj1 Hj2 (i1 & Hi1 & ->) (i2 & Hi2 & E).
  apply (pos_inj o j1 i1 o j2 i2) in E; tauto.
Qed.

Lemma lines_length (o : Z) (d : list Z) : length (lines n_inner line o d) = length d.
Proof. apply for_range_length. apply line_length. Qed.

Lemma all_lines_length (d : list Z) : length (all_lines n_outer n_inner line d) = length d.
Proof. apply (for_range_length (lines n_inner line)). apply lines_length. Qed.

Lemma lines_get (o j i : Z) (d : list Z) :
  length d = N -> 0 <= o < n_outer -> 0 <= j < n_inner -> 0 <= i < n ->
  getpix (lines n_inner line o d) (pos o j i) = getpix (line o j d) (pos o j i).
Proof.
  intros Hd Ho Hj Hi.
  apply (for_range_owned (line o) (on_line n pos o) 0 n_inner N).
  - apply line_length.
  - intros j1 j2 p. apply on_line_disjoint. exact Ho.
  - intros j1 t p Hj1. apply line_frame; assumption.
  - intros j1 t t' Hj1. apply line_local; assumption.
  - exact Hd.
  - exact Hj.
  - exists i. split; [exact Hi|reflexivity].
Qed.

Lemma lines_frame (o : Z) (d : list Z) (p : Z) :
  0 <= o < n_outer -> length d = N ->
  ~ (exists j, 0 <= j < n_inner /\ on_line n pos o j p) ->
  getpix (lines n_inner line o d) p = getpix d p.
Proof.
  intros Ho Hd Hp.
  apply (for_range_unowned (line o) (on_line n pos o) 0 n_inner N).
  - apply line_length.
  - intros j1 j2 q. apply on_line_disjoint. exact Ho.
  - intros j1 t q Hj1. apply line_frame; assumption.
  - intros j1 t t' Hj1. apply line_local; assumption.
  - exact Hd.
  - intros j Hj Hl. apply Hp. exists j. split; assumption.
Qed.

Lemma lines_local (o : Z) (d d' : list Z) :
  0 <= o < n_outer -> length d = N -> length d' = N ->
  agree_on (fun p => exists j, 0 <= j < n_inner /\ on_line n pos o j p) d d' ->
  agree_on (fun p => exists j, 0 <= j < n_inner /\ on_line n pos o j p)
    (lines n_inner line o d) (lines n_inner line o d').
Proof.
  intros Ho Hd Hd'.
  apply (for_range_local (line o) (on_line n pos o) 0 n_inner N).
  - apply line_length.
  - intros j1 j2 q. apply on_line_disjoint. exact Ho.
  - intros j1 t q Hj1. apply line_frame; assumption.
  - intros j1 t t' Hj1. apply line_local; assumption.
  - exact Hd.
  - exact Hd'.
Qed.

(** A voxel ends with what its own line writes on the initial block. *)
Lemma all_lines_get (d : list Z) (o j i : Z) :
  length d = N -> 0 <= o < n_outer -> 0 <= j < n_inner -> 0 <= i < n ->
  getpix (all_lines n_outer n_inner line d) (pos o j i) = getpix (line o j d) (pos o j i).
Proof.
  intros Hd Ho Hj Hi.
  transitivity (getpix (lines n_inner line o d) (pos o j i)).
  - apply (for_range_owned (lines n_inner line)
             (fun o p => exists j, 0 <= j < n_inner /\ on_line n pos o j p) 0 n_outer N).
    + apply lines_length.
    + intros o1 o2 p Ho1 Ho2 (j1 & Hj1 & i1 & Hi1 & ->) (j2 & Hj2 & i2 & Hi2 & E).
      apply (pos_inj o1 j1 i1 o2 j2 i2) in E; tauto.
    + intros o1 t p Ho1. apply lines_frame. exact Ho1.
    + intros o1 t t' Ho1. apply lines_local. exact Ho1.
    + exact Hd.
    + exact Ho.
    + exists j. split; [exact Hj|]. exists i. split; [exact Hi|reflexivity].
  - apply lines_get; assumption.
Qed.
End Lines.

(** Lines of minimization (second and third pass). *)
Section LinePass.
Variables (src : list Z) (n extra dmax : Z) (conv_u conv_d : Z -> Z).
Variables (n_outer n_inner : Z) (pos : Z -> Z -> Z -> Z).
Variable N : nat.

Hypothesis pos_range :
  forall o j i, 0 <= o < n_outer -> 0 <= j < n_inner -> 0 <= i < n ->
                0 <= pos o j i < Z.of_nat N.
Hypothesis pos_inj :
  forall o j i o' j' i',
    0 <= o < n_outer -> 0 <= j < n_inner -> 0 <= i < n ->
    0 <= o' < n_outer -> 0 <= j' < n_inner -> 0 <= i' < n ->
    pos o j i = pos o' j' i' -> o = o' /\ j = j' /\ i = i'.


Lemma line_range (o j : Z) :
  0 <= o < n_outer -> 0 <= j < n_inner ->
  forall i, 0 <= i < n -> 0 <= pos o j i < Z.of_nat N.
Proof. intros Ho Hj i Hi. apply pos_range; assumption. Qed.

Lemma line_inj (o j : Z) :
  0 <= o < n_outer -> 0 <= j < n_inner ->
  forall i1 i2, 0 <= i1 < n -> 0 <= i2 < n -> pos o j i1 = pos o j i2 -> i1 = i2.
Proof.
  intros Ho Hj i1 i2 Hi1 Hi2 E. apply (pos_inj o j i1 o j i2) in E; tauto.
Qed.

Lemma line_pass_length (d : list Z) : length (line_pass src n extra dmax conv_u conv_d n_outer n_inner pos d) = length d.
Proof. apply all_lines_length. intros o j t. apply minimize_line_length. Qed.

(** What a pass leaves at voxel [i] of line [(o,j)]. *)
Lemma line_pass_get (d : list Z) (o j i : Z) :
  length d = N -> 0 <= o < n_outer -> 0 <= j < n_inner -> 0 <= i < n ->
  getpix (line_pass src n extra dmax conv_u conv_d n_outer n_inner pos d) (pos o j i)
  = if getpix src (pos o j i) =? 1 then getpix d (pos o j i)
    else line_value n extra dmax conv_u conv_d (pos o j) d i.
Proof.
  intros Hd Ho Hj Hi. unfold line_pass.
  rewrite (all_lines_get n n_outer n_inner pos N) by
    first [ assumption
          | intros; apply minimize_line_length
          | intros o1 j1 t p Ho1 Hj1 Ht Hp;
            apply (minimize_line_other src n extra dmax conv_u conv_d (pos o1 j1) N
                     (line_range o1 j1 Ho1 Hj1) (line_inj o1 j1 Ho1 Hj1)); [exact Ht|];
            intros i1 Hi1 E; apply Hp; exists i1; split; assumption
          | intros o1 j1 t t' Ho1 Hj1 Ht Ht';
            apply (minimize_line_local src n extra dmax conv_u conv_d (pos o1 j1) N
                     (line_range o1 j1 Ho1 Hj1) (line_inj o1 j1 Ho1 Hj1)); assumption ].
  apply (minimize_line_get src n extra dmax conv_u conv_d (pos o j) N
           (line_range o j Ho Hj) (line_inj o j Ho Hj)); assumption.
Qed.
End LinePass.

(** Lines of plain writes (first pass). *)
Section WritePass.
Variables (n n_outer n_inner : Z) (pos : Z -> Z -> Z -> Z) (val : Z -> Z -> Z -> Z).
Variable N : nat.

Hypothesis pos_range :
  forall o j i, 0 <= o < n_outer -> 0 <= j < n_inner -> 0 <= i < n ->
                0 <= pos o j i < Z.of_nat N.
Hypothesis pos_inj :
  forall o j i o' j' i',
    0 <= o < n_outer -> 0 <= j < n_inner -> 0 <= i < n ->
    0 <= o' < n_outer -> 0 <= j' < n_inner -> 0 <= i' < n ->
    pos o j i = pos o' j' i' -> o = o' /\ j = j' /\ i = i'.


Lemma write_line_length (o j : Z) (d : list Z) : length (write_line n pos val o j d) = length d.
Proof. apply write_loop_length. Qed.

Lemma write_line_get (o j i : Z) (d : list Z) :
  0 <= o < n_outer -> 0 <= j < n_inner -> 0 <= i < n -> length d = N ->
  getpix (write_line n pos val o j d) (pos o j i) = val o j i.
Proof.
  intros Ho Hj Hi Hd. unfold write_line.
  rewrite (write_loop_get (pos o j) (fun _ => false) (val o j) 0 n N);
    [reflexivity| | |exact Hd|exact Hi].
  - intros i1 Hi1. apply pos_range; assumption.
  - intros i1 i2 Hi1 Hi2 E. apply (pos_inj o j i1 o j i2) in E; tauto.
Qed.

Lemma write_pass_length (d : list Z) : length (write_pass n n_outer n_inner pos val d) = length d.
Proof. apply all_lines_length. intros o j t. apply write_line_length. Qed.

Lemma write_pass_get (d : list Z) (o j i : Z) :
  length d = N -> 0 <= o < n_outer -> 0 <= j < n_inner -> 0 <= i < n ->
  getpix (write_pass n n_outer n_inner pos val d) (pos o j i) = val o j i.
Proof.
  intros Hd Ho Hj Hi. unfold write_pass.
  rewrite (all_lines_get n n_outer n_inner pos N);
    [apply write_line_get; assumption|exact pos_inj|apply write_line_length
    | | |exact Hd|exact Ho|exact Hj|exact Hi].
  - intros o1 j1 t p Ho1 Hj1 Ht Hp. unfold write_line.
    apply (write_loop_other (pos o1 j1) (fun _ => false) (val o1 j1) 0 n N);
      [intros i1 Hi1; apply pos_range; assumption| |exact Ht|].
    + intros i1 i2 Hi1 Hi2 E. apply (pos_inj o1 j1 i1 o1 j1 i2) in E; tauto.
    + intros i1 Hi1 E. apply Hp. exists i1. split; assumption.
  - intros o1 j1 t t' Ho1 Hj1 Ht Ht' _ p (i1 & Hi1 & ->).
    rewrite !write_line_get by assumption. reflexivity.
Qed.
End WritePass.

(** ** The passes on a volume *)

Section Volume.
Variables nbands nrows ncols : Z.
Variable src : list Z.

Local Abbreviation N := (Z.to_nat (nbands * nrows * ncols)).
Local Abbreviation index := (pixel_index nrows ncols).

Lemma index_range (b r c : Z) :
  0 <= b < nbands -> 0 <= r < nrows -> 0 <= c < ncols ->
  0 <= index b r c < Z.of_nat N.
Proof.
  intros Hb Hr Hc.   pose proof (pixel_index_range nbands nrows ncols b r c Hb Hr Hc). lia.
Qed.

Lemma index_inj (b r c b' r' c' : Z) :
  0 <= r < nrows -> 0 <= c < ncols -> 0 <= r' < nrows -> 0 <= c' < ncols ->
  index b r c = index b' r' c' -> b = b' /\ r = r' /\ c = c'.
Proof. apply pixel_index_inj. Qed.

(** *** First pass *)


Lemma first_pass_float_as_writes (d : list Z) :
  first_pass_float nbands nrows ncols src d
  = write_pass ncols nbands nrows index (first_value_float nrows ncols src) d.
Proof.
  unfold first_pass_float, write_pass, all_lines.
  apply for_range_ext. intros b t Hb.
  apply for_range_ext. intros r t' Hr.
  unfold write_line. apply for_range_ext. intros c t'' Hc.
  unfold first_pass_float_voxel, cond_write, first_value_float, VPixel_set.
  destruct (VPixel nrows ncols src b r c =? 1); reflexivity.
Qed.

Lemma first_pass_short_as_writes (d : list Z) :
  first_pass_short nbands nrows ncols src d
  = write_pass ncols nbands nrows index (first_value_short nrows ncols src) d.
Proof.
  unfold first_pass_short, write_pass, all_lines.
  apply for_range_ext. intros b t Hb.
  apply for_range_ext. intros r t' Hr.
  unfold write_line, first_pass_short_row, first_value_short.
  destruct (row_has_foreground nrows ncols src b r).
  - apply for_range_ext. intros c t'' Hc.
    unfold first_pass_short_voxel, cond_write, VPixel_set.
    destruct (VPixel nrows ncols src b r c =? 1); reflexivity.
  - apply for_range_ext. intros c t'' Hc. reflexivity.
Qed.

Lemma first_pass_float_length (d : list Z) :
  length (first_pass_float nbands nrows ncols src d) = length d.
Proof. rewrite first_pass_float_as_writes. apply write_pass_length. Qed.

Lemma first_pass_short_length (d : list Z) :
  length (first_pass_short nbands nrows ncols src d) = length d.
Proof. rewrite first_pass_short_as_writes. apply write_pass_length. Qed.

Lemma first_pass_float_get (d : list Z) (b r c : Z) :
  length d = N -> 0 <= b < nbands -> 0 <= r < nrows -> 0 <= c < ncols ->
  VPixel nrows ncols (first_pass_float nbands nrows ncols src d) b r c
  = first_value_float nrows ncols src b r c.
Proof.
  intros Hd Hb Hr Hc. rewrite first_pass_float_as_writes. unfold VPixel.
  apply (write_pass_get ncols nbands nrows index (first_value_float nrows ncols src) N);
    try assumption.
  - intros; apply index_range; assumption.
  - intros; apply (index_inj o j i o' j' i'); assumption.
Qed.

Lemma first_pass_short_get (d : list Z) (b r c : Z) :
  length d = N -> 0 <= b < nbands -> 0 <= r < nrows -> 0 <= c < ncols ->
  VPixel nrows ncols (first_pass_short nbands nrows ncols src d) b r c
  = first_value_short nrows ncols src b r c.
Proof.
  intros Hd Hb Hr Hc. rewrite first_pass_short_as_writes. unfold VPixel.
  apply (write_pass_get ncols nbands nrows index (first_value_short nrows ncols src) N);
    try assumption.
  - intros; apply index_range; assumption.
  - intros; apply (index_inj o j i o' j' i'); assumption.
Qed.

(** *** Second and third pass *)

Section Minimize.
Variables (dmax : Z) (conv_u conv_d : Z -> Z).


Lemma second_pass_length (d : list Z) : length (second_pass nbands nrows ncols src dmax conv_u conv_d d) = length d.
Proof. apply line_pass_length. Qed.

Lemma third_pass_length (d : list Z) : length (third_pass nbands nrows ncols src dmax conv_u conv_d d) = length d.
Proof. apply line_pass_length. Qed.

Lemma second_pass_get (d : list Z) (b r c : Z) :
  length d = N -> 0 <= b < nbands -> 0 <= r < nrows -> 0 <= c < ncols ->
  VPixel nrows ncols (second_pass nbands nrows ncols src dmax conv_u conv_d d) b r c
  = if VPixel nrows ncols src b r c =? 1 then VPixel nrows ncols d b r c
    else line_value nrows 0 dmax conv_u conv_d (fun r => index b r c) d r.
Proof.
  intros Hd Hb Hr Hc. unfold VPixel, second_pass.
  apply (line_pass_get src nrows 0 dmax conv_u conv_d nbands ncols
           (fun b c r => index b r c) N); try assumption.
  - intros; apply index_range; assumption.
  - intros o j i o' j' i' Ho Hj Hi Ho' Hj' Hi' E.
    apply index_inj in E; try assumption. tauto.
Qed.

Lemma third_pass_get (d : list Z) (b r c : Z) :
  length d = N -> 0 <= b < nbands -> 0 <= r < nrows -> 0 <= c < ncols ->
  VPixel nrows ncols (third_pass nbands nrows ncols src dmax conv_u conv_d d) b r c
  = if VPixel nrows ncols src b r c =? 1 then VPixel nrows ncols d b r c
    else line_value nbands 1 dmax conv_u conv_d (fun b => index b r c) d b.
Proof.
  intros Hd Hb Hr Hc. unfold VPixel, third_pass.
  apply (line_pass_get src nbands 1 dmax conv_u conv_d nrows ncols
           (fun r c b => index b r c) N); try assumption.
  - intros; apply index_range; assumption.
  - intros o j i o' j' i' Ho Hj Hi Ho' Hj' Hi' E.
    apply index_inj in E; try assumption. tauto.
Qed.
End Minimize.

Lemma second_pass_float_eq (d : list Z) :
  second_pass_float nbands nrows ncols src d = second_pass nbands nrows ncols src VFloat_max VFloat_of_Z same d.
Proof. reflexivity. Qed.

Lemma third_pass_float_eq (d : list Z) :
  third_pass_float nbands nrows ncols src d = third_pass nbands nrows ncols src VFloat_max VFloat_of_Z same d.
Proof. reflexivity. Qed.

Lemma second_pass_short_eq (d : list Z) :
  second_pass_short nbands nrows ncols src d = second_pass nbands nrows ncols src VShort_max same VShort_of_int d.
Proof. reflexivity. Qed.

Lemma third_pass_short_eq (d : list Z) :
  third_pass_short nbands nrows ncols src d = third_pass nbands nrows ncols src VShort_max same VShort_of_int d.
Proof. reflexivity. Qed.

End Volume.

(** ** Conversions that change nothing *)

Lemma VShort_of_int_small (z : Z) : -32768 <= z <= 32767 -> VShort_of_int z = z.
Proof. intros H. unfold VShort_of_int. rewrite Z.mod_small by lia. lia. Qed.

Lemma VShort_of_int_range (z : Z) : -32768 <= VShort_of_int z <= 32767.
Proof.
  unfold VShort_of_int. pose proof (Z.mod_pos_bound (z + 32768) 65536). lia.
Qed.

Lemma VFloat_of_Z_small (z : Z) : 0 <= z <= 2 ^ 24 -> VFloat_of_Z z = z.
Proof.
  intros H. unfold VFloat_of_Z.
  destruct (Z.eq_dec z (2 ^ 24)) as [->|Hne]; [reflexivity|].
  destruct (Z.leb_spec (Z.log2 (Z.abs z) + 1) 24) as [_|Hlog]; [reflexivity|].
  exfalso. rewrite Z.abs_eq in Hlog by lia.
  destruct (Z.eq_dec z 0) as [->|Hz]; [simpl in Hlog; lia|].
  assert (Z.log2 z < 24) by (apply Z.log2_lt_pow2; lia).
  lia.
Qed.

(** ** What a [VFloat] stores as it is *)

(** The parts of the rounding of a value of more than 24 bits. *)
Lemma VFloat_of_Z_parts (a : Z) :
  24 < Z.log2 a + 1 ->
  let s := Z.log2 a + 1 - 24 in
  let q := a / 2 ^ s in
  let rem := a mod 2 ^ s in
  0 < a /\ 1 <= s /\ 2 ^ 23 <= q < 2 ^ 24 /\ 0 <= rem < 2 ^ s /\ a = q * 2 ^ s + rem /\
  VFloat_of_Z a
  = (if (2 ^ (s - 1) <? rem) || ((rem =? 2 ^ (s - 1)) && Z.odd q) then q + 1 else q) * 2 ^ s.
Proof.
  intros Hn. cbv zeta.
  assert (Ha : 0 < a).
  { destruct (Z_lt_le_dec 0 a) as [H|H]; [exact H|].
    rewrite (Z.log2_nonpos a H) in Hn. lia. }
  set (s := Z.log2 a + 1 - 24).
  assert (Hs : 1 <= s) by (unfold s; lia).
  pose proof (Z.log2_spec a Ha) as [Hlo Hhi].
  assert (Hp : 0 < 2 ^ s) by (apply Z.pow_pos_nonneg; lia).
  pose proof (Z.div_mod a (2 ^ s) ltac:(lia)) as Hdm.
  pose proof (Z.mod_pos_bound a (2 ^ s) Hp) as Hm.
  assert (E1 : 2 ^ Z.log2 a = 2 ^ 23 * 2 ^ s).
  { rewrite <- Z.pow_add_r by lia. f_equal. unfold s. lia. }
  assert (E2 : 2 ^ Z.succ (Z.log2 a) = 2 ^ 24 * 2 ^ s).
  { rewrite <- Z.pow_add_r by lia. f_equal. unfold s. lia. }
  assert (Hq : 2 ^ 23 <= a / 2 ^ s < 2 ^ 24).
  { split.
    - apply Z.div_le_lower_bound; [exact Hp|]. lia.
    - apply Z.div_lt_upper_bound; [exact Hp|]. lia. }
  split; [exact Ha|]. split; [exact Hs|]. split; [exact Hq|]. split; [exact Hm|].
  split; [lia|].
  unfold VFloat_of_Z. rewrite (Z.abs_eq a) by lia.
  destruct (Z.leb_spec (Z.log2 a + 1) 24) as [H|_]; [lia|].
  fold s. rewrite Z.shiftr_div_pow2 by lia.
  rewrite !Z.shiftl_mul_pow2 by lia. rewrite Z.mul_1_l.
  replace (a - a / 2 ^ s * 2 ^ s) with (a mod 2 ^ s) by lia.
  rewrite (Z.sgn_pos a Ha). lia.
Qed.

Lemma VFloat_of_Z_short (z : Z) : Z.log2 (Z.abs z) + 1 <= 24 -> VFloat_of_Z z = z.
Proof.
  intros H. unfold VFloat_of_Z.
  destruct (Z.leb_spec (Z.log2 (Z.abs z) + 1) 24); [reflexivity|lia].
Qed.

Lemma log2_lt_pow2_iff (a n : Z) : 0 < a -> 0 <= n -> (a < 2 ^ n <-> Z.log2 a < n).
Proof. intros Ha Hn. apply Z.log2_lt_pow2. exact Ha. Qed.

(** A value binary32 holds is stored as it is. *)
Lemma VFloat_of_Z_exact_nonneg (x : Z) :
  0 <= x -> (exists m e, 0 <= e /\ Z.abs m < 2 ^ 24 /\ x = m * 2 ^ e) -> VFloat_of_Z x = x.
Proof.
  intros Hx (m & e & He & Hm & E).
  destruct (Z_le_gt_dec (Z.log2 x + 1) 24) as [Hn|Hn].
  { apply VFloat_of_Z_short. rewrite Z.abs_eq by lia. exact Hn. }
  destruct (VFloat_of_Z_parts x ltac:(lia)) as (Ha & Hs & Hq & Hrem & Hdec & ->).
  set (s := Z.log2 x + 1 - 24) in *.
  assert (Hpe : 0 < 2 ^ e) by (apply Z.pow_pos_nonneg; lia).
  assert (Hmpos : 0 < m) by nia.
  assert (Hse : s <= e).
  { assert (x < 2 ^ (24 + e)).
    { rewrite Z.pow_add_r by lia. subst x. apply Z.mul_lt_mono_pos_r; lia. }
    assert (Z.log2 x < 24 + e) by (apply Z.log2_lt_pow2; lia).
    unfold s. lia. }
  assert (Hdiv : x mod 2 ^ s = 0).
  { subst x. replace e with ((e - s) + s) by lia.
    rewrite Z.pow_add_r by lia. rewrite Z.mul_assoc. apply Z.mod_mul.
    apply Z.pow_nonzero; lia. }
  rewrite Hdiv in *.
  assert (Hh : 0 < 2 ^ (s - 1)) by (apply Z.pow_pos_nonneg; lia).
  destruct (Z.ltb_spec (2 ^ (s - 1)) 0); [lia|].
  destruct (Z.eqb_spec 0 (2 ^ (s - 1))); [lia|]. simpl. lia.
Qed.


Lemma VFloat_of_Z_bounds (a : Z) :
  24 < Z.log2 a + 1 -> 2 ^ Z.log2 a <= VFloat_of_Z a <= 2 ^ (Z.log2 a + 1).
Proof.
  intros Hn.
  destruct (VFloat_of_Z_parts a Hn) as (Ha & Hs & Hq & Hrem & Hdec & ->).
  set (s := Z.log2 a + 1 - 24) in *.
  match goal with |- context [if ?c then _ else _] => set (q' := if c then _ else _) end.
  assert (Hq' : 2 ^ 23 <= q' <= 2 ^ 24) by (unfold q'; destruct (_ || _); lia).
  assert (Hp : 0 < 2 ^ s) by (apply Z.pow_pos_nonneg; lia).
  assert (E1 : 2 ^ Z.log2 a = 2 ^ 23 * 2 ^ s).
  { rewrite <- Z.pow_add_r by lia. f_equal. unfold s. lia. }
  assert (E2 : 2 ^ (Z.log2 a + 1) = 2 ^ 24 * 2 ^ s).
  { rewrite <- Z.pow_add_r by lia. f_equal. unfold s. lia. }
  rewrite E1, E2. split; apply Z.mul_le_mono_nonneg_r; lia.
Qed.

(** Storing into a [VFloat] keeps the order of non-negative values. *)
Lemma VFloat_of_Z_mono_nonneg (x y : Z) : 0 <= x <= y -> VFloat_of_Z x <= VFloat_of_Z y.
Proof.
  intros Hxy.
  pose proof (Z.log2_le_mono x y ltac:(lia)) as Hlog.
  destruct (Z_le_gt_dec (Z.log2 y + 1) 24) as [Hny|Hny].
  { rewrite !VFloat_of_Z_short by (rewrite Z.abs_eq by lia; lia). lia. }
  pose proof (VFloat_of_Z_bounds y ltac:(lia)) as By.
  destruct (Z_le_gt_dec (Z.log2 x + 1) 24) as [Hnx|Hnx].
  { rewrite (VFloat_of_Z_short x) by (rewrite Z.abs_eq by lia; lia).
    destruct (Z.eq_dec x 0) as [->|Hne].
    - pose proof (Z.pow_pos_nonneg 2 (Z.log2 y) ltac:(lia) (Z.log2_nonneg y)). lia.
    - assert (x < 2 ^ 24) by (apply Z.log2_lt_pow2; lia).
      assert (2 ^ 24 <= 2 ^ Z.log2 y) by (apply Z.pow_le_mono_r; lia). lia. }
  pose proof (VFloat_of_Z_bounds x ltac:(lia)) as Bx.
  destruct (Z.eq_dec (Z.log2 x) (Z.log2 y)) as [El|Hl].
  2:{ assert (2 ^ (Z.log2 x + 1) <= 2 ^ Z.log2 y) by (apply Z.pow_le_mono_r; lia). lia. }
  destruct (VFloat_of_Z_parts x ltac:(lia)) as (Hax & Hsx & Hqx & Hrx & Hdx & ->).
  destruct (VFloat_of_Z_parts y ltac:(lia)) as (Hay & Hsy & Hqy & Hry & Hdy & ->).
  rewrite <- El in *.
  set (s := Z.log2 x + 1 - 24) in *.
  assert (Hp : 0 < 2 ^ s) by (apply Z.pow_pos_nonneg; lia).
  apply Z.mul_le_mono_nonneg_r; [lia|].
  assert (Hq : x / 2 ^ s <= y / 2 ^ s) by (apply Z.div_le_mono; lia).
  set (qx := x / 2 ^ s) in *. set (qy := y / 2 ^ s) in *.
  set (rx := x mod 2 ^ s) in *. set (ry := y mod 2 ^ s) in *.
  destruct (Z.eq_dec qx qy) as [Eq|Hneq].
  - rewrite <- Eq in *. assert (rx <= ry) by lia.
    destruct (Z.ltb_spec (2 ^ (s - 1)) rx), (Z.ltb_spec (2 ^ (s - 1)) ry),
      (Z.eqb_spec rx (2 ^ (s - 1))), (Z.eqb_spec ry (2 ^ (s - 1))),
      (Z.odd qx); simpl; lia.
  - destruct (_ || _), (_ || _); lia.
Qed.

Lemma VFloat_of_Z_nonneg (x : Z) : 0 <= x -> 0 <= VFloat_of_Z x.
Proof.
  intros Hx. pose proof (VFloat_of_Z_mono_nonneg 0 x ltac:(lia)) as H.
  rewrite (VFloat_of_Z_short 0) in H by (simpl; lia). exact H.
Qed.

Lemma VFloat_of_Z_opp (z : Z) : VFloat_of_Z (- z) = - VFloat_of_Z z.
Proof.
  unfold VFloat_of_Z. rewrite Z.abs_opp, Z.sgn_opp.
  destruct (Z.log2 (Z.abs z) + 1 <=? 24); [reflexivity|]. cbv zeta. lia.
Qed.

Lemma VFloat_of_Z_mono (x y : Z) : x <= y -> VFloat_of_Z x <= VFloat_of_Z y.
Proof.
  intros Hxy.
  destruct (Z_le_gt_dec 0 x) as [Hx|Hx]; [apply VFloat_of_Z_mono_nonneg; lia|].
  destruct (Z_le_gt_dec 0 y) as [Hy|Hy].
  - pose proof (VFloat_of_Z_nonneg y Hy) as Hy'.
    pose proof (VFloat_of_Z_nonneg (- x) ltac:(lia)) as Hx'.
    rewrite VFloat_of_Z_opp in Hx'. lia.
  - pose proof (VFloat_of_Z_mono_nonneg (- y) (- x) ltac:(lia)) as H.
    rewrite !VFloat_of_Z_opp in H. lia.
Qed.

(** A value binary32 holds is stored as it is. *)
Lemma VFloat_of_Z_exact (x : Z) : VFloat_holds x -> VFloat_of_Z x = x.
Proof.
  intros [_ (m & e & He & Hm & E)].
  destruct (Z_le_gt_dec 0 x) as [Hx|Hx].
  - apply VFloat_of_Z_exact_nonneg; [exact Hx|]. exists m, e. auto.
  - assert (H : VFloat_of_Z (- x) = - x).
    { apply VFloat_of_Z_exact_nonneg; [lia|].
      exists (- m), e. split; [exact He|]. split; [rewrite Z.abs_opp; exact Hm|]. lia. }
    rewrite VFloat_of_Z_opp in H. lia.
Qed.


(** ** The window loop computes a minimum *)


Section WindowScan.
Variables (conv_u conv_d : Z -> Z) (array : list Z) (i istart iend dmax : Z).

Local Abbreviation cand := (window_candidate array i).

Hypothesis conv_u_exact :
  forall ii, istart <= ii < iend -> conv_u (cand ii) = cand ii.
Hypothesis conv_d_exact :
  forall ii, istart <= ii < iend -> cand ii < dmax -> conv_d (cand ii) = cand ii.

Lemma window_scan_bounds :
  let m := window_scan conv_u conv_d array i istart iend dmax in
  m <= dmax /\
  (forall ii, istart <= ii < iend -> m <= cand ii) /\
  (m = dmax \/ exists ii, istart <= ii < iend /\ m = cand ii).
Proof.
  unfold window_scan.
  destruct (Z.le_gt_cases istart iend) as [Hle|Hgt].
  - apply (for_range_ind (fun k m =>
      k <= iend ->
      m <= dmax /\
      (forall ii, istart <= ii < k -> m <= cand ii) /\
      (m = dmax \/ exists ii, istart <= ii < k /\ m = cand ii)));
      [exact Hle| | |lia].
    + intros _. split; [lia|]. split; [intros; lia|left; reflexivity].
    + intros k m Hk IH Hk'. destruct IH as (Hm & Hlow & Hex); [lia|].
      change (getpix array k + (i - k) * (i - k)) with (cand k).
      rewrite conv_u_exact by lia.
      destruct (Z.ltb_spec (cand k) m) as [Hlt|Hge].
      * rewrite conv_d_exact by lia. split; [lia|]. split.
        -- intros ii Hii. destruct (Z.eq_dec ii k) as [->|Hne]; [lia|].
           specialize (Hlow ii). lia.
        -- right. exists k. split; [lia|reflexivity].
      * split; [exact Hm|]. split.
        -- intros ii Hii. destruct (Z.eq_dec ii k) as [->|Hne]; [lia|].
           apply Hlow. lia.
        -- destruct Hex as [->|(ii & Hii & ->)]; [left; reflexivity|].
           right. exists ii. split; [lia|reflexivity].
  - rewrite for_range_nil by lia.
    split; [lia|]. split; [intros; lia|left; reflexivity].
Qed.

(** When the voxel's own candidate is in the window and not above
    [dmax], the loop returns the minimum over the window. *)
Lemma window_scan_is_min :
  istart <= i < iend -> getpix array i <= dmax ->
  is_min_over cand istart iend (window_scan conv_u conv_d array i istart iend dmax).
Proof.
  intros Hi Hown.
  destruct window_scan_bounds as (Hm & Hlow & Hex).
  split; [|exact Hlow].
  destruct Hex as [E|Hex]; [|exact Hex].
  exists i. split; [exact Hi|].
  specialize (Hlow i Hi). unfold window_candidate in *. lia.
Qed.
End WindowScan.

Lemma window_start_max (extra : Z) (array : list Z) (i : Z) :
  window_start extra array i = Z.max 0 (i - Z.sqrt (getpix array i) - extra).
Proof.
  unfold window_start, int_sqrt.
  destruct (Z.ltb_spec (i - Z.sqrt (getpix array i) - extra) 0); lia.
Qed.

Lemma window_end_min (n : Z) (array : list Z) (i : Z) :
  window_end n array i = Z.min n (i + Z.sqrt (getpix array i) + 1).
Proof.
  unfold window_end, int_sqrt.
  destruct (Z.geb_spec (i + Z.sqrt (getpix array i) + 1) n); lia.
Qed.

(** The window always holds the voxel's own index. *)
Lemma window_contains_own (n extra : Z) (array : list Z) (i : Z) :
  0 <= i < n -> 0 <= extra ->
  window_start extra array i <= i < window_end n array i.
Proof.
  intros Hi He. rewrite window_start_max, window_end_min.
  pose proof (Z.sqrt_nonneg (getpix array i)). lia.
Qed.

Section LineMin.
Variables (n extra dmax : Z) (conv_u conv_d : Z -> Z) (at_ : Z -> Z).
Variables (d : list Z) (i : Z).

Local Abbreviation v := (fun k => getpix d (at_ k)).
Local Abbreviation cand := (fun k => getpix d (at_ k) + (i - k) * (i - k)).

Hypothesis i_range : 0 <= i < n.
Hypothesis extra_nonneg : 0 <= extra.
Hypothesis conv_u_exact : forall k, 0 <= k < n -> conv_u (cand k) = cand k.
Hypothesis conv_d_exact : forall k, 0 <= k < n -> cand k < dmax -> conv_d (cand k) = cand k.
Hypothesis own_le_dmax : v i <= dmax.

Lemma line_value_is_min :
  is_min_over cand
    (Z.max 0 (i - Z.sqrt (v i) - extra)) (Z.min n (i + Z.sqrt (v i) + 1))
    (line_value n extra dmax conv_u conv_d at_ d i).
Proof.
  unfold line_value.
  set (array := load_line n at_ d).
  assert (Harr : forall k, 0 <= k < n -> getpix array k = v k)
    by (intros k Hk; apply load_line_get; exact Hk).
  pose proof (window_contains_own n extra array i i_range extra_nonneg) as Hwin.
  rewrite window_start_max, window_end_min in *.
  rewrite (Harr i i_range) in *.
  set (lo := Z.max 0 (i - Z.sqrt (v i) - extra)) in *.
  set (hi := Z.min n (i + Z.sqrt (v i) + 1)) in *.
  assert (Hsub : forall k, lo <= k < hi -> 0 <= k < n) by (intros k Hk; lia).
  destruct (window_scan_is_min conv_u conv_d array i lo hi dmax) as [Hex Hlow].
  - intros k Hk. unfold window_candidate. rewrite (Harr k) by (apply Hsub; exact Hk).
    apply conv_u_exact. apply Hsub. exact Hk.
  - intros k Hk. unfold window_candidate. rewrite (Harr k) by (apply Hsub; exact Hk).
    apply conv_d_exact. apply Hsub. exact Hk.
  - exact Hwin.
  - rewrite (Harr i i_range). exact own_le_dmax.
  - unfold window_candidate in Hex, Hlow. split.
    + destruct Hex as (k & Hk & E). exists k. split; [exact Hk|].
      rewrite E, (Harr k) by (apply Hsub; exact Hk). reflexivity.
    + intros k Hk. specialize (Hlow k Hk).
      rewrite (Harr k) in Hlow by (apply Hsub; exact Hk). exact Hlow.
Qed.
End LineMin.

(** ** The scans of the first pass *)

Section Scans.
Variables nrows ncols : Z.
Variable src : list Z.
Variables b r : Z.

Local Abbreviation pix := (VPixel nrows ncols src b r).

Lemma pixel_index_shift (c k : Z) :
  pixel_index nrows ncols b r c + k = pixel_index nrows ncols b r (c + k).
Proof. unfold pixel_index. lia. Qed.

Lemma scan_forward_spec (fuel : nat) (cc1 : Z) :
  ncols - cc1 < Z.of_nat fuel -> cc1 <= ncols ->
  let res := scan_forward ncols src fuel (pixel_index nrows ncols b r cc1) cc1 in
  cc1 <= res <= ncols /\
  (forall k, cc1 <= k < res -> pix k = 0) /\
  (res < ncols -> pix res <> 0).
Proof.
  revert cc1. induction fuel as [|fuel IH]; intros cc1 Hfuel Hle; [lia|].
  simpl. destruct (Z.ltb_spec cc1 ncols) as [Hlt|Hge]; simpl.
  - destruct (Z.eqb_spec (getpix src (pixel_index nrows ncols b r cc1)) 0) as [E|E].
    + rewrite pixel_index_shift.
      destruct (IH (cc1 + 1)) as (H1 & H2 & H3); [lia|lia|].
      split; [lia|]. split; [|exact H3].
      intros k Hk. destruct (Z.eq_dec k cc1) as [->|Hne]; [exact E|].
      apply H2. lia.
    + split; [lia|]. split; [intros; lia|]. intros _. exact E.
  - split; [lia|]. split; intros; lia.
Qed.

Lemma scan_backward_spec (fuel : nat) (cc2 : Z) :
  cc2 + 1 < Z.of_nat fuel -> -1 <= cc2 ->
  let res := scan_backward src fuel (pixel_index nrows ncols b r cc2) cc2 in
  -1 <= res <= cc2 /\
  (forall k, res < k <= cc2 -> pix k = 0) /\
  (0 <= res -> pix res <> 0).
Proof.
  revert cc2. induction fuel as [|fuel IH]; intros cc2 Hfuel Hle; [lia|].
  simpl. destruct (Z.leb_spec 0 cc2) as [Hlt|Hge]; simpl.
  - destruct (Z.eqb_spec (getpix src (pixel_index nrows ncols b r cc2)) 0) as [E|E].
    + replace (pixel_index nrows ncols b r cc2 - 1)
        with (pixel_index nrows ncols b r (cc2 - 1)) by (unfold pixel_index; lia).
      destruct (IH (cc2 - 1)) as (H1 & H2 & H3); [lia|lia|].
      split; [lia|]. split; [|exact H3].
      intros k Hk. destruct (Z.eq_dec k cc2) as [->|Hne]; [exact E|].
      apply H2. lia.
    + split; [lia|]. split; [intros; lia|]. intros _. exact E.
  - split; [lia|]. split; intros; lia.
Qed.

Lemma forward_stop_spec (c : Z) :
  c <= ncols ->
  let cc1 := forward_stop nrows ncols src b r c in
  c <= cc1 <= ncols /\
  (forall k, c <= k < cc1 -> pix k = 0) /\
  (cc1 < ncols -> pix cc1 <> 0).
Proof. intros Hc. unfold forward_stop. apply scan_forward_spec; lia. Qed.

Lemma backward_stop_spec (c : Z) :
  -1 <= c ->
  let cc2 := backward_stop nrows ncols src b r c in
  -1 <= cc2 <= c /\
  (forall k, cc2 < k <= c -> pix k = 0) /\
  (0 <= cc2 -> pix cc2 <> 0).
Proof. intros Hc. unfold backward_stop. apply scan_backward_spec; lia. Qed.

(** The search loop of the short variant finds a foreground pixel of the
    row exactly when there is one. *)
Lemma row_has_foreground_spec :
  0 <= ncols ->
  (row_has_foreground nrows ncols src b r = true <->
   exists c, 0 <= c < ncols /\ pix c = 1).
Proof.
  intros Hn. unfold row_has_foreground.
  apply (for_range_ind (fun k found =>
    found = true <-> exists c, 0 <= c < k /\ pix c = 1)); [exact Hn| |].
  - split; [discriminate|]. intros (c & Hc & _). lia.
  - intros k found Hk IH. rewrite orb_true_iff, IH, Z.eqb_eq. split.
    + intros [(c & Hc & E)|E]; [exists c; split; [lia|exact E]|].
      exists k. split; [lia|exact E].
    + intros (c & Hc & E). destruct (Z.eq_dec c k) as [->|Hne]; [right; exact E|].
      left. exists c. split; [lia|exact E].
Qed.
End Scans.

(** ** Finalization loops are elementwise *)

Lemma getpix_lookup (l : list Z) (k : nat) (x : Z) :
  l !! k = Some x -> getpix l (Z.of_nat k) = x.
Proof.
  intros H. unfold getpix. destruct (Z.ltb_spec (Z.of_nat k) 0); [lia|].
  rewrite Nat2Z.id, H. reflexivity.
Qed.

Lemma finalize_float_map (field : list Z) :
  finalize_float (Z.of_nat (length field)) field = map finalize_float_pixel field.
Proof.
  unfold finalize_float.
  transitivity (map finalize_float_pixel (take (length field) field)).
  2: { rewrite firstn_all. reflexivity. }
  replace (length field) with (Z.to_nat (Z.of_nat (length field))) at 2 by lia.
  apply (for_range_ind (fun k out =>
    out = map finalize_float_pixel (take (Z.to_nat k) field))); [lia|reflexivity|].
  intros k out Hk ->.
  destruct (lookup_lt_is_Some_2 field (Z.to_nat k)) as [x Hx]; [lia|].
  replace (Z.to_nat (k + 1)) with (Datatypes.S (Z.to_nat k)) by lia.
  rewrite (take_S_r _ _ _ Hx), map_app. simpl.
  replace k with (Z.of_nat (Z.to_nat k)) at 2 by lia.
  rewrite (getpix_lookup _ _ _ Hx). reflexivity.
Qed.

Lemma finalize_short_map (field : list Z) :
  finalize_short (Z.of_nat (length field)) field = map finalize_short_pixel field.
Proof.
  unfold finalize_short.
  transitivity (map finalize_short_pixel (take (length field) field)
                ++ drop (length field) field).
  2: { rewrite firstn_all, drop_all, app_nil_r. reflexivity. }
  replace (length field) with (Z.to_nat (Z.of_nat (length field))) at 2 3 by lia.
  apply (for_range_ind (fun k d =>
    d = map finalize_short_pixel (take (Z.to_nat k) field) ++ drop (Z.to_nat k) field));
    [lia|reflexivity|].
  intros k d Hk ->.
  destruct (lookup_lt_is_Some_2 field (Z.to_nat k)) as [x Hx]; [lia|].
  assert (Hlen : length (map finalize_short_pixel (take (Z.to_nat k) field)) = Z.to_nat k).
  { rewrite length_map, length_take. lia. }
  assert (Hget : getpix (map finalize_short_pixel (take (Z.to_nat k) field)
                         ++ drop (Z.to_nat k) field) k = x).
  { replace k with (Z.of_nat (Z.to_nat k)) at 3 by lia. apply getpix_lookup.
    rewrite lookup_app_r by lia. rewrite Hlen, Nat.sub_diag.
    rewrite lookup_drop, Nat.add_0_r. exact Hx. }
  rewrite Hget. unfold setpix. destruct (Z.ltb_spec k 0); [lia|].
  replace (Z.to_nat (k + 1)) with (Datatypes.S (Z.to_nat k)) by lia.
  rewrite (take_S_r _ _ _ Hx), map_app, <- app_assoc. simpl.
  rewrite (drop_S _ _ _ Hx).
  rewrite insert_app_r_alt by lia. rewrite Hlen, Nat.sub_diag. reflexivity.
Qed.

(** ** The pipeline of an engine *)

Lemma lookup_map {A B : Type} (f : A -> B) (l : list A) (i : nat) :
  map f l !! i = f <$> (l !! i).
Proof.
  revert i. induction l as [|x l IH]; intros [|i]; simpl; try reflexivity. apply IH.
Qed.

Lemma getpix_map (f : Z -> Z) (l : list Z) (i : Z) :
  0 <= i < Z.of_nat (length l) -> getpix (map f l) i = f (getpix l i).
Proof.
  intros H. unfold getpix. destruct (Z.ltb_spec i 0); [lia|].
  rewrite lookup_map.
  destruct (lookup_lt_is_Some_2 l (Z.to_nat i)) as [x Hx]; [lia|].
  rewrite Hx. reflexivity.
Qed.

Lemma cleared_length (nbands nrows ncols : Z) :
  length (cleared nbands nrows ncols) = Z.to_nat (nbands * nrows * ncols).
Proof. unfold cleared. apply length_replicate. Qed.

Lemma squared_field_float_length (nbands nrows ncols : Z) (src : list Z) :
  length (squared_field_float nbands nrows ncols src) = Z.to_nat (nbands * nrows * ncols).
Proof.
  unfold squared_field_float.
  rewrite third_pass_float_eq, third_pass_length.
  rewrite second_pass_float_eq, second_pass_length.
  rewrite first_pass_float_length. apply cleared_length.
Qed.

Lemma squared_field_short_length (nbands nrows ncols : Z) (src : list Z) :
  length (squared_field_short nbands nrows ncols src) = Z.to_nat (nbands * nrows * ncols).
Proof.
  unfold squared_field_short.
  rewrite third_pass_short_eq, third_pass_length.
  rewrite second_pass_short_eq, second_pass_length.
  rewrite first_pass_short_length. apply cleared_length.
Qed.

(** The engines' pixel blocks are the elementwise finalization of the
    squared field. *)
Lemma VEDistFloat3d_pixels_map (nbands nrows ncols : Z) (src : list Z) :
  0 <= nbands * nrows * ncols ->
  VEDistFloat3d_pixels nbands nrows ncols src
  = map finalize_float_pixel (squared_field_float nbands nrows ncols src).
Proof.
  intros H. unfold VEDistFloat3d_pixels.
  rewrite <- finalize_float_map, squared_field_float_length.
  f_equal. lia.
Qed.

Lemma VEDistShort3d_pixels_map (nbands nrows ncols : Z) (src : list Z) :
  0 <= nbands * nrows * ncols ->
  VEDistShort3d_pixels nbands nrows ncols src
  = map finalize_short_pixel (squared_field_short nbands nrows ncols src).
Proof.
  intros H. unfold VEDistShort3d_pixels.
  rewrite <- finalize_short_map, squared_field_short_length.
  f_equal. lia.
Qed.

(** ** Foreground voxels *)

(** C7. In both variants the field holds exactly 0 at every foreground voxel
    (input value 1) after the first, the second and the third pass, and so
    does the finalized output. *)
Theorem C7_foreground_voxels_hold_zero
    (nbands nrows ncols : Z) (src : list Z) (b r c : Z) :
  0 <= b < nbands -> 0 <= r < nrows -> 0 <= c < ncols ->
  VPixel nrows ncols src b r c = 1 ->
  let pass1f := first_pass_float nbands nrows ncols src (cleared nbands nrows ncols) in
  let pass2f := second_pass_float nbands nrows ncols src pass1f in
  let pass3f := third_pass_float nbands nrows ncols src pass2f in
  let pass1s := first_pass_short nbands nrows ncols src (cleared nbands nrows ncols) in
  let pass2s := second_pass_short nbands nrows ncols src pass1s in
  let pass3s := third_pass_short nbands nrows ncols src pass2s in
  (VPixel nrows ncols pass1f b r c = 0 /\
   VPixel nrows ncols pass2f b r c = 0 /\
   VPixel nrows ncols pass3f b r c = 0 /\
   VEDistFloat3d_pixels nbands nrows ncols src
     !! Z.to_nat (pixel_index nrows ncols b r c) = Some 0%float) /\
  (VPixel nrows ncols pass1s b r c = 0 /\
   VPixel nrows ncols pass2s b r c = 0 /\
   VPixel nrows ncols pass3s b r c = 0 /\
   VPixel nrows ncols (VEDistShort3d_pixels nbands nrows ncols src) b r c = 0).
Proof.
  intros Hb Hr Hc Hfg. cbv zeta.
  pose proof (pixel_index_range nbands nrows ncols b r c Hb Hr Hc) as Hidx.
  assert (Hfgb : (VPixel nrows ncols src b r c =? 1) = true) by (apply Z.eqb_eq; exact Hfg).
  assert (H1f : VPixel nrows ncols
                  (first_pass_float nbands nrows ncols src (cleared nbands nrows ncols))
                  b r c = 0).
  { rewrite first_pass_float_get by (try apply cleared_length; assumption).
    unfold first_value_float. rewrite Hfgb. reflexivity. }
  assert (H2f : VPixel nrows ncols
                  (second_pass_float nbands nrows ncols src
                     (first_pass_float nbands nrows ncols src (cleared nbands nrows ncols)))
                  b r c = 0).
  { rewrite second_pass_float_eq, second_pass_get;
      [rewrite Hfgb; exact H1f| |assumption..].
    rewrite first_pass_float_length. apply cleared_length. }
  assert (H3f : VPixel nrows ncols (squared_field_float nbands nrows ncols src) b r c = 0).
  { unfold squared_field_float. rewrite third_pass_float_eq, third_pass_get;
      [rewrite Hfgb; exact H2f| |assumption..].
    rewrite second_pass_float_eq, second_pass_length, first_pass_float_length.
    apply cleared_length. }
  assert (H1s : VPixel nrows ncols
                  (first_pass_short nbands nrows ncols src (cleared nbands nrows ncols))
                  b r c = 0).
  { rewrite first_pass_short_get by (try apply cleared_length; assumption).
    unfold first_value_short. rewrite Hfgb.
    assert (Hrow : row_has_foreground nrows ncols src b r = true).
    { apply row_has_foreground_spec; [lia|]. exists c. split; assumption. }
    rewrite Hrow. reflexivity. }
  assert (H2s : VPixel nrows ncols
                  (second_pass_short nbands nrows ncols src
                     (first_pass_short nbands nrows ncols src (cleared nbands nrows ncols)))
                  b r c = 0).
  { rewrite second_pass_short_eq, second_pass_get;
      [rewrite Hfgb; exact H1s| |assumption..].
    rewrite first_pass_short_length. apply cleared_length. }
  assert (H3s : VPixel nrows ncols (squared_field_short nbands nrows ncols src) b r c = 0).
  { unfold squared_field_short. rewrite third_pass_short_eq, third_pass_get;
      [rewrite Hfgb; exact H2s| |assumption..].
    rewrite second_pass_short_eq, second_pass_length, first_pass_short_length.
    apply cleared_length. }
  split.
  - split; [exact H1f|]. split; [exact H2f|]. split; [exact H3f|].
    rewrite VEDistFloat3d_pixels_map by lia. rewrite lookup_map.
    pose proof (squared_field_float_length nbands nrows ncols src) as Hlen.
    destruct (lookup_lt_is_Some_2 (squared_field_float nbands nrows ncols src)
                (Z.to_nat (pixel_index nrows ncols b r c))) as [x Hx]; [lia|].
    rewrite Hx. simpl. f_equal.
    assert (x = 0) as ->.
    { unfold VPixel, getpix in H3f.
      destruct (Z.ltb_spec (pixel_index nrows ncols b r c) 0); [lia|].
      rewrite Hx in H3f. exact H3f. }
    reflexivity.
  - split; [exact H1s|]. split; [exact H2s|]. split; [exact H3s|].
    rewrite VEDistShort3d_pixels_map by lia.
    unfold VPixel in *. rewrite getpix_map.
    + rewrite H3s. reflexivity.
    + rewrite squared_field_short_length. lia.
Qed.

Lemma C7_foreground_voxels_hold_zero_witness :
  VPixel 2 2 (squared_field_float 2 2 2 [0; 0; 0; 1; 0; 0; 0; 0]) 0 1 1 = 0.
Proof.
  apply (C7_foreground_voxels_hold_zero 2 2 2 [0; 0; 0; 1; 0; 0; 0; 0] 0 1 1);
    [lia|lia|lia|reflexivity].
Defined.

(** ** Second and third pass: the written value *)


Lemma getpix_Forall (P : Z -> Prop) (d : list Z) (p : Z) :
  Forall P d -> 0 <= p < Z.of_nat (length d) -> P (getpix d p).
Proof.
  intros HP Hp. unfold getpix. destruct (Z.ltb_spec p 0); [lia|].
  destruct (lookup_lt_is_Some_2 d (Z.to_nat p)) as [x Hx]; [lia|].
  rewrite Hx. simpl. exact (proj1 (Forall_lookup P d) HP _ _ Hx).
Qed.

Lemma is_min_over_ext (f g : Z -> Z) (lo hi m : Z) :
  (forall k, lo <= k < hi -> f k = g k) ->
  is_min_over f lo hi m -> is_min_over g lo hi m.
Proof.
  intros Hfg [(k & Hk & E) Hlow]. split.
  - exists k. split; [exact Hk|]. rewrite <- Hfg by exact Hk. exact E.
  - intros j Hj. rewrite <- Hfg by exact Hj. apply Hlow. exact Hj.
Qed.

Section MinimizeVolume.
Variables nbands nrows ncols : Z.
Variables src d : list Z.
Variables (dmax : Z) (conv_u conv_d : Z -> Z).
Variables b r c : Z.

Hypothesis d_length : length d = Z.to_nat (nbands * nrows * ncols).
Hypothesis b_range : 0 <= b < nbands.
Hypothesis r_range : 0 <= r < nrows.
Hypothesis c_range : 0 <= c < ncols.
Hypothesis background : VPixel nrows ncols src b r c <> 1.
Hypothesis own_le_dmax : VPixel nrows ncols d b r c <= dmax.

Lemma second_pass_is_min :
  (forall rr, 0 <= rr < nrows ->
     conv_u (VPixel nrows ncols d b rr c + (r - rr) * (r - rr))
     = VPixel nrows ncols d b rr c + (r - rr) * (r - rr)) ->
  (forall rr, 0 <= rr < nrows ->
     VPixel nrows ncols d b rr c + (r - rr) * (r - rr) < dmax ->
     conv_d (VPixel nrows ncols d b rr c + (r - rr) * (r - rr))
     = VPixel nrows ncols d b rr c + (r - rr) * (r - rr)) ->
  is_min_over (fun rr => VPixel nrows ncols d b rr c + (r - rr) ^ 2)
    (Z.max 0 (r - Z.sqrt (VPixel nrows ncols d b r c)))
    (Z.min nrows (r + Z.sqrt (VPixel nrows ncols d b r c) + 1))
    (VPixel nrows ncols (second_pass nbands nrows ncols src dmax conv_u conv_d d) b r c).
Proof.
  intros Hu Hd.
  rewrite second_pass_get by assumption.
  destruct (Z.eqb_spec (VPixel nrows ncols src b r c) 1) as [E|_]; [contradiction|].
  pose proof (line_value_is_min nrows 0 dmax conv_u conv_d
                (fun r => pixel_index nrows ncols b r c) d r
                r_range (Z.le_refl 0) Hu Hd own_le_dmax) as H.
  cbv beta in H. rewrite Z.sub_0_r in H.
  revert H. apply is_min_over_ext. intros k _. unfold VPixel. lia.
Qed.

Lemma third_pass_is_min :
  (forall bb, 0 <= bb < nbands ->
     conv_u (VPixel nrows ncols d bb r c + (b - bb) * (b - bb))
     = VPixel nrows ncols d bb r c + (b - bb) * (b - bb)) ->
  (forall bb, 0 <= bb < nbands ->
     VPixel nrows ncols d bb r c + (b - bb) * (b - bb) < dmax ->
     conv_d (VPixel nrows ncols d bb r c + (b - bb) * (b - bb))
     = VPixel nrows ncols d bb r c + (b - bb) * (b - bb)) ->
  is_min_over (fun bb => VPixel nrows ncols d bb r c + (b - bb) ^ 2)
    (Z.max 0 (b - Z.sqrt (VPixel nrows ncols d b r c) - 1))
    (Z.min nbands (b + Z.sqrt (VPixel nrows ncols d b r c) + 1))
    (VPixel nrows ncols (third_pass nbands nrows ncols src dmax conv_u conv_d d) b r c).
Proof.
  intros Hu Hd.
  rewrite third_pass_get by assumption.
  destruct (Z.eqb_spec (VPixel nrows ncols src b r c) 1) as [E|_]; [contradiction|].
  pose proof (line_value_is_min nbands 1 dmax conv_u conv_d
                (fun b => pixel_index nrows ncols b r c) d b
                b_range Z.le_0_1 Hu Hd own_le_dmax) as H.
  cbv beta in H.
  revert H. apply is_min_over_ext. intros k _. unfold VPixel. lia.
Qed.
End MinimizeVolume.

Lemma square_le_square (d n : Z) : 0 <= d <= n -> 0 <= d * d <= n * n.
Proof. intros H. split; [apply Z.square_nonneg|apply Z.mul_le_mono_nonneg; lia]. Qed.

Lemma square_diff_bounds (n i k : Z) :
  0 <= i < n -> 0 <= k < n -> 0 <= (i - k) * (i - k) <= n * n.
Proof.
  intros Hi Hk. split; [apply Z.square_nonneg|].
  rewrite <- Z.abs_square.
  apply Z.mul_le_mono_nonneg; lia.
Qed.

Section MinimizeVariants.
Variables nbands nrows ncols : Z.
Variables src d : list Z.
Variables b r c : Z.

Hypothesis d_length : length d = Z.to_nat (nbands * nrows * ncols).
Hypothesis b_range : 0 <= b < nbands.
Hypothesis r_range : 0 <= r < nrows.
Hypothesis c_range : 0 <= c < ncols.

Lemma VPixel_Forall (P : Z -> Prop) (b' r' c' : Z) :
  Forall P d -> 0 <= b' < nbands -> 0 <= r' < nrows -> 0 <= c' < ncols ->
  P (VPixel nrows ncols d b' r' c').
Proof.
  intros HP Hb Hr Hc. unfold VPixel.
  apply (getpix_Forall P d); [exact HP|].
  pose proof (pixel_index_range nbands nrows ncols b' r' c' Hb Hr Hc). lia.
Qed.

Lemma VFloat_max_large : 2 ^ 24 <= VFloat_max.
Proof. unfold VFloat_max. lia. Qed.

Lemma second_pass_float_is_min :
  VPixel nrows ncols src b r c <> 1 -> float_field_ok nbands nrows d ->
  is_min_over (fun rr => VPixel nrows ncols d b rr c + (r - rr) ^ 2)
    (Z.max 0 (r - Z.sqrt (VPixel nrows ncols d b r c)))
    (Z.min nrows (r + Z.sqrt (VPixel nrows ncols d b r c) + 1))
    (VPixel nrows ncols (second_pass_float nbands nrows ncols src d) b r c).
Proof.
  intros Hbg Hok. rewrite second_pass_float_eq.
  apply second_pass_is_min; try assumption.
  - pose proof (VPixel_Forall _ b r c Hok b_range r_range c_range) as H. simpl in H.
    pose proof VFloat_max_large.
    assert (0 <= nrows * nrows) by nia. assert (0 <= nbands * nbands) by nia. lia.
  - intros rr Hrr.
    pose proof (VPixel_Forall _ b rr c Hok b_range Hrr c_range) as H. simpl in H.
    pose proof (square_diff_bounds nrows r rr r_range Hrr).
    apply VFloat_of_Z_small. lia.
  - reflexivity.
Qed.

Lemma third_pass_float_is_min :
  VPixel nrows ncols src b r c <> 1 -> float_field_ok nbands nrows d ->
  is_min_over (fun bb => VPixel nrows ncols d bb r c + (b - bb) ^ 2)
    (Z.max 0 (b - Z.sqrt (VPixel nrows ncols d b r c) - 1))
    (Z.min nbands (b + Z.sqrt (VPixel nrows ncols d b r c) + 1))
    (VPixel nrows ncols (third_pass_float nbands nrows ncols src d) b r c).
Proof.
  intros Hbg Hok. rewrite third_pass_float_eq.
  apply third_pass_is_min; try assumption.
  - pose proof (VPixel_Forall _ b r c Hok b_range r_range c_range) as H. simpl in H.
    pose proof VFloat_max_large.
    assert (0 <= nrows * nrows) by nia. assert (0 <= nbands * nbands) by nia. lia.
  - intros bb Hbb.
    pose proof (VPixel_Forall _ bb r c Hok Hbb r_range c_range) as H. simpl in H.
    pose proof (square_diff_bounds nbands b bb b_range Hbb).
    apply VFloat_of_Z_small. lia.
  - reflexivity.
Qed.

Lemma second_pass_short_is_min :
  VPixel nrows ncols src b r c <> 1 -> short_field_ok d ->
  is_min_over (fun rr => VPixel nrows ncols d b rr c + (r - rr) ^ 2)
    (Z.max 0 (r - Z.sqrt (VPixel nrows ncols d b r c)))
    (Z.min nrows (r + Z.sqrt (VPixel nrows ncols d b r c) + 1))
    (VPixel nrows ncols (second_pass_short nbands nrows ncols src d) b r c).
Proof.
  intros Hbg Hok. rewrite second_pass_short_eq.
  apply second_pass_is_min; try assumption.
  - pose proof (VPixel_Forall _ b r c Hok b_range r_range c_range) as H. simpl in H.
    unfold VShort_max. lia.
  - reflexivity.
  - intros rr Hrr Hlt.
    pose proof (VPixel_Forall _ b rr c Hok b_range Hrr c_range) as H. simpl in H.
    pose proof (square_diff_bounds nrows r rr r_range Hrr).
    apply VShort_of_int_small. unfold VShort_max in Hlt. lia.
Qed.

Lemma third_pass_short_is_min :
  VPixel nrows ncols src b r c <> 1 -> short_field_ok d ->
  is_min_over (fun bb => VPixel nrows ncols d bb r c + (b - bb) ^ 2)
    (Z.max 0 (b - Z.sqrt (VPixel nrows ncols d b r c) - 1))
    (Z.min nbands (b + Z.sqrt (VPixel nrows ncols d b r c) + 1))
    (VPixel nrows ncols (third_pass_short nbands nrows ncols src d) b r c).
Proof.
  intros Hbg Hok. rewrite third_pass_short_eq.
  apply third_pass_is_min; try assumption.
  - pose proof (VPixel_Forall _ b r c Hok b_range r_range c_range) as H. simpl in H.
    unfold VShort_max. lia.
  - reflexivity.
  - intros bb Hbb Hlt.
    pose proof (VPixel_Forall _ bb r c Hok Hbb r_range c_range) as H. simpl in H.
    pose proof (square_diff_bounds nbands b bb b_range Hbb).
    apply VShort_of_int_small. unfold VShort_max in Hlt. lia.
Qed.
End MinimizeVariants.

(** ** The fields of the pipeline are representable

    On volumes whose extents keep the squared distances within the element
    type, every field the passes produce satisfies [float_field_ok], resp.
    [short_field_ok]. *)

Lemma pixel_index_decode (nbands nrows ncols i : Z) :
  0 <= nbands -> 0 <= nrows -> 0 <= ncols ->
  0 <= i < nbands * nrows * ncols ->
  exists b r c, 0 <= b < nbands /\ 0 <= r < nrows /\ 0 <= c < ncols /\
                pixel_index nrows ncols b r c = i.
Proof.
  intros Hnb Hnr Hnc Hi.
  assert (0 < nrows) by nia. assert (0 < ncols) by nia.
  exists (i / (nrows * ncols)), ((i / ncols) mod nrows), (i mod ncols).
  pose proof (Z.mod_pos_bound (i / ncols) nrows ltac:(lia)).
  pose proof (Z.mod_pos_bound i ncols ltac:(lia)).
  assert (Hb : i / (nrows * ncols) = i / ncols / nrows).
  { rewrite Z.div_div by lia. f_equal. lia. }
  split; [split|].
  - apply Z.div_pos; nia.
  - apply Z.div_lt_upper_bound; nia.
  - split; [assumption|]. split; [assumption|].
    unfold pixel_index. rewrite Hb.
    pose proof (Z.div_mod (i / ncols) nrows ltac:(lia)).
    pose proof (Z.div_mod i ncols ltac:(lia)).
    nia.
Qed.

Lemma Forall_voxels (P : Z -> Prop) (nbands nrows ncols : Z) (d : list Z) :
  0 <= nbands -> 0 <= nrows -> 0 <= ncols ->
  length d = Z.to_nat (nbands * nrows * ncols) ->
  (forall b r c, 0 <= b < nbands -> 0 <= r < nrows -> 0 <= c < ncols ->
                 P (VPixel nrows ncols d b r c)) ->
  Forall P d.
Proof.
  intros Hnb Hnr Hnc Hd HP. apply Forall_lookup. intros i x Hx.
  pose proof (lookup_lt_Some _ _ _ Hx) as Hi.
  destruct (pixel_index_decode nbands nrows ncols (Z.of_nat i))
    as (b & r & c & Hb & Hr & Hc & E); [assumption..|lia|].
  specialize (HP b r c Hb Hr Hc). unfold VPixel in HP.
  rewrite E, (getpix_lookup _ _ _ Hx) in HP. exact HP.
Qed.

Section StepRanges.
Variables nrows ncols : Z.
Variable src : list Z.
Variables b r c : Z.
Hypothesis c_range : 0 <= c < ncols.

Lemma forward_steps_range : 0 <= forward_steps nrows ncols src b r c <= ncols.
Proof.
  unfold forward_steps.
  destruct (forward_stop_spec nrows ncols src b r c) as (Hr & _ & _); [lia|].
  destruct (Z.geb_spec (forward_stop nrows ncols src b r c) ncols); lia.
Qed.

Lemma backward_steps_float_range : 0 <= backward_steps_float nrows ncols src b r c <= ncols.
Proof.
  unfold backward_steps_float.
  destruct (backward_stop_spec nrows ncols src b r c) as (Hr & _ & _); [lia|].
  destruct (Z.leb_spec (backward_stop nrows ncols src b r c) 0); lia.
Qed.

Lemma backward_steps_short_range : 0 <= backward_steps_short nrows ncols src b r c <= ncols.
Proof.
  unfold backward_steps_short.
  destruct (backward_stop_spec nrows ncols src b r c) as (Hr & _ & _); [lia|].
  destruct (Z.ltb_spec (backward_stop nrows ncols src b r c) 0); lia.
Qed.

Lemma first_value_float_range :
  ncols * ncols <= 2 ^ 24 ->
  0 <= first_value_float nrows ncols src b r c <= ncols * ncols.
Proof.
  intros Hn. unfold first_value_float.
  destruct (VPixel nrows ncols src b r c =? 1); [nia|].
  pose proof forward_steps_range. pose proof backward_steps_float_range.
  set (d1 := forward_steps nrows ncols src b r c) in *.
  set (d2 := backward_steps_float nrows ncols src b r c) in *.
  cbv zeta.
  assert (Hd : 0 <= (if d1 <=? d2 then d1 else d2) <= ncols)
    by (destruct (d1 <=? d2); lia).
  pose proof (square_le_square _ _ Hd).
  rewrite VFloat_of_Z_small by lia. lia.
Qed.

Lemma first_value_short_range :
  ncols * ncols <= 32767 -> 0 <= nrows <= 255 ->
  0 <= first_value_short nrows ncols src b r c <= 32767.
Proof.
  intros Hn Hr. unfold first_value_short.
  destruct (row_has_foreground nrows ncols src b r).
  - destruct (VPixel nrows ncols src b r c =? 1); [lia|].
    pose proof forward_steps_range. pose proof backward_steps_short_range.
    set (d1 := forward_steps nrows ncols src b r c) in *.
    set (d2 := backward_steps_short nrows ncols src b r c) in *.
    cbv zeta.
    assert (Hd : 0 <= (if d1 <? d2 then d1 else d2) <= ncols)
      by (destruct (d1 <? d2); lia).
    pose proof (square_le_square _ _ Hd).
    rewrite VShort_of_int_small by lia. lia.
  - unfold VShort_of_half_square.
    assert (0 <= nrows * nrows <= 255 * 255) by (apply square_le_square; lia).
    rewrite Z.quot_div_nonneg by lia.
    assert (0 <= nrows * nrows / 2) by (apply Z.div_pos; lia).
    assert (Hq : nrows * nrows / 2 <= 255 * 255 / 2) by (apply Z.div_le_mono; lia).
    change (255 * 255 / 2) with 32512 in Hq.
    rewrite VShort_of_int_small by lia. lia.
Qed.
End StepRanges.

Section PipelineFields.
Variables nbands nrows ncols : Z.
Variable src : list Z.
Hypothesis nbands_nonneg : 0 <= nbands.
Hypothesis nrows_nonneg : 0 <= nrows.
Hypothesis ncols_nonneg : 0 <= ncols.

Lemma first_pass_float_ok :
  ncols * ncols + nrows * nrows <= 2 ^ 24 ->
  ncols * ncols + nbands * nbands <= 2 ^ 24 ->
  float_field_ok nbands nrows
    (first_pass_float nbands nrows ncols src (cleared nbands nrows ncols)).
Proof.
  intros H1 H2. apply (Forall_voxels _ nbands nrows ncols); try assumption.
  - rewrite first_pass_float_length. apply cleared_length.
  - intros b r c Hb Hr Hc.
    rewrite first_pass_float_get by (try apply cleared_length; assumption).
    assert (0 <= nrows * nrows) by nia.
    pose proof (first_value_float_range nrows ncols src b r c Hc ltac:(lia)). lia.
Qed.

Lemma first_pass_short_ok :
  ncols * ncols <= 32767 -> nrows <= 255 ->
  short_field_ok (first_pass_short nbands nrows ncols src (cleared nbands nrows ncols)).
Proof.
  intros H1 H2. apply (Forall_voxels _ nbands nrows ncols); try assumption.
  - rewrite first_pass_short_length. apply cleared_length.
  - intros b r c Hb Hr Hc.
    rewrite first_pass_short_get by (try apply cleared_length; assumption).
    apply first_value_short_range; lia.
Qed.

Lemma is_min_over_range (f : Z -> Z) (lo hi m i : Z) :
  is_min_over f lo hi m -> lo <= i < hi -> (forall k, lo <= k < hi -> 0 <= f k) ->
  0 <= m <= f i.
Proof.
  intros [(k & Hk & ->) Hlow] Hi Hpos. split; [apply Hpos; exact Hk|apply Hlow; exact Hi].
Qed.

Lemma minimization_keeps_float_ok (d : list Z) :
  length d = Z.to_nat (nbands * nrows * ncols) ->
  float_field_ok nbands nrows d ->
  float_field_ok nbands nrows (second_pass_float nbands nrows ncols src d) /\
  float_field_ok nbands nrows (third_pass_float nbands nrows ncols src d).
Proof.
  intros Hd Hok.
  assert (Hvox : forall b r c, 0 <= b < nbands -> 0 <= r < nrows -> 0 <= c < ncols ->
            0 <= VPixel nrows ncols d b r c /\
            VPixel nrows ncols d b r c + nrows * nrows <= 2 ^ 24 /\
            VPixel nrows ncols d b r c + nbands * nbands <= 2 ^ 24).
  { intros b r c Hb Hr Hc. exact (VPixel_Forall nbands nrows ncols d Hd _ b r c Hok Hb Hr Hc). }
  split.
  - apply (Forall_voxels _ nbands nrows ncols); try assumption.
    + rewrite second_pass_float_eq, second_pass_length. exact Hd.
    + intros b r c Hb Hr Hc. pose proof (Hvox b r c Hb Hr Hc) as Hown.
      destruct (Z.eq_dec (VPixel nrows ncols src b r c) 1) as [Hfg|Hbg].
      * rewrite second_pass_float_eq, second_pass_get by assumption.
        rewrite Hfg. simpl. exact Hown.
      * pose proof (second_pass_float_is_min nbands nrows ncols src d b r c
                      Hd Hb Hr Hc Hbg Hok) as Hmin.
        pose proof (Z.sqrt_nonneg (VPixel nrows ncols d b r c)).
        apply (is_min_over_range _ _ _ _ r) in Hmin; [|lia|].
        -- cbv beta in Hmin. rewrite Z.sub_diag in Hmin. simpl in Hmin. lia.
        -- intros k Hk. pose proof (Hvox b k c Hb ltac:(lia) Hc).
           pose proof (Z.pow_nonneg (r - k) 2). nia.
  - apply (Forall_voxels _ nbands nrows ncols); try assumption.
    + rewrite third_pass_float_eq, third_pass_length. exact Hd.
    + intros b r c Hb Hr Hc. pose proof (Hvox b r c Hb Hr Hc) as Hown.
      destruct (Z.eq_dec (VPixel nrows ncols src b r c) 1) as [Hfg|Hbg].
      * rewrite third_pass_float_eq, third_pass_get by assumption.
        rewrite Hfg. simpl. exact Hown.
      * pose proof (third_pass_float_is_min nbands nrows ncols src d b r c
                      Hd Hb Hr Hc Hbg Hok) as Hmin.
        pose proof (Z.sqrt_nonneg (VPixel nrows ncols d b r c)).
        apply (is_min_over_range _ _ _ _ b) in Hmin; [|lia|].
        -- cbv beta in Hmin. rewrite Z.sub_diag in Hmin. simpl in Hmin. lia.
        -- intros k Hk. pose proof (Hvox k r c ltac:(lia) Hr Hc).
           pose proof (Z.pow_nonneg (b - k) 2). nia.
Qed.

Lemma minimization_keeps_short_ok (d : list Z) :
  length d = Z.to_nat (nbands * nrows * ncols) ->
  short_field_ok d ->
  short_field_ok (second_pass_short nbands nrows ncols src d) /\
  short_field_ok (third_pass_short nbands nrows ncols src d).
Proof.
  intros Hd Hok.
  assert (Hvox : forall b r c, 0 <= b < nbands -> 0 <= r < nrows -> 0 <= c < ncols ->
            0 <= VPixel nrows ncols d b r c <= 32767).
  { intros b r c Hb Hr Hc. exact (VPixel_Forall nbands nrows ncols d Hd _ b r c Hok Hb Hr Hc). }
  split.
  - apply (Forall_voxels _ nbands nrows ncols); try assumption.
    + rewrite second_pass_short_eq, second_pass_length. exact Hd.
    + intros b r c Hb Hr Hc. pose proof (Hvox b r c Hb Hr Hc) as Hown.
      destruct (Z.eq_dec (VPixel nrows ncols src b r c) 1) as [Hfg|Hbg].
      * rewrite second_pass_short_eq, second_pass_get by assumption.
        rewrite Hfg. simpl. exact Hown.
      * pose proof (second_pass_short_is_min nbands nrows ncols src d b r c
                      Hd Hb Hr Hc Hbg Hok) as Hmin.
        pose proof (Z.sqrt_nonneg (VPixel nrows ncols d b r c)).
        apply (is_min_over_range _ _ _ _ r) in Hmin; [|lia|].
        -- cbv beta in Hmin. rewrite Z.sub_diag in Hmin. simpl in Hmin. lia.
        -- intros k Hk. pose proof (Hvox b k c Hb ltac:(lia) Hc).
           pose proof (Z.pow_nonneg (r - k) 2). nia.
  - apply (Forall_voxels _ nbands nrows ncols); try assumption.
    + rewrite third_pass_short_eq, third_pass_length. exact Hd.
    + intros b r c Hb Hr Hc. pose proof (Hvox b r c Hb Hr Hc) as Hown.
      destruct (Z.eq_dec (VPixel nrows ncols src b r c) 1) as [Hfg|Hbg].
      * rewrite third_pass_short_eq, third_pass_get by assumption.
        rewrite Hfg. simpl. exact Hown.
      * pose proof (third_pass_short_is_min nbands nrows ncols src d b r c
                      Hd Hb Hr Hc Hbg Hok) as Hmin.
        pose proof (Z.sqrt_nonneg (VPixel nrows ncols d b r c)).
        apply (is_min_over_range _ _ _ _ b) in Hmin; [|lia|].
        -- cbv beta in Hmin. rewrite Z.sub_diag in Hmin. simpl in Hmin. lia.
        -- intros k Hk. pose proof (Hvox k r c ltac:(lia) Hr Hc).
           pose proof (Z.pow_nonneg (b - k) 2). nia.
Qed.
End PipelineFields.

(** C10. In both variants, on a field whose squared values the element
    type represents, the second and the third pass never increase a
    voxel's value: the window always holds the voxel's own index
    (istart <= r < iend, istart <= b < iend, after clamping), the value
    written at a background voxel is at most the value it held before the
    pass, and a foreground voxel keeps its value. *)
Theorem C10_minimization_passes_never_increase
    (nbands nrows ncols : Z) (src df ds : list Z) (b r c : Z) :
  length df = Z.to_nat (nbands * nrows * ncols) ->
  length ds = Z.to_nat (nbands * nrows * ncols) ->
  0 <= b < nbands -> 0 <= r < nrows -> 0 <= c < ncols ->
  float_field_ok nbands nrows df ->
  short_field_ok ds ->
  (forall scratch : list Z,
     window_start 0 scratch r <= r < window_end nrows scratch r /\
     window_start 1 scratch b <= b < window_end nbands scratch b) /\
  VPixel nrows ncols (second_pass_float nbands nrows ncols src df) b r c
    <= VPixel nrows ncols df b r c /\
  VPixel nrows ncols (third_pass_float nbands nrows ncols src df) b r c
    <= VPixel nrows ncols df b r c /\
  VPixel nrows ncols (second_pass_short nbands nrows ncols src ds) b r c
    <= VPixel nrows ncols ds b r c /\
  VPixel nrows ncols (third_pass_short nbands nrows ncols src ds) b r c
    <= VPixel nrows ncols ds b r c /\
  (VPixel nrows ncols src b r c = 1 ->
   VPixel nrows ncols (second_pass_float nbands nrows ncols src df) b r c
     = VPixel nrows ncols df b r c /\
   VPixel nrows ncols (third_pass_float nbands nrows ncols src df) b r c
     = VPixel nrows ncols df b r c /\
   VPixel nrows ncols (second_pass_short nbands nrows ncols src ds) b r c
     = VPixel nrows ncols ds b r c /\
   VPixel nrows ncols (third_pass_short nbands nrows ncols src ds) b r c
     = VPixel nrows ncols ds b r c).
Proof.
  intros Hdf Hds Hb Hr Hc Hokf Hoks.
  assert (Hskip : VPixel nrows ncols src b r c = 1 ->
    VPixel nrows ncols (second_pass_float nbands nrows ncols src df) b r c
      = VPixel nrows ncols df b r c /\
    VPixel nrows ncols (third_pass_float nbands nrows ncols src df) b r c
      = VPixel nrows ncols df b r c /\
    VPixel nrows ncols (second_pass_short nbands nrows ncols src ds) b r c
      = VPixel nrows ncols ds b r c /\
    VPixel nrows ncols (third_pass_short nbands nrows ncols src ds) b r c
      = VPixel nrows ncols ds b r c).
  { intros Hfg.
    rewrite second_pass_float_eq, third_pass_float_eq,
      second_pass_short_eq, third_pass_short_eq.
    rewrite !second_pass_get, !third_pass_get by assumption.
    rewrite Hfg. simpl. repeat split; reflexivity. }
  split.
  { intros scratch. split; apply window_contains_own; lia. }
  destruct (Z.eq_dec (VPixel nrows ncols src b r c) 1) as [Hfg|Hbg].
  - destruct (Hskip Hfg) as (E1 & E2 & E3 & E4).
    rewrite E1, E2, E3, E4. repeat split; lia.
  - assert (Hown : forall (f : Z -> Z) lo hi m i,
               is_min_over f lo hi m -> lo <= i < hi -> m <= f i).
    { intros f lo hi m i [_ Hlow] Hi. apply Hlow. exact Hi. }
    pose proof (second_pass_float_is_min nbands nrows ncols src df b r c
                  Hdf Hb Hr Hc Hbg Hokf) as M1.
    pose proof (third_pass_float_is_min nbands nrows ncols src df b r c
                  Hdf Hb Hr Hc Hbg Hokf) as M2.
    pose proof (second_pass_short_is_min nbands nrows ncols src ds b r c
                  Hds Hb Hr Hc Hbg Hoks) as M3.
    pose proof (third_pass_short_is_min nbands nrows ncols src ds b r c
                  Hds Hb Hr Hc Hbg Hoks) as M4.
    pose proof (Z.sqrt_nonneg (VPixel nrows ncols df b r c)).
    pose proof (Z.sqrt_nonneg (VPixel nrows ncols ds b r c)).
    apply (Hown _ _ _ _ r) in M1; [|lia].
    apply (Hown _ _ _ _ b) in M2; [|lia].
    apply (Hown _ _ _ _ r) in M3; [|lia].
    apply (Hown _ _ _ _ b) in M4; [|lia].
    cbv beta in M1, M2, M3, M4.
    rewrite Z.sub_diag in M1, M2, M3, M4. simpl in M1, M2, M3, M4.
    rewrite Z.add_0_r in M1, M2, M3, M4.
    repeat split; try assumption; apply Hskip; assumption.
Qed.

Lemma C10_minimization_passes_never_increase_witness :
  VPixel 3 1 (second_pass_short 1 3 1 [1; 0; 0] [0; 4; 4]) 0 1 0
    <= VPixel 3 1 [0; 4; 4] 0 1 0.
Proof.
  apply (C10_minimization_passes_never_increase 1 3 1 [1; 0; 0] [0; 1; 1] [0; 4; 4] 0 1 0).
  - reflexivity.
  - reflexivity.
  - lia.
  - lia.
  - lia.
  - unfold float_field_ok. repeat (constructor; [lia|]). constructor.
  - unfold short_field_ok. repeat (constructor; [lia|]). constructor.
Defined.

(** ** First pass: step counts and written values *)


Section StepCounts.
Variables nrows ncols : Z.
Variable src : list Z.
Variables b r c : Z.
Hypothesis c_range : 0 <= c < ncols.

Lemma forward_steps_spec (d1 : Z) :
  forward_distance nrows ncols src b r c d1 ->
  forward_steps nrows ncols src b r c = d1 /\ 0 <= d1 <= ncols.
Proof.
  intros Hd. unfold forward_steps.
  destruct (forward_stop_spec nrows ncols src b r c) as (Hr & Hz & Hs); [lia|].
  set (cc1 := forward_stop nrows ncols src b r c) in *.
  destruct Hd as [(k & Hk & Hfg & Hzero & ->)|[Hzero ->]].
  - assert (cc1 = k) as ->.
    { destruct (Z.lt_trichotomy cc1 k) as [Hlt|[E|Hgt]]; [|exact E|].
      - exfalso. apply Hs; [lia|]. apply Hzero. lia.
      - exfalso. rewrite Hz in Hfg by lia. discriminate. }
    destruct (Z.geb_spec k ncols); lia.
  - assert (cc1 = ncols) as ->.
    { destruct (Z.eq_dec cc1 ncols) as [E|Hne]; [exact E|].
      exfalso. apply Hs; [lia|]. apply Hzero. lia. }
    destruct (Z.geb_spec ncols ncols); lia.
Qed.

Lemma backward_stop_at (lowest d2 : Z) :
  0 <= lowest ->
  backward_distance lowest nrows ncols src b r c d2 ->
  (lowest <= backward_stop nrows ncols src b r c /\
   d2 = c - backward_stop nrows ncols src b r c)
  \/ (backward_stop nrows ncols src b r c = -1 /\ d2 = ncols).
Proof.
  intros Hlow Hd.
  destruct (backward_stop_spec nrows ncols src b r c) as (Hr & Hz & Hs); [lia|].
  set (cc2 := backward_stop nrows ncols src b r c) in *.
  destruct Hd as [(k & Hk & Hfg & Hzero & ->)|[Hzero ->]].
  - left. assert (cc2 = k) as ->; [|lia].
    destruct (Z.lt_trichotomy cc2 k) as [Hlt|[E|Hgt]]; [|exact E|].
    + exfalso. rewrite Hz in Hfg by lia. discriminate.
    + exfalso. apply Hs; [lia|]. apply Hzero. lia.
  - right. split; [|reflexivity].
    destruct (Z.eq_dec cc2 (-1)) as [E|Hne]; [exact E|].
    exfalso. apply Hs; [lia|]. apply Hzero. lia.
Qed.

Lemma backward_steps_short_spec (d2 : Z) :
  backward_distance 0 nrows ncols src b r c d2 ->
  backward_steps_short nrows ncols src b r c = d2 /\ 0 <= d2 <= ncols.
Proof.
  intros Hd. unfold backward_steps_short.
  destruct (backward_stop_at 0 d2 (Z.le_refl 0) Hd) as [[H ->]|[-> ->]].
  - pose proof (backward_stop_spec nrows ncols src b r c) as Hs.
    destruct Hs as (Hr & _ & _); [lia|].
    destruct (Z.ltb_spec (backward_stop nrows ncols src b r c) 0); lia.
  - simpl. lia.
Qed.

Lemma backward_steps_float_spec (d2 : Z) :
  backward_distance 1 nrows ncols src b r c d2 ->
  backward_steps_float nrows ncols src b r c = d2 /\ 0 <= d2 <= ncols.
Proof.
  intros Hd. unfold backward_steps_float.
  destruct (backward_stop_at 1 d2 Z.le_0_1 Hd) as [[H ->]|[-> ->]].
  - pose proof (backward_stop_spec nrows ncols src b r c) as Hs.
    destruct Hs as (Hr & _ & _); [lia|].
    destruct (Z.leb_spec (backward_stop nrows ncols src b r c) 0); lia.
  - simpl. lia.
Qed.
End StepCounts.

(** ** What the column pass stores *)

Section ColumnStores.
Variables nbands nrows ncols : Z.
Variables src d : list Z.
Variables b r c : Z.
Hypothesis d_length : length d = Z.to_nat (nbands * nrows * ncols).
Hypothesis b_range : 0 <= b < nbands.
Hypothesis r_range : 0 <= r < nrows.
Hypothesis c_range : 0 <= c < ncols.
Hypothesis background : VPixel nrows ncols src b r c = 0.

Lemma first_pass_float_stores (d1 d2 : Z) :
  forward_steps nrows ncols src b r c = d1 ->
  backward_steps_float nrows ncols src b r c = d2 ->
  VPixel nrows ncols (first_pass_float nbands nrows ncols src d) b r c
  = VFloat_of_Z ((Z.min d1 d2) ^ 2).
Proof.
  intros E1 E2. rewrite first_pass_float_get by assumption.
  unfold first_value_float. rewrite background, E1, E2. simpl (0 =? 1). cbv iota zeta.
  assert (Hmin : (if d1 <=? d2 then d1 else d2) = Z.min d1 d2)
    by (destruct (Z.leb_spec d1 d2); lia).
  rewrite Hmin, Z.pow_2_r. reflexivity.
Qed.

Lemma first_pass_short_stores (d1 d2 : Z) :
  (exists c', 0 <= c' < ncols /\ VPixel nrows ncols src b r c' = 1) ->
  forward_steps nrows ncols src b r c = d1 ->
  backward_steps_short nrows ncols src b r c = d2 ->
  VPixel nrows ncols (first_pass_short nbands nrows ncols src d) b r c
  = VShort_of_int ((Z.min d1 d2) ^ 2).
Proof.
  intros Hrow E1 E2. rewrite first_pass_short_get by assumption.
  unfold first_value_short.
  assert (Hhas : row_has_foreground nrows ncols src b r = true)
    by (apply row_has_foreground_spec; [lia|exact Hrow]).
  rewrite Hhas, background, E1, E2. simpl (0 =? 1). cbv iota zeta.
  assert (Hmin : (if d1 <? d2 then d1 else d2) = Z.min d1 d2)
    by (destruct (Z.ltb_spec d1 d2); lia).
  rewrite Hmin, Z.pow_2_r. reflexivity.
Qed.
End ColumnStores.


(** A row of [k] background voxels followed by one foreground voxel. *)
Lemma getpix_zeros_then_one (k j : Z) :
  0 <= j <= k ->
  getpix (replicate (Z.to_nat k) 0 ++ [1]) j = if j =? k then 1 else 0.
Proof.
  intros Hj. destruct (Z.eqb_spec j k) as [->|Hne].
  - rewrite <- (Z2Nat.id k) at 2 by lia.
    rewrite <- (length_replicate (Z.to_nat k) 0) at 2.
    apply getpix_snoc.
  - rewrite getpix_app_l by (rewrite length_replicate; lia).
    apply getpix_replicate.
Qed.




(** ** The window loop with a rounding store *)

Section WindowScanRounded.
Variables (conv_u conv_d : Z -> Z) (array : list Z) (i istart iend dmax : Z).

Local Abbreviation cand := (window_candidate array i).

Hypothesis conv_d_exact :
  forall ii, istart <= ii < iend -> conv_u (cand ii) < dmax ->
             conv_d (conv_u (cand ii)) = conv_u (cand ii).

(** The loop returns [dmax] or the least converted candidate. *)
Lemma window_scan_rounded_bounds :
  let m := window_scan conv_u conv_d array i istart iend dmax in
  m <= dmax /\
  (forall ii, istart <= ii < iend -> m <= conv_u (cand ii)) /\
  (m = dmax \/ exists ii, istart <= ii < iend /\ m = conv_u (cand ii)).
Proof.
  unfold window_scan.
  destruct (Z.le_gt_cases istart iend) as [Hle|Hgt].
  - apply (for_range_ind (fun k m =>
      k <= iend ->
      m <= dmax /\
      (forall ii, istart <= ii < k -> m <= conv_u (cand ii)) /\
      (m = dmax \/ exists ii, istart <= ii < k /\ m = conv_u (cand ii))));
      [exact Hle| | |lia].
    + intros _. split; [lia|]. split; [intros; lia|left; reflexivity].
    + intros k m Hk IH Hk'. destruct IH as (Hm & Hlow & Hex); [lia|].
      change (getpix array k + (i - k) * (i - k)) with (cand k).
      destruct (Z.ltb_spec (conv_u (cand k)) m) as [Hlt|Hge].
      * rewrite conv_d_exact by lia. split; [lia|]. split.
        -- intros ii Hii. destruct (Z.eq_dec ii k) as [->|Hne]; [lia|].
           specialize (Hlow ii). lia.
        -- right. exists k. split; [lia|reflexivity].
      * split; [exact Hm|]. split.
        -- intros ii Hii. destruct (Z.eq_dec ii k) as [->|Hne]; [lia|].
           apply Hlow. lia.
        -- destruct Hex as [->|(ii & Hii & ->)]; [left; reflexivity|].
           right. exists ii. split; [lia|reflexivity].
  - rewrite for_range_nil by lia.
    split; [lia|]. split; [intros; lia|left; reflexivity].
Qed.

(** When the conversion keeps the window minimum [m] and moves no
    candidate below it, the loop returns [m]. *)
Lemma window_scan_writes_min (m : Z) :
  is_min_over cand istart iend m ->
  (forall ii, istart <= ii < iend -> m <= cand ii -> m <= conv_u (cand ii)) ->
  conv_u m = m -> m <= dmax ->
  window_scan conv_u conv_d array i istart iend dmax = m.
Proof.
  intros [(k0 & Hk0 & E0) Hleast] Hkeep Hm Hmax.
  destruct window_scan_rounded_bounds as (_ & Hlow & Hex).
  apply Z.le_antisymm.
  - specialize (Hlow k0 Hk0). rewrite <- E0, Hm in Hlow. exact Hlow.
  - destruct Hex as [->|(ii & Hii & ->)]; [exact Hmax|].
    apply Hkeep; [exact Hii|]. apply Hleast. exact Hii.
Qed.

Lemma window_scan_rounded_is_min :
  istart <= i < iend -> conv_u (cand i) <= dmax ->
  is_min_over (fun ii => conv_u (cand ii)) istart iend
    (window_scan conv_u conv_d array i istart iend dmax).
Proof.
  intros Hi Hown.
  destruct window_scan_rounded_bounds as (Hm & Hlow & Hex).
  split; [|exact Hlow].
  destruct Hex as [E|Hex]; [|exact Hex].
  exists i. split; [exact Hi|].
  specialize (Hlow i Hi). lia.
Qed.
End WindowScanRounded.

Section LineRounded.
Variables (n extra dmax : Z) (conv_u conv_d : Z -> Z) (at_ : Z -> Z).
Variables (d : list Z) (i : Z).

Local Abbreviation v := (fun k => getpix d (at_ k)).
Local Abbreviation cand := (fun k => getpix d (at_ k) + (i - k) * (i - k)).
Local Abbreviation lo := (Z.max 0 (i - Z.sqrt (getpix d (at_ i)) - extra)).
Local Abbreviation hi := (Z.min n (i + Z.sqrt (getpix d (at_ i)) + 1)).

Hypothesis i_range : 0 <= i < n.
Hypothesis extra_nonneg : 0 <= extra.
Hypothesis conv_d_exact :
  forall k, 0 <= k < n -> conv_u (cand k) < dmax -> conv_d (conv_u (cand k)) = conv_u (cand k).

Lemma line_value_writes_min (m : Z) :
  is_min_over cand lo hi m ->
  (forall k, 0 <= k < n -> m <= cand k -> m <= conv_u (cand k)) ->
  conv_u m = m -> m <= dmax ->
  line_value n extra dmax conv_u conv_d at_ d i = m.
Proof.
  intros Hmin Hkeep Hm Hmax. unfold line_value.
  set (array := load_line n at_ d).
  assert (Harr : forall k, 0 <= k < n -> getpix array k = v k)
    by (intros k Hk; apply load_line_get; exact Hk).
  pose proof (window_contains_own n extra array i i_range extra_nonneg) as Hwin.
  rewrite window_start_max, window_end_min in *.
  rewrite (Harr i i_range) in *.
  assert (Hsub : forall k, lo <= k < hi -> 0 <= k < n) by (intros k Hk; lia).
  apply window_scan_writes_min.
  - intros k Hk. unfold window_candidate. rewrite (Harr k) by (apply Hsub; exact Hk).
    apply conv_d_exact. apply Hsub. exact Hk.
  - revert Hmin. apply is_min_over_ext. intros k Hk.
    unfold window_candidate. rewrite (Harr k) by (apply Hsub; exact Hk). reflexivity.
  - intros k Hk. unfold window_candidate. rewrite (Harr k) by (apply Hsub; exact Hk).
    apply Hkeep. apply Hsub. exact Hk.
  - exact Hm.
  - exact Hmax.
Qed.

Lemma line_value_rounded_is_min :
  conv_u (v i) <= dmax ->
  is_min_over (fun k => conv_u (cand k)) lo hi
    (line_value n extra dmax conv_u conv_d at_ d i).
Proof.
  intros Hown. unfold line_value.
  set (array := load_line n at_ d).
  assert (Harr : forall k, 0 <= k < n -> getpix array k = v k)
    by (intros k Hk; apply load_line_get; exact Hk).
  pose proof (window_contains_own n extra array i i_range extra_nonneg) as Hwin.
  rewrite window_start_max, window_end_min in *.
  rewrite (Harr i i_range) in *.
  assert (Hsub : forall k, lo <= k < hi -> 0 <= k < n) by (intros k Hk; lia).
  pose proof (window_scan_rounded_is_min conv_u conv_d array i lo hi dmax) as H.
  apply (is_min_over_ext (fun ii => conv_u (window_candidate array i ii))).
  - intros k Hk. unfold window_candidate. rewrite (Harr k) by (apply Hsub; exact Hk).
    reflexivity.
  - apply H.
    + intros k Hk. unfold window_candidate. rewrite (Harr k) by (apply Hsub; exact Hk).
      apply conv_d_exact. apply Hsub. exact Hk.
    + exact Hwin.
    + unfold window_candidate. rewrite (Harr i i_range).
      rewrite Z.sub_diag, Z.add_0_r. exact Hown.
Qed.
End LineRounded.

(** ** The second and the third pass on any field of the element type *)

Section MinimizeExact.
Variables nbands nrows ncols : Z.
Variables src d : list Z.
Variables b r c : Z.

Hypothesis d_length : length d = Z.to_nat (nbands * nrows * ncols).
Hypothesis b_range : 0 <= b < nbands.
Hypothesis r_range : 0 <= r < nrows.
Hypothesis c_range : 0 <= c < ncols.
Hypothesis background : VPixel nrows ncols src b r c <> 1.

Local Abbreviation row_cand := (fun rr => VPixel nrows ncols d b rr c + (r - rr) ^ 2).
Local Abbreviation band_cand := (fun bb => VPixel nrows ncols d bb r c + (b - bb) ^ 2).
Local Abbreviation row_lo := (Z.max 0 (r - Z.sqrt (VPixel nrows ncols d b r c))).
Local Abbreviation row_hi := (Z.min nrows (r + Z.sqrt (VPixel nrows ncols d b r c) + 1)).
Local Abbreviation band_lo := (Z.max 0 (b - Z.sqrt (VPixel nrows ncols d b r c) - 1)).
Local Abbreviation band_hi := (Z.min nbands (b + Z.sqrt (VPixel nrows ncols d b r c) + 1)).

Lemma keeps_above (m x : Z) : VFloat_holds m -> m <= x -> m <= VFloat_of_Z x.
Proof.
  intros Hm Hx. rewrite <- (VFloat_of_Z_exact m Hm). apply VFloat_of_Z_mono. exact Hx.
Qed.

Lemma second_pass_float_writes_min (m : Z) :
  is_min_over row_cand row_lo row_hi m -> VFloat_holds m ->
  VPixel nrows ncols (second_pass_float nbands nrows ncols src d) b r c = m.
Proof.
  intros Hmin Hm. rewrite second_pass_float_eq, second_pass_get by assumption.
  destruct (Z.eqb_spec (VPixel nrows ncols src b r c) 1) as [E|_]; [contradiction|].
  apply (line_value_writes_min nrows 0 VFloat_max VFloat_of_Z same
           (fun r => pixel_index nrows ncols b r c) d r r_range (Z.le_refl 0)).
  - reflexivity.
  - cbv beta. rewrite Z.sub_0_r. revert Hmin. apply is_min_over_ext.
    intros k _. unfold VPixel. lia.
  - intros k _ Hk. apply keeps_above; assumption.
  - apply VFloat_of_Z_exact. exact Hm.
  - destruct Hm as [Hm _]. lia.
Qed.

Lemma third_pass_float_writes_min (m : Z) :
  is_min_over band_cand band_lo band_hi m -> VFloat_holds m ->
  VPixel nrows ncols (third_pass_float nbands nrows ncols src d) b r c = m.
Proof.
  intros Hmin Hm. rewrite third_pass_float_eq, third_pass_get by assumption.
  destruct (Z.eqb_spec (VPixel nrows ncols src b r c) 1) as [E|_]; [contradiction|].
  apply (line_value_writes_min nbands 1 VFloat_max VFloat_of_Z same
           (fun b => pixel_index nrows ncols b r c) d b b_range Z.le_0_1).
  - reflexivity.
  - cbv beta. revert Hmin. apply is_min_over_ext.
    intros k _. unfold VPixel. lia.
  - intros k _ Hk. apply keeps_above; assumption.
  - apply VFloat_of_Z_exact. exact Hm.
  - destruct Hm as [Hm _]. lia.
Qed.

(** What the float passes write in general: the least rounded candidate. *)
Lemma second_pass_float_rounded :
  VFloat_of_Z (VPixel nrows ncols d b r c) <= VFloat_max ->
  is_min_over (fun rr => VFloat_of_Z (row_cand rr)) row_lo row_hi
    (VPixel nrows ncols (second_pass_float nbands nrows ncols src d) b r c).
Proof.
  intros Hown. rewrite second_pass_float_eq, second_pass_get by assumption.
  destruct (Z.eqb_spec (VPixel nrows ncols src b r c) 1) as [E|_]; [contradiction|].
  pose proof (line_value_rounded_is_min nrows 0 VFloat_max VFloat_of_Z same
                (fun r => pixel_index nrows ncols b r c) d r r_range (Z.le_refl 0)
                (fun _ _ _ => eq_refl) Hown) as H.
  cbv beta in H. rewrite Z.sub_0_r in H.
  revert H. apply is_min_over_ext. intros k _. unfold VPixel. f_equal. lia.
Qed.

Section ShortBlock.
Hypothesis d_short : Forall VShort_holds d.

Lemma short_candidate_fits (v sq : Z) :
  VShort_holds v -> 0 <= sq -> v + sq < VShort_max -> VShort_of_int (v + sq) = v + sq.
Proof.
  unfold VShort_holds, VShort_max. intros Hv Hsq Hlt.
  apply VShort_of_int_small. lia.
Qed.

Lemma second_pass_short_block_is_min :
  is_min_over row_cand row_lo row_hi
    (VPixel nrows ncols (second_pass_short nbands nrows ncols src d) b r c).
Proof.
  rewrite second_pass_short_eq.
  apply second_pass_is_min; try assumption.
  - pose proof (VPixel_Forall nbands nrows ncols d d_length _ b r c d_short
                  b_range r_range c_range) as H.
    unfold VShort_holds in H. unfold VShort_max. lia.
  - reflexivity.
  - intros rr Hrr Hlt.
    apply short_candidate_fits; [|apply Z.square_nonneg|exact Hlt].
    exact (VPixel_Forall nbands nrows ncols d d_length _ b rr c d_short
             b_range Hrr c_range).
Qed.

Lemma third_pass_short_block_is_min :
  is_min_over band_cand band_lo band_hi
    (VPixel nrows ncols (third_pass_short nbands nrows ncols src d) b r c).
Proof.
  rewrite third_pass_short_eq.
  apply third_pass_is_min; try assumption.
  - pose proof (VPixel_Forall nbands nrows ncols d d_length _ b r c d_short
                  b_range r_range c_range) as H.
    unfold VShort_holds in H. unfold VShort_max. lia.
  - reflexivity.
  - intros bb Hbb Hlt.
    apply short_candidate_fits; [|apply Z.square_nonneg|exact Hlt].
    exact (VPixel_Forall nbands nrows ncols d d_length _ bb r c d_short
             Hbb r_range c_range).
Qed.
End ShortBlock.
End MinimizeExact.

(** The fields of the short variant are blocks of [VShort] pixels. *)
Lemma window_scan_cases (conv_u conv_d : Z -> Z) (array : list Z) (i istart iend dmax : Z) :
  let m := window_scan conv_u conv_d array i istart iend dmax in
  m = dmax \/ exists u, m = conv_d u.
Proof.
  unfold window_scan.
  destruct (Z.le_gt_cases istart iend) as [Hle|Hgt].
  - apply (for_range_ind (fun _ m => m = dmax \/ exists u, m = conv_d u)); [exact Hle| |].
    + left. reflexivity.
    + intros k m Hk IH. cbv zeta.
      destruct (_ <? m); [right; eexists; reflexivity|exact IH].
  - rewrite for_range_nil by lia. left. reflexivity.
Qed.

Lemma first_pass_short_block (nbands nrows ncols : Z) (src d : list Z) :
  0 <= nbands -> 0 <= nrows -> 0 <= ncols ->
  length d = Z.to_nat (nbands * nrows * ncols) ->
  Forall VShort_holds (first_pass_short nbands nrows ncols src d).
Proof.
  intros Hnb Hnr Hnc Hd. apply (Forall_voxels _ nbands nrows ncols); try assumption.
  - rewrite first_pass_short_length. exact Hd.
  - intros b r c Hb Hr Hc. rewrite first_pass_short_get by assumption.
    unfold first_value_short, VShort_of_half_square, VShort_holds.
    destruct (row_has_foreground nrows ncols src b r);
      [destruct (VPixel nrows ncols src b r c =? 1); [lia|]|];
      apply VShort_of_int_range.
Qed.

Lemma minimization_keeps_short_block (nbands nrows ncols : Z) (src d : list Z) :
  0 <= nbands -> 0 <= nrows -> 0 <= ncols ->
  length d = Z.to_nat (nbands * nrows * ncols) ->
  Forall VShort_holds d ->
  Forall VShort_holds (second_pass_short nbands nrows ncols src d) /\
  Forall VShort_holds (third_pass_short nbands nrows ncols src d).
Proof.
  intros Hnb Hnr Hnc Hd Hok.
  assert (Hline : forall n extra at_ i,
            VShort_holds (line_value n extra VShort_max same VShort_of_int at_ d i)).
  { intros n extra at_ i. unfold line_value.
    destruct (window_scan_cases same VShort_of_int (load_line n at_ d) i
                (window_start extra (load_line n at_ d) i)
                (window_end n (load_line n at_ d) i) VShort_max) as [E|(u & E)];
      rewrite E; unfold VShort_holds; [unfold VShort_max; lia|apply VShort_of_int_range]. }
  split; apply (Forall_voxels _ nbands nrows ncols); try assumption.
  - rewrite second_pass_short_eq, second_pass_length. exact Hd.
  - intros b r c Hb Hr Hc.
    rewrite second_pass_short_eq, second_pass_get by assumption.
    destruct (VPixel nrows ncols src b r c =? 1); [|apply Hline].
    exact (VPixel_Forall nbands nrows ncols d Hd _ b r c Hok Hb Hr Hc).
  - rewrite third_pass_short_eq, third_pass_length. exact Hd.
  - intros b r c Hb Hr Hc.
    rewrite third_pass_short_eq, third_pass_get by assumption.
    destruct (VPixel nrows ncols src b r c =? 1); [|apply Hline].
    exact (VPixel_Forall nbands nrows ncols d Hd _ b r c Hok Hb Hr Hc).
Qed.

(** C4, amended. In both variants the second pass writes, at every
    background voxel (b,r,c) whose value scratch[r] is not negative (so
    that g = sqrt(scratch[r]) exists), the minimum over rr in
    [max(0, r - floor(g)), min(nrows, r + floor(g) + 1)) of
    scratch[rr] + (r - rr)^2, where scratch is the field before the pass
    along the row axis at fixed (b,c); in the float variant provided
    binary32 holds that minimum.  The third pass does the same along the
    band axis, with lower bound max(0, b - floor(g) - 1) and the same upper
    bound rule.  [df] is the field of the float variant before the pass,
    [ds] that of the short variant, a block of [VShort] pixels. *)
Theorem C4_minimization_passes_write_window_minimum
    (nbands nrows ncols : Z) (src df ds : list Z) (b r c : Z) :
  length df = Z.to_nat (nbands * nrows * ncols) ->
  length ds = Z.to_nat (nbands * nrows * ncols) ->
  0 <= b < nbands -> 0 <= r < nrows -> 0 <= c < ncols ->
  VPixel nrows ncols src b r c <> 1 ->
  Forall VShort_holds ds ->
  let row_minimum scratch :=
    is_min_over (fun rr => VPixel nrows ncols scratch b rr c + (r - rr) ^ 2)
      (Z.max 0 (r - Z.sqrt (VPixel nrows ncols scratch b r c)))
      (Z.min nrows (r + Z.sqrt (VPixel nrows ncols scratch b r c) + 1)) in
  let band_minimum scratch :=
    is_min_over (fun bb => VPixel nrows ncols scratch bb r c + (b - bb) ^ 2)
      (Z.max 0 (b - Z.sqrt (VPixel nrows ncols scratch b r c) - 1))
      (Z.min nbands (b + Z.sqrt (VPixel nrows ncols scratch b r c) + 1)) in
  (0 <= VPixel nrows ncols df b r c ->
   (forall m, row_minimum df m -> VFloat_holds m ->
      VPixel nrows ncols (second_pass_float nbands nrows ncols src df) b r c = m) /\
   (forall m, band_minimum df m -> VFloat_holds m ->
      VPixel nrows ncols (third_pass_float nbands nrows ncols src df) b r c = m)) /\
  (0 <= VPixel nrows ncols ds b r c ->
   row_minimum ds (VPixel nrows ncols (second_pass_short nbands nrows ncols src ds) b r c) /\
   band_minimum ds (VPixel nrows ncols (third_pass_short nbands nrows ncols src ds) b r c)).
Proof.
  intros Hdf Hds Hb Hr Hc Hbg Hshort. cbv zeta. split.
  - intros _. split; intros m Hmin Hm.
    + apply second_pass_float_writes_min; assumption.
    + apply third_pass_float_writes_min; assumption.
  - intros _. split.
    + apply second_pass_short_block_is_min; assumption.
    + apply third_pass_short_block_is_min; assumption.
Qed.

Lemma C4_minimization_passes_write_window_minimum_witness :
  VPixel 2 3
    (second_pass_float 1 2 3 [0; 1; 0; 0; 0; 0]
       (first_pass_float 1 2 3 [0; 1; 0; 0; 0; 0] (cleared 1 2 3))) 0 1 1 = 1 /\
  is_min_over
    (fun rr => VPixel 2 3 (first_pass_short 1 2 3 [0; 1; 0; 0; 0; 0] (cleared 1 2 3)) 0 rr 1
               + (1 - rr) ^ 2)
    (Z.max 0 (1 - Z.sqrt (VPixel 2 3 (first_pass_short 1 2 3 [0; 1; 0; 0; 0; 0]
                                          (cleared 1 2 3)) 0 1 1)))
    (Z.min 2 (1 + Z.sqrt (VPixel 2 3 (first_pass_short 1 2 3 [0; 1; 0; 0; 0; 0]
                                          (cleared 1 2 3)) 0 1 1) + 1))
    (VPixel 2 3
       (second_pass_short 1 2 3 [0; 1; 0; 0; 0; 0]
          (first_pass_short 1 2 3 [0; 1; 0; 0; 0; 0] (cleared 1 2 3))) 0 1 1).
Proof.
  assert (Ef : first_pass_float 1 2 3 [0; 1; 0; 0; 0; 0] (cleared 1 2 3) = [1; 0; 1; 9; 9; 9])
    by (vm_compute; reflexivity).
  assert (Es : first_pass_short 1 2 3 [0; 1; 0; 0; 0; 0] (cleared 1 2 3) = [1; 0; 1; 2; 2; 2])
    by (vm_compute; reflexivity).
  rewrite Ef, Es.
  assert (Hbg : VPixel 2 3 [0; 1; 0; 0; 0; 0] 0 1 1 <> 1) by (vm_compute; discriminate).
  assert (Hshort : Forall VShort_holds [1; 0; 1; 2; 2; 2]).
  { unfold VShort_holds. repeat (constructor; [lia|]). constructor. }
  destruct (C4_minimization_passes_write_window_minimum 1 2 3 [0; 1; 0; 0; 0; 0]
              [1; 0; 1; 9; 9; 9] [1; 0; 1; 2; 2; 2] 0 1 1
              eq_refl eq_refl ltac:(lia) ltac:(lia) ltac:(lia) Hbg Hshort) as [Hf Hs].
  split.
  - destruct Hf as [Hrow _]; [vm_compute; discriminate|].
    apply Hrow.
    + change (VPixel 2 3 [1; 0; 1; 9; 9; 9] 0 1 1) with 9.
      change (Z.max 0 (1 - Z.sqrt 9)) with 0. change (Z.min 2 (1 + Z.sqrt 9 + 1)) with 2.
      split.
      * exists 0. split; [lia|reflexivity].
      * intros k Hk. assert (k = 0 \/ k = 1) as [-> | ->] by lia; vm_compute; discriminate.
    + split; [vm_compute; discriminate|]. exists 1, 0. repeat split; lia.
  - destruct Hs as [Hrow _]; [vm_compute; discriminate|]. exact Hrow.
Defined.

Lemma getpix_cons (x : Z) (l : list Z) (i : Z) :
  0 < i -> getpix (x :: l) i = getpix l (i - 1).
Proof.
  intros Hi. unfold getpix.
  destruct (Z.ltb_spec i 0), (Z.ltb_spec (i - 1) 0); try lia.
  replace (Z.to_nat i) with (Datatypes.S (Z.to_nat (i - 1))) by lia. reflexivity.
Qed.

(** The column-pass value of the first voxel of a row of 183 voxels whose
    last one is foreground, in the short variant: 182^2 reduced to 16
    bits. *)
Lemma first_pass_short_wraps :
  VPixel 1 183 (replicate (Z.to_nat 182) 0 ++ [1]) 0 0 0 = 0 /\
  VPixel 1 183 (first_pass_short 1 1 183 (replicate (Z.to_nat 182) 0 ++ [1])
                  (cleared 1 1 183)) 0 0 0 = -32412.
Proof.
  assert (Hpix : forall k, 0 <= k <= 182 ->
            VPixel 1 183 (replicate (Z.to_nat 182) 0 ++ [1]) 0 0 k
            = if k =? 182 then 1 else 0).
  { intros k Hk. unfold VPixel, pixel_index.
    replace ((0 * 1 + 0) * 183 + k) with k by lia.
    apply getpix_zeros_then_one. exact Hk. }
  assert (Hbg0 : VPixel 1 183 (replicate (Z.to_nat 182) 0 ++ [1]) 0 0 0 = 0)
    by (apply Hpix; lia).
  split; [exact Hbg0|].
  assert (Hfwd : forward_distance 1 183 (replicate (Z.to_nat 182) 0 ++ [1]) 0 0 0 182).
  { left. exists 182. split; [lia|]. split; [apply Hpix; lia|]. split; [|reflexivity].
    intros k Hk. rewrite Hpix by lia. destruct (Z.eqb_spec k 182); [lia|reflexivity]. }
  assert (Hbwd : backward_distance 0 1 183 (replicate (Z.to_nat 182) 0 ++ [1]) 0 0 0 183).
  { right. split; [|reflexivity]. intros k Hk. assert (k = 0) as -> by lia. exact Hbg0. }
  destruct (forward_steps_spec 1 183 _ 0 0 0 (conj (Z.le_refl 0) eq_refl) 182 Hfwd)
    as [E1 _].
  destruct (backward_steps_short_spec 1 183 _ 0 0 0 (conj (Z.le_refl 0) eq_refl) 183 Hbwd)
    as [E2 _].
  assert (H01 : 0 <= 0 < 1) by lia. assert (Hc : 0 <= 0 < 183) by lia.
  assert (Hrow : exists c', 0 <= c' < 183 /\
            VPixel 1 183 (replicate (Z.to_nat 182) 0 ++ [1]) 0 0 c' = 1).
  { exists 182. split; [lia|]. apply Hpix. lia. }
  rewrite (first_pass_short_stores 1 1 183 _ _ 0 0 0 (cleared_length 1 1 183)
             H01 H01 Hc Hbg0 182 183 Hrow E1 E2).
  vm_compute. reflexivity.
Qed.

(** The column-pass values of the float variant in the last column of a
    volume of two rows of 4100 voxels whose only foreground voxel is
    (0,0,1). *)
Lemma first_pass_float_two_rows :
  let src := 0 :: 1 :: replicate (Z.to_nat 8198) 0 in
  let scratch := first_pass_float 1 2 4100 src (cleared 1 2 4100) in
  VPixel 2 4100 src 0 1 4099 = 0 /\
  VPixel 2 4100 scratch 0 0 4099 = 16793604 /\
  VPixel 2 4100 scratch 0 1 4099 = 16810000.
Proof.
  cbv zeta.
  set (src := 0 :: 1 :: replicate (Z.to_nat 8198) 0).
  assert (Hget : forall i, 0 <= i < 8200 -> getpix src i = if i =? 1 then 1 else 0).
  { intros i Hi. unfold src.
    destruct (Z.eq_dec i 0) as [->|H0]; [reflexivity|].
    rewrite getpix_cons by lia.
    destruct (Z.eq_dec i 1) as [->|H1]; [reflexivity|].
    rewrite getpix_cons by lia. rewrite getpix_replicate.
    destruct (Z.eqb_spec i 1); [lia|reflexivity]. }
  assert (Hpix : forall rr k, 0 <= rr < 2 -> 0 <= k < 4100 ->
            VPixel 2 4100 src 0 rr k = if (rr =? 0) && (k =? 1) then 1 else 0).
  { intros rr k Hrr Hk. unfold VPixel, pixel_index. rewrite Hget by lia.
    destruct (Z.eqb_spec ((0 * 2 + rr) * 4100 + k) 1), (Z.eqb_spec rr 0), (Z.eqb_spec k 1);
      simpl; lia. }
  assert (H01 : 0 <= 0 < 1) by lia.
  assert (Hr0 : 0 <= 0 < 2) by lia. assert (Hr1 : 0 <= 1 < 2) by lia.
  assert (Hc : 0 <= 4099 < 4100) by lia.
  assert (Hbg0 : VPixel 2 4100 src 0 0 4099 = 0) by (rewrite Hpix by lia; reflexivity).
  assert (Hbg1 : VPixel 2 4100 src 0 1 4099 = 0) by (rewrite Hpix by lia; reflexivity).
  split; [exact Hbg1|]. split.
  - assert (Hfwd : forward_distance 2 4100 src 0 0 4099 4100).
    { right. split; [|reflexivity]. intros k Hk. assert (k = 4099) as -> by lia. exact Hbg0. }
    assert (Hbwd : backward_distance 1 2 4100 src 0 0 4099 4098).
    { left. exists 1. split; [lia|]. split; [rewrite Hpix by lia; reflexivity|].
      split; [|reflexivity]. intros k Hk. rewrite Hpix by lia.
      destruct (Z.eqb_spec k 1); [lia|reflexivity]. }
    destruct (forward_steps_spec 2 4100 src 0 0 4099 Hc 4100 Hfwd) as [E1 _].
    destruct (backward_steps_float_spec 2 4100 src 0 0 4099 Hc 4098 Hbwd) as [E2 _].
    rewrite (first_pass_float_stores 1 2 4100 src _ 0 0 4099 (cleared_length 1 2 4100)
               H01 Hr0 Hc Hbg0 4100 4098 E1 E2).
    vm_compute. reflexivity.
  - assert (Hfwd : forward_distance 2 4100 src 0 1 4099 4100).
    { right. split; [|reflexivity]. intros k Hk. assert (k = 4099) as -> by lia. exact Hbg1. }
    assert (Hbwd : backward_distance 1 2 4100 src 0 1 4099 4100).
    { right. split; [|reflexivity]. intros k Hk. rewrite Hpix by lia. reflexivity. }
    destruct (forward_steps_spec 2 4100 src 0 1 4099 Hc 4100 Hfwd) as [E1 _].
    destruct (backward_steps_float_spec 2 4100 src 0 1 4099 Hc 4100 Hbwd) as [E2 _].
    rewrite (first_pass_float_stores 1 2 4100 src _ 0 1 4099 (cleared_length 1 2 4100)
               H01 Hr1 Hc Hbg1 4100 4100 E1 E2).
    vm_compute. reflexivity.
Qed.

(** The statement of the spec fails in two ways.  In the float variant the
    written value is rounded to binary32: in a volume of two rows of 4100
    voxels whose only foreground voxel is (0,0,1), the voxel (0,1,4099)
    has the column-pass value 4100^2 and its neighbour (0,0,4099) the
    value 4098^2 = 16793604; the window minimum is 16793605, which binary32
    does not hold, and 16793604 is written.  In the short variant the
    column-pass value can be negative, and then it has no square root: on
    a row of 183 voxels whose last one is foreground the first voxel
    holds 182^2 reduced to 16 bits, -32412. *)
Lemma C4_counterexample :
  (let src := 0 :: 1 :: replicate (Z.to_nat 8198) 0 in
   let scratch := first_pass_float 1 2 4100 src (cleared 1 2 4100) in
   VPixel 2 4100 src 0 1 4099 = 0 /\
   is_min_over (fun rr => VPixel 2 4100 scratch 0 rr 4099 + (1 - rr) ^ 2)
     (Z.max 0 (1 - Z.sqrt (VPixel 2 4100 scratch 0 1 4099)))
     (Z.min 2 (1 + Z.sqrt (VPixel 2 4100 scratch 0 1 4099) + 1))
     16793605 /\
   VPixel 2 4100 (second_pass_float 1 2 4100 src scratch) 0 1 4099 = 16793604) /\
  (let src := replicate (Z.to_nat 182) 0 ++ [1] in
   let scratch := first_pass_short 1 1 183 src (cleared 1 1 183) in
   VPixel 1 183 src 0 0 0 = 0 /\
   VPixel 1 183 scratch 0 0 0 = -32412 /\
   forall g : R, (g * g)%R <> IZR (VPixel 1 183 scratch 0 0 0)).
Proof.
  split.
  - pose proof first_pass_float_two_rows as H. cbv zeta in H |- *.
    destruct H as (Hbg & V0 & V1).
    set (src := 0 :: 1 :: replicate (Z.to_nat 8198) 0) in *.
    set (scratch := first_pass_float 1 2 4100 src (cleared 1 2 4100)) in *.
    split; [exact Hbg|].
    rewrite V1.
    change (Z.max 0 (1 - Z.sqrt 16810000)) with 0.
    change (Z.min 2 (1 + Z.sqrt 16810000 + 1)) with 2.
    split.
    + split.
      * exists 0. split; [lia|]. rewrite V0. reflexivity.
      * intros k Hk. assert (k = 0 \/ k = 1) as [-> | ->] by lia.
        -- rewrite V0. vm_compute. discriminate.
        -- rewrite V1. vm_compute. discriminate.
    + assert (Hlen : length scratch = Z.to_nat (1 * 2 * 4100))
        by (unfold scratch; rewrite first_pass_float_length; apply cleared_length).
      assert (Hbg' : VPixel 2 4100 src 0 1 4099 <> 1) by (rewrite Hbg; discriminate).
      assert (Hown : VFloat_of_Z (VPixel 2 4100 scratch 0 1 4099) <= VFloat_max)
        by (rewrite V1; vm_compute; discriminate).
      destruct (second_pass_float_rounded 1 2 4100 src scratch 0 1 4099 Hlen
                  ltac:(lia) ltac:(lia) ltac:(lia) Hbg' Hown) as [(k & Hk & E) Hlow].
      rewrite V1 in Hk, Hlow.
      change (Z.max 0 (1 - Z.sqrt 16810000)) with 0 in Hk, Hlow.
      change (Z.min 2 (1 + Z.sqrt 16810000 + 1)) with 2 in Hk, Hlow.
      specialize (Hlow 0 ltac:(lia)). cbv beta in Hlow, E. rewrite V0 in Hlow.
      change (VFloat_of_Z (16793604 + (1 - 0) ^ 2)) with 16793604 in Hlow.
      assert (k = 0 \/ k = 1) as [-> | ->] by lia.
      * rewrite V0 in E. exact E.
      * rewrite V1 in E.
        change (VFloat_of_Z (16810000 + (1 - 1) ^ 2)) with 16810000 in E. lia.
  - pose proof first_pass_short_wraps as [Hbg V]. cbv zeta.
    split; [exact Hbg|]. split; [exact V|].
    intros g. rewrite V. pose proof (Rle_0_sqr g) as Hsq. unfold Rsqr in Hsq.
    intros E. rewrite E in Hsq.
    assert (IZR (-32412) < 0)%R by (apply IZR_lt; lia). lra.
Qed.

(** ** The values of the float fields *)

(** On a volume of at most 46340 columns every field of the float variant
    holds values between 0 and 2^31: the column pass stores rounded squares
    of step counts, and the later passes store rounded candidates that the
    voxel's own value bounds. *)

Lemma VFloat_of_Z_within (x : Z) : 0 <= x <= 2 ^ 31 -> 0 <= VFloat_of_Z x <= 2 ^ 31.
Proof.
  intros Hx. split; [apply VFloat_of_Z_nonneg; lia|].
  change (2 ^ 31) with (VFloat_of_Z (2 ^ 31)).
  apply VFloat_of_Z_mono. lia.
Qed.

Lemma first_pass_float_values (nbands nrows ncols : Z) (src d : list Z) :
  0 <= nbands -> 0 <= nrows -> 0 <= ncols <= 46340 ->
  length d = Z.to_nat (nbands * nrows * ncols) ->
  Forall (fun v => 0 <= v <= 2 ^ 31) (first_pass_float nbands nrows ncols src d).
Proof.
  intros Hnb Hnr Hnc Hd. apply (Forall_voxels _ nbands nrows ncols); try lia.
  - rewrite first_pass_float_length. exact Hd.
  - intros b r c Hb Hr Hc. rewrite first_pass_float_get by assumption.
    unfold first_value_float.
    destruct (VPixel nrows ncols src b r c =? 1); [change (2 ^ 31) with 2147483648; lia|].
    pose proof (forward_steps_range nrows ncols src b r c Hc).
    pose proof (backward_steps_float_range nrows ncols src b r c Hc).
    set (d1 := forward_steps nrows ncols src b r c) in *.
    set (d2 := backward_steps_float nrows ncols src b r c) in *.
    cbv zeta.
    assert (Hmin : 0 <= (if d1 <=? d2 then d1 else d2) <= 46340)
      by (destruct (d1 <=? d2); lia).
    apply VFloat_of_Z_within. change (2 ^ 31) with 2147483648. nia.
Qed.

Lemma line_value_float_values (n extra : Z) (at_ : Z -> Z) (d : list Z) (i : Z) :
  0 <= i < n -> 0 <= extra ->
  (forall k, 0 <= k < n -> 0 <= getpix d (at_ k) <= 2 ^ 31) ->
  0 <= line_value n extra VFloat_max VFloat_of_Z same at_ d i <= 2 ^ 31.
Proof.
  intros Hi Hextra Hd.
  assert (Hown : VFloat_of_Z (getpix d (at_ i)) <= VFloat_max).
  { pose proof (VFloat_of_Z_within _ (Hd i Hi)) as H.
    assert (2 ^ 31 <= VFloat_max) by (vm_compute; discriminate). lia. }
  pose proof (line_value_rounded_is_min n extra VFloat_max VFloat_of_Z same at_ d i
                Hi Hextra (fun _ _ _ => eq_refl) Hown) as [(k & Hk & E) Hlow].
  pose proof (Z.sqrt_nonneg (getpix d (at_ i))) as Hs.
  split.
  - rewrite E. apply VFloat_of_Z_nonneg.
    assert (Hk' : 0 <= k < n) by (clear - Hk; lia).
    destruct (Hd k Hk') as [Hlo _].
    pose proof (Z.square_nonneg (i - k)). lia.
  - assert (Hi' : Z.max 0 (i - Z.sqrt (getpix d (at_ i)) - extra) <= i
                  < Z.min n (i + Z.sqrt (getpix d (at_ i)) + 1)) by (clear - Hi Hextra Hs; lia).
    specialize (Hlow i Hi'). cbv beta in Hlow.
    rewrite Z.sub_diag, Z.add_0_r in Hlow.
    pose proof (VFloat_of_Z_within _ (Hd i Hi)). lia.
Qed.

Lemma minimization_keeps_float_values (nbands nrows ncols : Z) (src d : list Z) :
  0 <= nbands -> 0 <= nrows -> 0 <= ncols ->
  length d = Z.to_nat (nbands * nrows * ncols) ->
  Forall (fun v => 0 <= v <= 2 ^ 31) d ->
  Forall (fun v => 0 <= v <= 2 ^ 31) (second_pass_float nbands nrows ncols src d) /\
  Forall (fun v => 0 <= v <= 2 ^ 31) (third_pass_float nbands nrows ncols src d).
Proof.
  intros Hnb Hnr Hnc Hd Hok.
  assert (Hvox : forall b r c, 0 <= b < nbands -> 0 <= r < nrows -> 0 <= c < ncols ->
            0 <= VPixel nrows ncols d b r c <= 2 ^ 31).
  { intros b r c Hb Hr Hc.
    exact (VPixel_Forall nbands nrows ncols d Hd _ b r c Hok Hb Hr Hc). }
  split; apply (Forall_voxels _ nbands nrows ncols); try assumption.
  - rewrite second_pass_float_eq, second_pass_length. exact Hd.
  - intros b r c Hb Hr Hc.
    rewrite second_pass_float_eq, second_pass_get by assumption.
    destruct (VPixel nrows ncols src b r c =? 1); [apply Hvox; assumption|].
    apply line_value_float_values; [exact Hr|lia|].
    intros k Hk. apply (Hvox b k c); assumption.
  - rewrite third_pass_float_eq, third_pass_length. exact Hd.
  - intros b r c Hb Hr Hc.
    rewrite third_pass_float_eq, third_pass_get by assumption.
    destruct (VPixel nrows ncols src b r c =? 1); [apply Hvox; assumption|].
    apply line_value_float_values; [exact Hb|lia|].
    intros k Hk. apply (Hvox k r c); assumption.
Qed.

(** The squared field of the float variant holds values that a double, and
    the square root on doubles, take without rounding of the argument. *)
Lemma squared_field_float_values (nbands nrows ncols : Z) (src : list Z) :
  0 <= nbands -> 0 <= nrows -> 0 <= ncols <= 46340 ->
  Forall (fun v => 0 <= v < 2 ^ 53) (squared_field_float nbands nrows ncols src).
Proof.
  intros Hnb Hnr Hnc. unfold squared_field_float.
  pose proof (first_pass_float_values nbands nrows ncols src (cleared nbands nrows ncols)
                Hnb Hnr Hnc (cleared_length nbands nrows ncols)) as H1.
  assert (L1 : length (first_pass_float nbands nrows ncols src (cleared nbands nrows ncols))
               = Z.to_nat (nbands * nrows * ncols))
    by (rewrite first_pass_float_length; apply cleared_length).
  destruct (minimization_keeps_float_values nbands nrows ncols src _ Hnb Hnr ltac:(lia) L1 H1)
    as [H2 _].
  assert (L2 : length (second_pass_float nbands nrows ncols src
                         (first_pass_float nbands nrows ncols src (cleared nbands nrows ncols)))
               = Z.to_nat (nbands * nrows * ncols))
    by (rewrite second_pass_float_eq, second_pass_length; exact L1).
  destruct (minimization_keeps_float_values nbands nrows ncols src _ Hnb Hnr ltac:(lia) L2 H2)
    as [_ H3].
  eapply Forall_impl; [exact H3|]. intros v Hv. cbv beta in Hv |- *.
  change (2 ^ 31) with 2147483648 in Hv. change (2 ^ 53) with 9007199254740992. lia.
Qed.

(** ** The empty-row constant of the short variant *)


(** In the column pass of the short variant every voxel of a row that
    holds no foreground voxel gets the constant 0.5 x nrows^2, truncated to
    an integer (for nrows <= 255, where it fits the element type). *)
Lemma empty_row_gets_half_square_of_nrows
    (nbands nrows ncols : Z) (src d : list Z) (b r c : Z) :
  length d = Z.to_nat (nbands * nrows * ncols) ->
  0 <= b < nbands -> 0 <= r < nrows -> 0 <= c < ncols ->
  nrows <= 255 ->
  (forall c', 0 <= c' < ncols -> VPixel nrows ncols src b r c' <> 1) ->
  VPixel nrows ncols (first_pass_short nbands nrows ncols src d) b r c
  = nrows * nrows / 2.
Proof.
  intros Hd Hb Hr Hc Hn Hempty.
  rewrite first_pass_short_get by assumption.
  unfold first_value_short.
  destruct (row_has_foreground nrows ncols src b r) eqn:Hrow.
  - apply row_has_foreground_spec in Hrow; [|lia].
    destruct Hrow as (c' & Hc' & Hfg). exfalso. exact (Hempty c' Hc' Hfg).
  - unfold VShort_of_half_square.
    assert (0 <= nrows * nrows <= 255 * 255) by (apply square_le_square; lia).
    rewrite Z.quot_div_nonneg by lia.
    apply VShort_of_int_small.
    assert (0 <= nrows * nrows / 2) by (apply Z.div_pos; lia).
    assert (nrows * nrows / 2 <= 255 * 255 / 2) by (apply Z.div_le_mono; lia).
    change (255 * 255 / 2) with 32512 in *. lia.
Qed.

(** ** Finalization values *)


Lemma sqrt_IZR_bounds (n : Z) :
  0 <= n -> (IZR (Z.sqrt n) <= R_sqrt.sqrt (IZR n) < IZR (Z.sqrt n) + 1)%R.
Proof.
  intros Hn. pose proof (Z.sqrt_spec n Hn) as Hs. cbv zeta in Hs.
  pose proof (Z.sqrt_nonneg n) as Hs0.
  set (s := Z.sqrt n) in *.
  assert (H0 : (0 <= IZR s)%R) by (apply IZR_le; exact Hs0).
  split.
  - rewrite <- (sqrt_square (IZR s)) at 1 by exact H0.
    apply sqrt_le_1_alt. rewrite <- mult_IZR. apply IZR_le. lia.
  - replace (IZR s + 1)%R with (IZR (Z.succ s)) by (rewrite succ_IZR; reflexivity).
    rewrite <- (sqrt_square (IZR (Z.succ s))) by (apply IZR_le; lia).
    apply sqrt_lt_1_alt. split; [apply IZR_le; exact Hn|].
    rewrite <- mult_IZR. apply IZR_lt. lia.
Qed.

Lemma round_half_away_tenths (v : Z) :
  0 <= v -> round_half_away (10 * R_sqrt.sqrt (IZR v)) = rounded_tenths v.
Proof.
  intros Hv. unfold round_half_away, rounded_tenths.
  pose proof (sqrt_pos (IZR v)) as Hpos.
  destruct (Rle_dec 0 (10 * R_sqrt.sqrt (IZR v))) as [_|Hneg]; [|exfalso; apply Hneg; lra].
  symmetry. apply Int_part_spec.
  pose proof (sqrt_IZR_bounds (400 * v) ltac:(lia)) as Hb.
  assert (E : R_sqrt.sqrt (IZR (400 * v)) = (20 * R_sqrt.sqrt (IZR v))%R).
  { rewrite mult_IZR. replace (IZR 400) with (20 * 20)%R by lra.
    rewrite sqrt_mult by (try apply IZR_le; lra || lia).
    rewrite sqrt_square by lra. reflexivity. }
  rewrite E in Hb.
  set (s := Z.sqrt (400 * v)) in *.
  pose proof (Z.sqrt_nonneg (400 * v)) as Hs0. fold s in Hs0.
  pose proof (Z.div_mod (s + 1) 2 ltac:(lia)) as Hdm.
  pose proof (Z.mod_pos_bound (s + 1) 2 ltac:(lia)) as Hm.
  set (k := (s + 1) / 2) in *.
  assert (H1 : (2 * IZR k - 1 <= IZR s)%R).
  { replace (2 * IZR k - 1)%R with (IZR (2 * k - 1))
      by (rewrite minus_IZR, mult_IZR; reflexivity).
    apply IZR_le. lia. }
  assert (H2 : (IZR s <= 2 * IZR k)%R).
  { replace (2 * IZR k)%R with (IZR (2 * k)) by (rewrite mult_IZR; reflexivity).
    apply IZR_le. lia. }
  lra.
Qed.

Lemma rounded_tenths_range (v : Z) : 0 <= v <= 32767 -> 0 <= rounded_tenths v <= 1810.
Proof.
  intros Hv. unfold rounded_tenths.
  pose proof (Z.sqrt_nonneg (400 * v)).
  assert (Z.sqrt (400 * v) <= Z.sqrt (400 * 32767)) by (apply Z.sqrt_le_mono; lia).
  change (Z.sqrt (400 * 32767)) with 3620 in *.
  split; [apply Z.div_pos; lia|].
  assert (Hq : (Z.sqrt (400 * v) + 1) / 2 <= 3621 / 2) by (apply Z.div_le_mono; lia).
  change (3621 / 2) with 1810 in Hq. exact Hq.
Qed.


Lemma tenths_agree_sound (fuel : nat) (v0 : Z) :
  tenths_agree fuel v0 = true ->
  forall v, v0 <= v < v0 + Z.of_nat fuel -> finalize_short_pixel v = rounded_tenths v.
Proof.
  revert v0. induction fuel as [|fuel IH]; intros v0 H v Hv; [lia|].
  simpl in H. apply andb_true_iff in H. destruct H as [H1 H2].
  destruct (Z.eq_dec v v0) as [->|Hne]; [apply Z.eqb_eq; exact H1|].
  apply (IH (v0 + 1) H2). lia.
Qed.

Lemma tenths_agree_all : tenths_agree (Z.to_nat 32768) 0 = true.
Proof. vm_compute. reflexivity. Qed.

Lemma finalize_short_pixel_exact (v : Z) :
  0 <= v <= 32767 -> finalize_short_pixel v = rounded_tenths v.
Proof.
  intros Hv. apply (tenths_agree_sound (Z.to_nat 32768) 0 tenths_agree_all). lia.
Qed.

(** ** The float finalization and the real square root *)

(** *** Rounding in [SpecFloat]: digits, shifts and the rounded mantissa *)

Lemma digits2_pos_log2 (p : positive) : Z.pos (digits2_pos p) = Z.log2 (Z.pos p) + 1.
Proof.
  induction p as [p IH|p IH|]; simpl digits2_pos; [| |reflexivity].
  - rewrite Pos2Z.inj_succ, IH.
    replace (Z.pos p~1) with (2 * Z.pos p + 1) by reflexivity.
    rewrite Z.log2_succ_double by lia. lia.
  - rewrite Pos2Z.inj_succ, IH.
    replace (Z.pos p~0) with (2 * Z.pos p) by reflexivity.
    rewrite Z.log2_double by lia. lia.
Qed.

Lemma digits2_pos_bounds (p : positive) (n : Z) :
  2 ^ (n - 1) <= Z.pos p < 2 ^ n -> 1 <= n -> Z.pos (digits2_pos p) = n.
Proof.
  intros H Hn. rewrite digits2_pos_log2.
  assert (Z.log2 (Z.pos p) = n - 1); [|lia].
  apply Z.log2_unique; [lia|]. replace (Z.succ (n - 1)) with n by lia. exact H.
Qed.

Lemma iter_xO (m d : positive) : Z.pos (Pos.iter xO m d) = Z.pos m * 2 ^ Z.pos d.
Proof.
  revert m. induction d as [|d IH] using Pos.peano_ind; intros m.
  - simpl. lia.
  - rewrite Pos.iter_succ, Pos2Z.inj_succ, Z.pow_succ_r by lia.
    replace (Z.pos (Pos.iter xO m d)~0) with (2 * Z.pos (Pos.iter xO m d)) by reflexivity.
    rewrite IH. lia.
Qed.

Lemma iter_pos_iter {A : Type} (f : A -> A) (p : positive) (x : A) :
  SpecFloat.iter_pos f p x = Pos.iter f x p.
Proof.
  revert x. induction p as [p IH|p IH|]; intros x; simpl; [| |reflexivity].
  - rewrite !IH. rewrite <- !Pos.iter_swap. reflexivity.
  - rewrite !IH. reflexivity.
Qed.

Lemma shr_1_spec (m : Z) (r s : bool) :
  0 <= m -> shr_1 (Build_shr_record m r s) = Build_shr_record (m / 2) (Z.odd m) (r || s).
Proof.
  intros Hm. destruct m as [|p|p]; [reflexivity| |lia].
  destruct p as [p|p|]; simpl shr_1; f_equal.
  - replace (Z.pos p~1) with (1 + Z.pos p * 2) by lia.
    rewrite Z.div_add by lia. reflexivity.
  - replace (Z.pos p~0) with (0 + Z.pos p * 2) by lia.
    rewrite Z.div_add by lia. reflexivity.
Qed.

(** [k] shifts to the right of an exact mantissa: the quotient, the last
    bit shifted out and whether any bit before it was set. *)
Lemma iter_shr_1 (m : Z) (k : positive) :
  0 <= m ->
  SpecFloat.iter_pos shr_1 k (Build_shr_record m false false)
  = Build_shr_record (m / 2 ^ Z.pos k) (Z.odd (m / 2 ^ (Z.pos k - 1)))
      (negb (m mod 2 ^ (Z.pos k - 1) =? 0)).
Proof.
  intros Hm. rewrite iter_pos_iter.
  induction k as [|k IH] using Pos.peano_ind.
  - change (Pos.iter shr_1 (Build_shr_record m false false) 1)
      with (shr_1 (Build_shr_record m false false)).
    rewrite shr_1_spec by exact Hm.
    change (Z.pos 1 - 1) with 0. rewrite Z.pow_0_r, Z.div_1_r, Z.mod_1_r.
    change (2 ^ Z.pos 1) with 2. reflexivity.
  - rewrite Pos.iter_succ, IH.
    assert (Hp : 0 < 2 ^ (Z.pos k - 1)) by (apply Z.pow_pos_nonneg; lia).
    assert (Hk : 2 ^ Z.pos k = 2 ^ (Z.pos k - 1) * 2).
    { replace (Z.pos k) with (Z.succ (Z.pos k - 1)) at 1 by lia.
      rewrite Z.pow_succ_r by lia. lia. }
    rewrite shr_1_spec by (apply Z.div_pos; lia).
    rewrite Pos2Z.inj_succ. replace (Z.succ (Z.pos k) - 1) with (Z.pos k) by lia.
    rewrite Z.pow_succ_r by lia. f_equal.
    + rewrite Z.div_div by lia. f_equal. lia.
    + pose proof (Z.div_mod m (2 ^ Z.pos k) ltac:(lia)) as D1.
      pose proof (Z.div_mod m (2 ^ (Z.pos k - 1)) ltac:(lia)) as D0.
      pose proof (Z.mod_pos_bound m (2 ^ Z.pos k) ltac:(lia)) as B1.
      pose proof (Z.mod_pos_bound m (2 ^ (Z.pos k - 1)) ltac:(lia)) as B0.
      pose proof (Z.div_mod (m / 2 ^ (Z.pos k - 1)) 2 ltac:(lia)) as D2.
      rewrite Z.div_div in D2 by lia. rewrite <- Hk in D2.
      pose proof (Zmod_odd (m / 2 ^ (Z.pos k - 1))) as Ho.
      destruct (Z.odd (m / 2 ^ (Z.pos k - 1)));
        destruct (Z.eqb_spec (m mod 2 ^ (Z.pos k - 1)) 0);
        destruct (Z.eqb_spec (m mod 2 ^ Z.pos k) 0); simpl; try reflexivity; exfalso; nia.
Qed.

Section Rounding.
Variables p E : Z.
Hypothesis p_pos : 1 <= p.

Lemma fexp_normal (x : Z) : 3 - E - p <= x - p -> fexp p E x = x - p.
Proof. intros H. unfold fexp, SpecFloat.emin. lia. Qed.

Lemma shr_fexp_none (q : positive) (e : Z) (l : location) :
  2 ^ (p - 1) <= Z.pos q < 2 ^ p -> 3 - E - p <= e ->
  shr_fexp p E (Z.pos q) e l = (shr_record_of_loc (Z.pos q) l, e).
Proof.
  intros Hq He. unfold shr_fexp. simpl Zdigits2.
  rewrite (digits2_pos_bounds q p Hq p_pos).
  rewrite fexp_normal by lia.
  replace (p + e - p - e) with 0 by lia. reflexivity.
Qed.

(** Rounding a mantissa of [p] digits with its location. *)
Lemma binary_round_aux_digits (sx : bool) (q : positive) (e : Z) (l : location) :
  2 ^ (p - 1) <= Z.pos q < 2 ^ p -> 3 - E - p <= e -> e + 1 <= E - p ->
  exists m2 e2,
    binary_round_aux p E sx (Z.pos q) e l = S754_finite sx m2 e2 /\
    2 ^ (p - 1) <= Z.pos m2 < 2 ^ p /\ e <= e2 <= e + 1 /\
    Z.pos m2 * 2 ^ (e2 - e) = round_nearest_even (Z.pos q) l.
Proof.
  intros Hq He He'. unfold binary_round_aux.
  rewrite shr_fexp_none by assumption.
  assert (Hloc : loc_of_shr_record (shr_record_of_loc (Z.pos q) l) = l).
  { destruct l as [|[| |]]; reflexivity. }
  assert (Hm : shr_m (shr_record_of_loc (Z.pos q) l) = Z.pos q).
  { destruct l as [|[| |]]; reflexivity. }
  rewrite Hloc, Hm.
  assert (Hq1 : round_nearest_even (Z.pos q) l = Z.pos q
                \/ round_nearest_even (Z.pos q) l = Z.pos q + 1).
  { destruct l as [|[| |]]; simpl; try tauto.
    destruct q; simpl; tauto. }
  assert (Hpow : 2 ^ p = 2 * 2 ^ (p - 1)).
  { replace p with (Z.succ (p - 1)) at 1 by lia. apply Z.pow_succ_r. lia. }
  destruct (Z_lt_le_dec (round_nearest_even (Z.pos q) l) (2 ^ p)) as [Hlt|Hge].
  - destruct (round_nearest_even (Z.pos q) l) as [|q1|q1] eqn:Eq1; try lia.
    rewrite shr_fexp_none by lia. simpl shr_m.
    destruct (Z.leb_spec e (E - p)); [|lia].
    exists q1, e. split; [reflexivity|]. split; [lia|]. split; [lia|].
    rewrite Z.sub_diag. lia.
  - assert (Eq1 : round_nearest_even (Z.pos q) l = 2 ^ p) by lia.
    rewrite Eq1.
    assert (Hpp : 0 < 2 ^ p) by (apply Z.pow_pos_nonneg; lia).
    destruct (2 ^ p) as [|pp|pp] eqn:Epp; try lia.
    unfold shr_fexp. simpl Zdigits2.
    rewrite (digits2_pos_bounds pp (p + 1)); [| |lia].
    2:{ replace (p + 1 - 1) with p by lia. rewrite <- Epp.
        split; [lia|]. apply Z.pow_lt_mono_r; lia. }
    rewrite fexp_normal by lia.
    replace (p + 1 + e - p - e) with 1 by lia.
    unfold shr. simpl shr_record_of_loc.
    change (SpecFloat.iter_pos shr_1 1 (Build_shr_record (Z.pos pp) false false))
      with (shr_1 (Build_shr_record (Z.pos pp) false false)).
    rewrite shr_1_spec by lia. simpl shr_m.
    assert (Ehalf : Z.pos pp / 2 = 2 ^ (p - 1)).
    { rewrite Hpow. rewrite Z.mul_comm, Z.div_mul by lia. reflexivity. }
    rewrite Ehalf.
    assert (Hh : 0 < 2 ^ (p - 1)) by (apply Z.pow_pos_nonneg; lia).
    destruct (2 ^ (p - 1)) as [|h|h] eqn:Eh; try lia.
    destruct (Z.leb_spec (e + 1) (E - p)); [|lia].
    exists h, (e + 1). split; [reflexivity|]. split; [lia|]. split; [lia|].
    replace (e + 1 - e) with 1 by lia. lia.
Qed.

(** A mantissa of at most [p] digits is stored as it is. *)
Lemma binary_round_exact (sx : bool) (m : positive) (e d : Z) :
  2 ^ (d - 1) <= Z.pos m < 2 ^ d -> 1 <= d <= p ->
  3 - E - p <= e - (p - d) -> e - (p - d) <= E - p ->
  exists m',
    binary_round p E sx m e = S754_finite sx m' (e - (p - d)) /\
    Z.pos m' = Z.pos m * 2 ^ (p - d).
Proof.
  intros Hm Hd He He'. unfold binary_round.
  rewrite (digits2_pos_bounds m d Hm ltac:(lia)).
  rewrite fexp_normal by lia.
  assert (Haux : forall mz : positive,
            Z.pos mz = Z.pos m * 2 ^ (p - d) ->
            binary_round_aux p E sx (Z.pos mz) (e - (p - d)) loc_Exact
            = S754_finite sx mz (e - (p - d))).
  { intros mz Emz. unfold binary_round_aux.
    assert (Hmz : 2 ^ (p - 1) <= Z.pos mz < 2 ^ p).
    { rewrite Emz.
      assert (E1 : 2 ^ (p - 1) = 2 ^ (d - 1) * 2 ^ (p - d)).
      { rewrite <- Z.pow_add_r by lia. f_equal. lia. }
      assert (E2 : 2 ^ p = 2 ^ d * 2 ^ (p - d)).
      { rewrite <- Z.pow_add_r by lia. f_equal. lia. }
      rewrite E1, E2.
      assert (0 < 2 ^ (p - d)) by (apply Z.pow_pos_nonneg; lia). nia. }
    rewrite shr_fexp_none by assumption. simpl.
    rewrite shr_fexp_none by assumption. simpl.
    destruct (Z.leb_spec (e - (p - d)) (E - p)); [reflexivity|lia]. }
  unfold shl_align.
  destruct (d + e - p - e) as [|k|k] eqn:Ek.
  - assert (d = p) by lia. subst d.
    replace (e - (p - p)) with e in * by lia.
    exists m. split; [|rewrite Z.sub_diag; lia].
    apply Haux. rewrite Z.sub_diag. lia.
  - lia.
  - assert (Ek' : Z.pos k = p - d) by lia.
    replace (d + e - p) with (e - (p - d)) by lia.
    exists (Pos.iter xO m k). split.
    + apply Haux. rewrite iter_xO, Ek'. reflexivity.
    + rewrite iter_xO, Ek'. reflexivity.
Qed.
End Rounding.

(** The digits shifted out of a mantissa, as the round and sticky bits see
    them. *)
Lemma shifted_out_bits (m : Z) (k : positive) :
  0 <= m ->
  let M := m / 2 ^ Z.pos k in
  let l := loc_of_shr_record
             (Build_shr_record M (Z.odd (m / 2 ^ (Z.pos k - 1)))
                (negb (m mod 2 ^ (Z.pos k - 1) =? 0))) in
  2 * Z.abs (round_nearest_even M l * 2 ^ Z.pos k - m) <= 2 ^ Z.pos k /\
  M <= round_nearest_even M l <= M + 1 /\
  (m mod 2 ^ Z.pos k = 0 -> round_nearest_even M l * 2 ^ Z.pos k = m).
Proof.
  intros Hm. cbv zeta.
  set (h := 2 ^ (Z.pos k - 1)).
  assert (Hh : 0 < h) by (apply Z.pow_pos_nonneg; lia).
  assert (Hk : 2 ^ Z.pos k = h * 2).
  { unfold h. replace (Z.pos k) with (Z.succ (Z.pos k - 1)) at 1 by lia.
    rewrite Z.pow_succ_r by lia. lia. }
  rewrite Hk. rewrite <- Z.div_div by lia.
  pose proof (Z.div_mod m h ltac:(lia)) as Hdm.
  pose proof (Z.mod_pos_bound m h Hh) as Hb.
  set (a := m / h) in *. set (b := m mod h) in *.
  assert (Ha : 0 <= a) by (apply Z.div_pos; lia).
  pose proof (Z.div_mod a 2 ltac:(lia)) as Hda.
  pose proof (Z.mod_pos_bound a 2 ltac:(lia)) as Hb2.
  assert (Hodd : Z.odd a = (a mod 2 =? 1)).
  { rewrite Zmod_odd. destruct (Z.odd a); reflexivity. }
  assert (Hmod : m mod (h * 2) = (a mod 2) * h + b).
  { symmetry. apply (Z.mod_unique_pos m (h * 2) (a / 2)); [nia|nia]. }
  rewrite Hmod. rewrite Hodd.
  destruct (Z.eqb_spec (a mod 2) 1) as [E1|E1];
    destruct (Z.eqb_spec b 0) as [E0|E0]; simpl.
  - destruct (Z.even (a / 2)); repeat split; try nia.
  - repeat split; try nia.
  - repeat split; try nia.
  - repeat split; try nia.
Qed.

Section RoundingShift.
Variables p E : Z.
Hypothesis p_pos : 1 <= p.

(** Rounding a mantissa that is [k] digits too long. *)
Lemma binary_round_aux_shift (sx : bool) (m : positive) (e : Z) (k : positive) :
  2 ^ (p - 1 + Z.pos k) <= Z.pos m < 2 ^ (p + Z.pos k) ->
  3 - E - p <= e + Z.pos k -> e + Z.pos k + 1 <= E - p ->
  exists m2 e2 M1,
    binary_round_aux p E sx (Z.pos m) e loc_Exact = S754_finite sx m2 e2 /\
    2 ^ (p - 1) <= Z.pos m2 < 2 ^ p /\ e + Z.pos k <= e2 <= e + Z.pos k + 1 /\
    Z.pos m2 * 2 ^ (e2 - e - Z.pos k) = M1 /\
    2 * Z.abs (M1 * 2 ^ Z.pos k - Z.pos m) <= 2 ^ Z.pos k /\
    (Z.pos m mod 2 ^ Z.pos k = 0 -> M1 * 2 ^ Z.pos k = Z.pos m).
Proof.
  intros Hm He He'.
  pose proof (shifted_out_bits (Z.pos m) k ltac:(lia)) as Hbits.
  cbv zeta in Hbits.
  set (M := Z.pos m / 2 ^ Z.pos k) in *.
  set (rec := Build_shr_record M (Z.odd (Z.pos m / 2 ^ (Z.pos k - 1)))
                (negb (Z.pos m mod 2 ^ (Z.pos k - 1) =? 0))) in *.
  assert (Hpk : 0 < 2 ^ Z.pos k) by (apply Z.pow_pos_nonneg; lia).
  assert (HM : 2 ^ (p - 1) <= M < 2 ^ p).
  { unfold M. rewrite !Z.pow_add_r in Hm by lia. split.
    - apply Z.div_le_lower_bound; lia.
    - apply Z.div_lt_upper_bound; lia. }
  assert (Hpos : 0 < 2 ^ (p - 1)) by (apply Z.pow_pos_nonneg; lia).
  destruct M as [|q|q] eqn:EM; try lia.
  assert (Hsame : binary_round_aux p E sx (Z.pos m) e loc_Exact
                  = binary_round_aux p E sx (Z.pos q) (e + Z.pos k) (loc_of_shr_record rec)).
  { unfold binary_round_aux at 1 2.
    rewrite (shr_fexp_none p E p_pos q (e + Z.pos k)) by assumption.
    assert (Hfirst : shr_fexp p E (Z.pos m) e loc_Exact = (rec, e + Z.pos k)).
    { unfold shr_fexp. simpl Zdigits2.
      rewrite (digits2_pos_bounds m (p + Z.pos k)); [| |lia].
      2:{ replace (p + Z.pos k - 1) with (p - 1 + Z.pos k) by lia. exact Hm. }
      rewrite fexp_normal by lia.
      replace (p + Z.pos k + e - p - e) with (Z.pos k) by lia.
      unfold shr. simpl shr_record_of_loc.
      rewrite iter_shr_1 by lia. fold M. rewrite EM. reflexivity. }
    rewrite Hfirst.
    assert (Hl : loc_of_shr_record (shr_record_of_loc (Z.pos q) (loc_of_shr_record rec))
                 = loc_of_shr_record rec).
    { destruct (loc_of_shr_record rec) as [|[| |]]; reflexivity. }
    assert (Hq : shr_m (shr_record_of_loc (Z.pos q) (loc_of_shr_record rec)) = Z.pos q).
    { destruct (loc_of_shr_record rec) as [|[| |]]; reflexivity. }
    rewrite Hl, Hq. reflexivity. }
  destruct (binary_round_aux_digits p E p_pos sx q (e + Z.pos k) (loc_of_shr_record rec)
              HM He He') as (m2 & e2 & Hres & Hm2 & He2 & Hval).
  exists m2, e2, (round_nearest_even (Z.pos q) (loc_of_shr_record rec)).
  rewrite Hsame. split; [exact Hres|]. split; [exact Hm2|]. split; [exact He2|].
  split; [rewrite <- Hval; f_equal; f_equal; lia|].
  destruct Hbits as (Hb1 & _ & Hb3). split; assumption.
Qed.
End RoundingShift.

(** *** The conversions and the square root of the code *)

Lemma pow2_53 : 2 ^ 53 = 9007199254740992.
Proof. reflexivity. Qed.

(** An integer below [2 ^ 53] converts to a double without rounding. *)
Lemma double_of_Z_exact (v : Z) :
  0 < v < 2 ^ 53 ->
  exists mx,
    Prim2SF (double_of_Z v) = S754_finite false mx (Z.log2 v - 52) /\
    Z.pos mx = v * 2 ^ (52 - Z.log2 v).
Proof.
  intros Hv. unfold double_of_Z.
  destruct (Z.ltb_spec v 0) as [Hneg|_]; [lia|].
  rewrite of_uint63_spec, Uint63.of_Z_spec.
  rewrite Z.mod_small.
  2:{ rewrite pow2_53 in Hv. change wB with 9223372036854775808. lia. }
  destruct v as [|pv|pv]; try lia. simpl binary_normalize.
  pose proof (Z.log2_spec (Z.pos pv) ltac:(lia)) as Hlog.
  pose proof (Z.log2_nonneg (Z.pos pv)) as Hnn.
  assert (Hlt : Z.log2 (Z.pos pv) < 53).
  { apply Z.log2_lt_pow2; lia. }
  assert (Hdigits : 2 ^ (Z.log2 (Z.pos pv) + 1 - 1) <= Z.pos pv
                    < 2 ^ (Z.log2 (Z.pos pv) + 1)).
  { replace (Z.log2 (Z.pos pv) + 1 - 1) with (Z.log2 (Z.pos pv)) by lia.
    replace (Z.log2 (Z.pos pv) + 1) with (Z.succ (Z.log2 (Z.pos pv))) by lia.
    exact Hlog. }
  destruct (binary_round_exact 53 1024 ltac:(lia) false pv 0 (Z.log2 (Z.pos pv) + 1)
              Hdigits ltac:(lia) ltac:(lia) ltac:(lia)) as (m' & Hres & Hm').
  exists m'. change prec with 53. change emax with 1024. rewrite Hres. split.
  - f_equal. lia.
  - rewrite Hm'. f_equal. f_equal. lia.
Qed.

(** The square root of a normal double: the integer square root of the
    scaled mantissa, rounded with its location. *)
Lemma sqrt_normal (x : float) (mx : positive) (ex : Z) :
  Prim2SF x = S754_finite false mx ex ->
  2 ^ 52 <= Z.pos mx < 2 ^ 53 -> -52 <= ex <= 0 ->
  let e' := (ex + 54) / 2 - 53 in
  let m' := Z.pos mx * 2 ^ (ex - 2 * e') in
  exists m2 e2 Q,
    Prim2SF (PrimFloat.sqrt x) = S754_finite false m2 e2 /\
    2 ^ 52 <= Z.pos m2 < 2 ^ 53 /\ e' <= e2 <= e' + 1 /\
    Z.pos m2 * 2 ^ (e2 - e') = Q /\
    Z.sqrt m' <= Q <= Z.sqrt m' + 1 /\
    2 ^ 52 <= Z.sqrt m' < 2 ^ 53 /\
    (m' = Z.sqrt m' * Z.sqrt m' -> Q = Z.sqrt m').
Proof.
  intros Hx Hmx Hex e' m'.
  rewrite FloatAxioms.sqrt_spec, Hx. unfold SF64sqrt, SFsqrt.
  change prec with 53. change emax with 1024.
  unfold SFsqrt_core_binary. simpl Zdigits2.
  rewrite (digits2_pos_bounds mx 53 Hmx ltac:(lia)).
  rewrite !Z.div2_div.
  assert (Hfexp : fexp 53 1024 ((53 + ex + 1) / 2) = (53 + ex + 1) / 2 - 53).
  { apply fexp_normal. pose proof (Z.div_pos (53 + ex + 1) 2); lia. }
  rewrite Hfexp.
  assert (He' : Z.min ((53 + ex + 1) / 2 - 53) (ex / 2) = e').
  { unfold e'. replace (53 + ex + 1) with (ex + 54) by lia.
    pose proof (Z.div_mod (ex + 54) 2 ltac:(lia)).
    pose proof (Z.mod_pos_bound (ex + 54) 2 ltac:(lia)).
    pose proof (Z.div_mod ex 2 ltac:(lia)).
    pose proof (Z.mod_pos_bound ex 2 ltac:(lia)). lia. }
  rewrite He'.
  assert (Hs : 52 <= ex - 2 * e' <= 53).
  { unfold e'. pose proof (Z.div_mod (ex + 54) 2 ltac:(lia)).
    pose proof (Z.mod_pos_bound (ex + 54) 2 ltac:(lia)). lia. }
  assert (Hrange : -52 <= e' <= -26).
  { unfold e'. pose proof (Z.div_mod (ex + 54) 2 ltac:(lia)).
    pose proof (Z.mod_pos_bound (ex + 54) 2 ltac:(lia)). lia. }
  assert (Hm' : match ex - 2 * e' with
                | 0 => Z.pos mx
                | Z.pos _ => Z.shiftl (Z.pos mx) (ex - 2 * e')
                | Z.neg _ => 0
                end = m').
  { destruct (ex - 2 * e') as [|s|s] eqn:Es; try lia.
    rewrite Z.shiftl_mul_pow2 by lia. reflexivity. }
  rewrite Hm'.
  assert (Hm'range : 2 ^ 104 <= m' < 2 ^ 106).
  { unfold m'. destruct (Z.eq_dec (ex - 2 * e') 52) as [E|E].
    - rewrite E. change (2 ^ 104) with (2 ^ 52 * 2 ^ 52).
      change (2 ^ 106) with (2 ^ 53 * 2 ^ 52 * 2).
      assert (0 < 2 ^ 52) by reflexivity. nia.
    - replace (ex - 2 * e') with 53 by lia.
      change (2 ^ 104) with (2 ^ 52 * 2 ^ 52).
      change (2 ^ 106) with (2 ^ 53 * 2 ^ 53).
      assert (0 < 2 ^ 52) by reflexivity.
      assert (2 ^ 52 < 2 ^ 53) by reflexivity. nia. }
  pose proof (Z.sqrtrem_spec m' ltac:(lia)) as Hspec.
  pose proof (Z.sqrtrem_sqrt m') as Hfst.
  destruct (Z.sqrtrem m') as [q r]. simpl in Hfst. subst q.
  destruct Hspec as [Hsum Hr].
  set (q := Z.sqrt m') in *.
  assert (Hq : 2 ^ 52 <= q < 2 ^ 53).
  { split.
    - change (2 ^ 52) with (Z.sqrt (2 ^ 104)). apply Z.sqrt_le_mono. lia.
    - apply Z.sqrt_lt_square; [lia|lia|].
      change (2 ^ 53 * 2 ^ 53) with (2 ^ 106). lia. }
  destruct q as [|pq|pq] eqn:Eq; try lia.
  destruct (binary_round_aux_digits 53 1024 ltac:(lia) false pq e'
              (if r =? 0 then loc_Exact else loc_Inexact (if r <=? Z.pos pq then Lt else Gt))
              Hq ltac:(lia) ltac:(lia)) as (m2 & e2 & Hres & Hm2 & He2 & Hval).
  exists m2, e2, (Z.pos m2 * 2 ^ (e2 - e')).
  split; [exact Hres|]. split; [exact Hm2|]. split; [exact He2|].
  split; [reflexivity|]. rewrite Hval.
  split; [|split; [exact Hq|]].
  - destruct (r =? 0); simpl; [lia|]. destruct (r <=? Z.pos pq); simpl; lia.
  - intros Hsq. destruct (Z.eqb_spec r 0) as [_|Hne]; [reflexivity|lia].
Qed.

(** A binary32 value read back from the double that holds it. *)
Lemma Prim2SF_SF2Prim_single (mF : positive) (eF : Z) :
  2 ^ 23 <= Z.pos mF < 2 ^ 24 -> -1000 <= eF <= 900 ->
  exists mo,
    Prim2SF (SF2Prim (S754_finite false mF eF)) = S754_finite false mo (eF - 29) /\
    Z.pos mo = Z.pos mF * 2 ^ 29.
Proof.
  intros HmF HeF. unfold SF2Prim.
  rewrite Z_ldexp_spec, of_uint63_spec, Uint63.of_Z_spec.
  rewrite Z.mod_small.
  2:{ change (2 ^ 24) with 16777216 in HmF. change wB with 9223372036854775808. lia. }
  simpl binary_normalize. change prec with 53. change emax with 1024.
  destruct (binary_round_exact 53 1024 ltac:(lia) false mF 0 24
              HmF ltac:(lia) ltac:(lia) ltac:(lia)) as (m1 & Hres1 & Hm1).
  rewrite Hres1. simpl SFldexp.
  assert (Hm1range : 2 ^ (53 - 1) <= Z.pos m1 < 2 ^ 53).
  { rewrite Hm1. change (2 ^ (53 - 24)) with (2 ^ 29).
    change (2 ^ (53 - 1)) with (2 ^ 23 * 2 ^ 29).
    change (2 ^ 53) with (2 ^ 24 * 2 ^ 29).
    assert (0 < 2 ^ 29) by reflexivity. nia. }
  destruct (binary_round_exact 53 1024 ltac:(lia) false m1 (0 - (53 - 24) + eF) 53
              Hm1range ltac:(lia) ltac:(lia) ltac:(lia)) as (m3 & Hres3 & Hm3).
  rewrite Hres3. exists m3. split.
  - f_equal. lia.
  - rewrite Hm3, Hm1. change (2 ^ (53 - 53)) with 1.
    change (2 ^ (53 - 24)) with (2 ^ 29). lia.
Qed.

(** The conversion of a normal double to the pixel type. *)
Lemma VFloat_of_double_normal (x : float) (m2 : positive) (e2 : Z) :
  Prim2SF x = S754_finite false m2 e2 ->
  2 ^ 52 <= Z.pos m2 < 2 ^ 53 -> -100 <= e2 <= 60 ->
  exists mo eo O3,
    Prim2SF (VFloat_of_double x) = S754_finite false mo eo /\
    (exists mF, 0 <= mF < 2 ^ 24 /\ Z.pos mo = mF * 2 ^ 29) /\
    e2 <= eo /\
    Z.pos mo * 2 ^ (eo - e2) = O3 /\
    2 * Z.abs (O3 - Z.pos m2) <= 2 ^ 29 /\
    (Z.pos m2 mod 2 ^ 29 = 0 -> O3 = Z.pos m2).
Proof.
  intros Hx Hm2 He2. unfold VFloat_of_double. rewrite Hx.
  unfold binary_round.
  rewrite (digits2_pos_bounds m2 53 Hm2 ltac:(lia)).
  rewrite fexp_normal by lia.
  unfold shl_align. replace (53 + e2 - 24 - e2) with 29 by lia.
  destruct (binary_round_aux_shift 24 128 ltac:(lia) false m2 e2 29%positive
              Hm2 ltac:(lia) ltac:(lia))
    as (mF & eF & M1 & Hres & HmF & HeF & HM1 & Hbound & Hexact).
  rewrite Hres.
  destruct (Prim2SF_SF2Prim_single mF eF HmF ltac:(lia)) as (mo & Hback & Hmo).
  exists mo, (eF - 29), (M1 * 2 ^ 29).
  split; [exact Hback|]. split; [exists (Z.pos mF); split; [lia|exact Hmo]|].
  split; [lia|]. split.
  - rewrite Hmo, <- HM1.
    replace (eF - 29 - e2) with (eF - e2 - 29) by lia.
    change (Z.pos 29) with 29. lia.
  - change (Z.pos 29) with 29 in *. split; [exact Hbound|exact Hexact].
Qed.

(** *** A finalized pixel against the real square root *)

Lemma finalize_float_pixel_chain (v : Z) :
  0 < v < 2 ^ 53 ->
  exists mo eo j O Q,
    Prim2SF (finalize_float_pixel v) = S754_finite false mo eo /\
    (exists mF, 0 <= mF < 2 ^ 24 /\ Z.pos mo = mF * 2 ^ 29) /\
    0 <= j /\ 0 <= eo + j /\
    Z.pos mo * 2 ^ (eo + j) = O /\
    2 ^ 52 <= Z.sqrt (v * 2 ^ (2 * j)) < 2 ^ 53 /\
    Z.sqrt (v * 2 ^ (2 * j)) <= Q <= Z.sqrt (v * 2 ^ (2 * j)) + 1 /\
    2 ^ 24 * Z.abs (O - Q) <= Q /\
    (v * 2 ^ (2 * j) = Z.sqrt (v * 2 ^ (2 * j)) * Z.sqrt (v * 2 ^ (2 * j)) ->
     Z.sqrt (v * 2 ^ (2 * j)) mod 2 ^ 29 = 0 -> O = Z.sqrt (v * 2 ^ (2 * j))).
Proof.
  intros Hv. unfold finalize_float_pixel.
  destruct (double_of_Z_exact v Hv) as (mx & Hx & Hmx).
  pose proof (Z.log2_spec v ltac:(lia)) as Hlog.
  pose proof (Z.log2_nonneg v) as Hnn.
  assert (Hlt : Z.log2 v < 53) by (apply Z.log2_lt_pow2; lia).
  set (ex := Z.log2 v - 52) in *.
  assert (Hmxrange : 2 ^ 52 <= Z.pos mx < 2 ^ 53).
  { rewrite Hmx.
    assert (E1 : 2 ^ 52 = 2 ^ Z.log2 v * 2 ^ (52 - Z.log2 v)).
    { rewrite <- Z.pow_add_r by lia. f_equal. lia. }
    assert (E2 : 2 ^ 53 = 2 ^ Z.succ (Z.log2 v) * 2 ^ (52 - Z.log2 v)).
    { rewrite <- Z.pow_add_r by lia. f_equal. lia. }
    rewrite E1, E2.
    assert (0 < 2 ^ (52 - Z.log2 v)) by (apply Z.pow_pos_nonneg; lia). nia. }
  destruct (sqrt_normal (double_of_Z v) mx ex Hx Hmxrange ltac:(lia))
    as (m2 & e2 & Q & Hsqrt & Hm2 & He2 & HQ & HQq & Hq & Hexact).
  set (e' := (ex + 54) / 2 - 53) in *.
  assert (Hrange : -52 <= e' <= -26 /\ 52 <= ex - 2 * e' <= 53).
  { unfold e'. pose proof (Z.div_mod (ex + 54) 2 ltac:(lia)).
    pose proof (Z.mod_pos_bound (ex + 54) 2 ltac:(lia)). lia. }
  assert (Hm' : Z.pos mx * 2 ^ (ex - 2 * e') = v * 2 ^ (2 * (- e'))).
  { rewrite Hmx, <- Z.mul_assoc, <- Z.pow_add_r by lia. f_equal. f_equal. lia. }
  rewrite Hm' in *.
  destruct (VFloat_of_double_normal (PrimFloat.sqrt (double_of_Z v)) m2 e2 Hsqrt Hm2
              ltac:(lia)) as (mo & eo & O3 & Hres & Hsingle & Heo & HO3 & Hbound & Hexact3).
  exists mo, eo, (- e'), (O3 * 2 ^ (e2 - e')), Q.
  split; [exact Hres|]. split; [exact Hsingle|]. split; [lia|]. split; [lia|].
  assert (Ht : e2 - e' = 0 \/ e2 - e' = 1) by lia.
  split.
  { rewrite <- HO3, <- Z.mul_assoc, <- Z.pow_add_r by lia. f_equal. f_equal. lia. }
  split; [exact Hq|]. split; [exact HQq|].
  assert (H52 : 2 ^ 52 = 4503599627370496) by reflexivity.
  assert (H53 : 2 ^ 53 = 9007199254740992) by reflexivity.
  assert (H24 : 2 ^ 24 = 16777216) by reflexivity.
  assert (H29 : 2 ^ 29 = 536870912) by reflexivity.
  rewrite H52, H53, H29 in *. rewrite H24.
  split.
  - rewrite <- HQ. destruct Ht as [Ht|Ht]; rewrite Ht.
    + change (2 ^ 0) with 1. lia.
    + change (2 ^ 1) with 2. lia.
  - intros Hsq Hdiv. specialize (Hexact Hsq).
    destruct Ht as [Ht|Ht]; rewrite Ht in *.
    + change (2 ^ 0) with 1 in *.
      assert (Em : Z.pos m2 = Z.sqrt (v * 2 ^ (2 * - e'))) by lia.
      rewrite Em in Hexact3. rewrite (Hexact3 Hdiv). lia.
    + change (2 ^ 1) with 2 in *. lia.
Qed.

Lemma IZR_pow2 (n : Z) : 0 <= n -> IZR (2 ^ n) = powerRZ 2 n.
Proof.
  intros Hn. rewrite <- (Z2Nat.id n Hn) at 1 2.
  rewrite <- pow_IZR, <- pow_powerRZ. reflexivity.
Qed.

Lemma powerRZ_rescale (m e j : Z) :
  0 <= j -> 0 <= e + j ->
  (IZR m * powerRZ 2 e = IZR (m * 2 ^ (e + j)) / IZR (2 ^ j))%R.
Proof.
  intros Hj Hej. rewrite mult_IZR, !IZR_pow2 by lia.
  rewrite powerRZ_add by lra.
  assert (Hpos : (0 < powerRZ 2 j)%R) by (apply powerRZ_lt; lra).
  field. lra.
Qed.

Lemma sqrt_rescale (v j : Z) :
  0 <= v -> 0 <= j ->
  R_sqrt.sqrt (IZR (v * 2 ^ (2 * j))) = (R_sqrt.sqrt (IZR v) * IZR (2 ^ j))%R.
Proof.
  intros Hv Hj.
  replace (2 * j) with (j + j) by lia. rewrite Z.pow_add_r by lia.
  rewrite !mult_IZR.
  assert (Hp : (0 <= IZR (2 ^ j))%R) by (apply IZR_le, Z.pow_nonneg; lia).
  rewrite sqrt_mult_alt by (apply IZR_le; exact Hv).
  rewrite sqrt_square by exact Hp. reflexivity.
Qed.

Lemma near_root (m q Q O : Z) :
  0 <= m -> q = Z.sqrt m -> 2 ^ 52 <= q -> q <= Q <= q + 1 ->
  2 ^ 24 * Z.abs (O - Q) <= Q ->
  (Rabs (IZR O - R_sqrt.sqrt (IZR m)) <= R_sqrt.sqrt (IZR m) / IZR (2 ^ 23))%R.
Proof.
  intros Hm Eq Hq HQ HO.
  pose proof (sqrt_IZR_bounds m Hm) as [Hlo Hhi]. rewrite <- Eq in Hlo, Hhi.
  change (2 ^ 52) with 4503599627370496 in Hq.
  change (2 ^ 24) with 16777216 in HO.
  change (2 ^ 23) with 8388608.
  assert (Hq' : (4503599627370496 <= IZR q)%R) by (apply IZR_le; exact Hq).
  assert (HQ1 : (IZR q <= IZR Q)%R) by (apply IZR_le; lia).
  assert (HQ2 : (IZR Q <= IZR q + 1)%R).
  { replace (IZR q + 1)%R with (IZR (q + 1)) by (rewrite plus_IZR; reflexivity).
    apply IZR_le; lia. }
  assert (HO1 : (16777216 * (IZR O - IZR Q) <= IZR Q)%R).
  { rewrite <- minus_IZR, <- mult_IZR. apply IZR_le. lia. }
  assert (HO2 : (16777216 * (IZR Q - IZR O) <= IZR Q)%R).
  { rewrite <- minus_IZR, <- mult_IZR. apply IZR_le. lia. }
  apply Rabs_le. split; lra.
Qed.

(** The finalized float pixel: the square root with a relative error of at
    most [2 ^ -23], and without any error where the value is a square. *)
Lemma finalize_float_pixel_is_sqrt (v : Z) :
  0 <= v < 2 ^ 53 ->
  exists r,
    float_value (finalize_float_pixel v) = Some r /\
    single_precision r /\
    (Rabs (r - R_sqrt.sqrt (IZR v)) <= R_sqrt.sqrt (IZR v) / IZR (2 ^ 23))%R /\
    (forall k, 0 <= k < 2 ^ 24 -> v = k * k -> r = IZR k).
Proof.
  intros Hv. destruct (Z.eq_dec v 0) as [->|Hne].
  - exists 0%R. split; [reflexivity|]. split; [|split].
    + exists 0, 0. split; [reflexivity|]. simpl. lra.
    + rewrite R_sqrt.sqrt_0. unfold Rdiv. rewrite Rmult_0_l, Rminus_0_r, Rabs_R0. lra.
    + intros k Hk Hsq. assert (k = 0) by nia. subst k. reflexivity.
  - destruct (finalize_float_pixel_chain v ltac:(lia))
      as (mo & eo & j & O & Q & Hres & (mF & HmF & Hmo) & Hj & Hej & HO & Hq & HQ
          & Hnear & Hexact).
    set (m := v * 2 ^ (2 * j)) in *.
    assert (Hm : 0 <= m).
    { unfold m. apply Z.mul_nonneg_nonneg; [lia|]. apply Z.pow_nonneg. lia. }
    assert (Hpj : (0 < IZR (2 ^ j))%R).
    { apply IZR_lt. apply Z.pow_pos_nonneg; lia. }
    assert (Hvalue : (IZR (Z.pos mo) * powerRZ 2 eo = IZR O / IZR (2 ^ j))%R).
    { rewrite <- HO. apply powerRZ_rescale; assumption. }
    exists (IZR O / IZR (2 ^ j))%R. split; [|split; [|split]].
    + unfold float_value. rewrite Hres. f_equal.
      rewrite Rmult_1_l. exact Hvalue.
    + exists mF, (eo + 29). split; [lia|].
      rewrite <- Hvalue, Hmo, mult_IZR, IZR_pow2 by lia.
      rewrite (Z.add_comm eo 29), powerRZ_add by lra. ring.
    + pose proof (near_root m (Z.sqrt m) Q O Hm eq_refl ltac:(lia) HQ Hnear) as Hb.
      unfold m in Hb. rewrite sqrt_rescale in Hb by lia.
      replace (IZR O / IZR (2 ^ j) - R_sqrt.sqrt (IZR v))%R
        with ((IZR O - R_sqrt.sqrt (IZR v) * IZR (2 ^ j)) / IZR (2 ^ j))%R by (field; lra).
      unfold Rdiv at 1. rewrite Rabs_mult.
      rewrite (Rabs_pos_eq (/ IZR (2 ^ j))).
      2:{ apply Rlt_le, Rinv_0_lt_compat. exact Hpj. }
      apply (Rmult_le_reg_r (IZR (2 ^ j))); [exact Hpj|].
      rewrite Rmult_assoc, Rinv_l, Rmult_1_r by lra.
      eapply Rle_trans; [exact Hb|]. apply Req_le. field. 
      change (2 ^ 23) with 8388608. lra.
    + intros k Hk Hsq.
      assert (Hsquare : m = (k * 2 ^ j) * (k * 2 ^ j)).
      { unfold m. replace (2 * j) with (j + j) by lia.
        rewrite Z.pow_add_r by lia. rewrite Hsq. ring. }
      assert (Hroot : Z.sqrt m = k * 2 ^ j).
      { rewrite Hsquare. apply Z.sqrt_square.
        apply Z.mul_nonneg_nonneg; [lia|]. apply Z.pow_nonneg. lia. }
      assert (Hj29 : 29 <= j).
      { destruct (Z_lt_le_dec j 29) as [Hlt|Hge]; [|exact Hge].
        assert (2 ^ j <= 2 ^ 28) by (apply Z.pow_le_mono_r; lia).
        rewrite Hroot in Hq.
        change (2 ^ 52) with (2 ^ 24 * 2 ^ 28) in Hq.
        assert (0 < 2 ^ j) by (apply Z.pow_pos_nonneg; lia).
        assert (0 < 2 ^ 28) by reflexivity. nia. }
      assert (Hdiv : Z.sqrt m mod 2 ^ 29 = 0).
      { rewrite Hroot. replace j with ((j - 29) + 29) by lia.
        rewrite Z.pow_add_r by lia. rewrite Z.mul_assoc.
        apply Z.mod_mul. discriminate. }
      rewrite (Hexact ltac:(rewrite Hroot; exact Hsquare) Hdiv), Hroot.
      rewrite mult_IZR. field. lra.
Qed.

(** The output of the float variant on a volume of at most 46340 columns:
    pixel by pixel the square root of the squared field. *)
Lemma VEDistFloat3d_pixels_are_roots (nbands nrows ncols : Z) (src : list Z) :
  0 <= nbands -> 0 <= nrows -> 0 <= ncols <= 46340 ->
  Forall2 (fun v o =>
             exists r, float_value o = Some r /\ single_precision r /\
               (Rabs (r - R_sqrt.sqrt (IZR v)) <= R_sqrt.sqrt (IZR v) / IZR (2 ^ 23))%R /\
               (forall k, 0 <= k < 2 ^ 24 -> v = k * k -> r = IZR k))
    (squared_field_float nbands nrows ncols src)
    (VEDistFloat3d_pixels nbands nrows ncols src).
Proof.
  intros Hnb Hnr Hnc. rewrite VEDistFloat3d_pixels_map
    by (apply Z.mul_nonneg_nonneg; [apply Z.mul_nonneg_nonneg|]; lia).
  pose proof (squared_field_float_values nbands nrows ncols src Hnb Hnr Hnc) as Hv.
  induction Hv as [|v l Hv Hl IH]; simpl; constructor; [|exact IH].
  apply finalize_float_pixel_is_sqrt. exact Hv.
Qed.

(** C8. The short finalization maps every squared-distance value v of the
    field to round(10 x sqrt(v)), rounding to nearest with ties away from
    zero, clamped to the largest short (the rounded value never exceeds
    it); the float finalization is the elementwise square root, without
    scaling: each output is the single-precision number within a relative
    error of 2^-23 of the real square root of its value, and is the root
    itself where the value is a square. *)
Theorem C8_finalization_is_elementwise (field : list Z) :
  (Forall (fun v => 0 <= v <= 32767) field ->
   finalize_short (Z.of_nat (length field)) field
   = map (fun v => Z.min VShort_max (round_half_away (10 * R_sqrt.sqrt (IZR v)))) field
   /\ Forall (fun v => round_half_away (10 * R_sqrt.sqrt (IZR v)) <= VShort_max) field)
  /\ (Forall (fun v => 0 <= v < 2 ^ 53) field ->
      Forall2 (fun v o =>
                 exists r, float_value o = Some r /\ single_precision r /\
                   (Rabs (r - R_sqrt.sqrt (IZR v)) <= R_sqrt.sqrt (IZR v) / IZR (2 ^ 23))%R /\
                   (forall k, 0 <= k < 2 ^ 24 -> v = k * k -> r = IZR k))
        field (finalize_float (Z.of_nat (length field)) field)).
Proof.
  split.
  - intros Hfield. split.
    + rewrite finalize_short_map.
      induction Hfield as [|v l Hv Hl IH]; [reflexivity|].
      simpl. f_equal; [|exact IH].
      rewrite finalize_short_pixel_exact by exact Hv.
      rewrite round_half_away_tenths by lia.
      pose proof (rounded_tenths_range v Hv). unfold VShort_max. lia.
    + induction Hfield as [|v l Hv Hl IH]; constructor; [|exact IH].
      rewrite round_half_away_tenths by lia.
      pose proof (rounded_tenths_range v Hv). unfold VShort_max. lia.
  - intros Hfield. rewrite finalize_float_map.
    induction Hfield as [|v l Hv Hl IH]; simpl; constructor; [|exact IH].
    apply finalize_float_pixel_is_sqrt. exact Hv.
Qed.

Lemma C8_finalization_is_elementwise_witness :
  finalize_short 3 [0; 12; 32767]
  = map (fun v => Z.min VShort_max (round_half_away (10 * R_sqrt.sqrt (IZR v)))) [0; 12; 32767]
  /\ Forall2 (fun v o =>
                exists r, float_value o = Some r /\ single_precision r /\
                  (Rabs (r - R_sqrt.sqrt (IZR v)) <= R_sqrt.sqrt (IZR v) / IZR (2 ^ 23))%R /\
                  (forall k, 0 <= k < 2 ^ 24 -> v = k * k -> r = IZR k))
       [0; 12; 32767] (finalize_float 3 [0; 12; 32767]).
Proof.
  destruct (C8_finalization_is_elementwise [0; 12; 32767]) as [Hshort Hfloat].
  split.
  - apply Hshort. repeat (constructor; [lia|]). constructor.
  - apply Hfloat. repeat (constructor; [lia|]). constructor.
Defined.

(** ** The image store *)

Lemma VSelectDestImage_spec (dest : VImage) (nbands nrows ncols : Z) (repn : VRepnKind)
    (h : store) :
  exists d h1,
    VSelectDestImage dest nbands nrows ncols repn h = (Returns (Some d), h1) /\
    ((h1 = h /\ exists img, h !! d = Some img /\ VPixelRepn img = repn)
     \/ (h !! d = None /\ h1 = <[d := blank_image nbands nrows ncols repn]> h)).
Proof.
  assert (Hfresh : h !! fresh (dom h) = None).
  { apply not_elem_of_dom. apply is_fresh. }
  unfold VSelectDestImage.
  destruct dest as [p|]; [|eexists _, _; split; [reflexivity|right; split; [exact Hfresh|reflexivity]]].
  destruct (h !! p) as [img|] eqn:Hp;
    [|eexists _, _; split; [reflexivity|right; split; [exact Hfresh|reflexivity]]].
  destruct (dest_matches img nbands nrows ncols repn) eqn:Hm;
    [|eexists _, _; split; [reflexivity|right; split; [exact Hfresh|reflexivity]]].
  exists p, h. split; [reflexivity|]. left. split; [reflexivity|].
  exists img. split; [exact Hp|].
  unfold dest_matches in Hm. apply andb_true_iff in Hm. destruct Hm as [_ Hm].
  apply bool_decide_eq_true in Hm. exact Hm.
Qed.

Lemma finish_keeps_source (src d : positive) (repn : VRepnKind) (pix : VPixels)
    (img : VImageRec) (h : store) :
  h !! src = Some img -> d <> src ->
  exists h', finish src d repn pix h = (Returns (Some d), h') /\ h' !! src = Some img.
Proof.
  intros Hsrc Hne. unfold finish, mbind, M_bind, load, store_image, mret, M_ret.
  rewrite Hsrc. eexists. split; [reflexivity|].
  rewrite lookup_insert_ne by exact Hne. exact Hsrc.
Qed.

Lemma selected_dest_is_not_source (dest : VImage) (nbands nrows ncols : Z)
    (repn : VRepnKind) (h h1 : store) (src d : positive) (img : VImageRec) :
  h !! src = Some img -> VPixelRepn img <> repn ->
  VSelectDestImage dest nbands nrows ncols repn h = (Returns (Some d), h1) ->
  d <> src /\ h1 !! src = Some img.
Proof.
  intros Hsrc Hrepn E.
  destruct (VSelectDestImage_spec dest nbands nrows ncols repn h)
    as (d' & h1' & E' & Hcase).
  rewrite E in E'. injection E' as <- <-.
  destruct Hcase as [[-> (img' & Hd & Hr)]|[Hd ->]].
  - split; [|exact Hsrc]. intros ->. rewrite Hsrc in Hd. injection Hd as <-. contradiction.
  - assert (d <> src) by (intros ->; rewrite Hsrc in Hd; discriminate).
    split; [assumption|]. rewrite lookup_insert_ne by assumption. exact Hsrc.
Qed.

(** C9. Either engine only reads its input volume: on a bit image the call
    returns, and the store holds the same image at [src] afterwards. *)
Theorem C9_engines_leave_source_unchanged
    (h : store) (src : positive) (dest : VImage) (img : VImageRec) (pix : list Z) :
  h !! src = Some img ->
  VPixelRepn img = VBitRepn ->
  VImageData img = IntPixels pix ->
  (exists out h', VEDistFloat3d src dest h = (Returns out, h') /\ h' !! src = Some img) /\
  (exists out h', VEDistShort3d src dest h = (Returns out, h') /\ h' !! src = Some img).
Proof.
  intros Hsrc Hbit Hdata. split.
  - unfold VEDistFloat3d, mbind, M_bind, load, int_pixels.
    rewrite Hsrc, Hdata. unfold mret at 1, M_ret at 1.
    destruct (VSelectDestImage_spec dest (VImageNBands img) (VImageNRows img)
                (VImageNColumns img) VFloatRepn h) as (d & h1' & E & _).
    rewrite E.
    assert (Hrepn : VPixelRepn img <> VFloatRepn) by (rewrite Hbit; discriminate).
    destruct (selected_dest_is_not_source _ _ _ _ _ _ _ _ _ img Hsrc Hrepn E)
      as [Hne Hsrc1].
    rewrite bool_decide_false by exact Hne.
    destruct (finish_keeps_source src d VFloatRepn
                (RealPixels (VEDistFloat3d_pixels (VImageNBands img) (VImageNRows img)
                               (VImageNColumns img) pix)) img h1' Hsrc1 Hne)
      as (h' & Ef & Hs).
    exists (Some d), h'. split; assumption.
  - unfold VEDistShort3d, mbind, M_bind, load, int_pixels.
    rewrite Hsrc, Hdata. unfold mret at 1, M_ret at 1.
    destruct (VSelectDestImage_spec dest (VImageNBands img) (VImageNRows img)
                (VImageNColumns img) VShortRepn h) as (d & h1' & E & _).
    rewrite E.
    assert (Hrepn : VPixelRepn img <> VShortRepn) by (rewrite Hbit; discriminate).
    destruct (selected_dest_is_not_source _ _ _ _ _ _ _ _ _ img Hsrc Hrepn E)
      as [Hne Hsrc1].
    rewrite bool_decide_false by exact Hne.
    destruct (finish_keeps_source src d VShortRepn
                (IntPixels (VEDistShort3d_pixels (VImageNBands img) (VImageNRows img)
                              (VImageNColumns img) pix)) img h1' Hsrc1 Hne)
      as (h' & Ef & Hs).
    exists (Some d), h'. split; assumption.
Qed.

Lemma C9_engines_leave_source_unchanged_witness :
  exists out h',
    VEDistShort3d 1%positive (Some 2%positive)
      (<[1%positive := mkImage 1 1 2 VBitRepn (IntPixels [1; 0]) []]>
         {[2%positive := mkImage 1 1 2 VShortRepn (IntPixels [7; 7]) []]})
    = (Returns out, h') /\
    h' !! 1%positive = Some (mkImage 1 1 2 VBitRepn (IntPixels [1; 0]) []).
Proof.
  apply (C9_engines_leave_source_unchanged
           (<[1%positive := mkImage 1 1 2 VBitRepn (IntPixels [1; 0]) []]>
              {[2%positive := mkImage 1 1 2 VShortRepn (IntPixels [7; 7]) []]})
           1%positive (Some 2%positive)
           (mkImage 1 1 2 VBitRepn (IntPixels [1; 0]) []) [1; 0]).
  - reflexivity.
  - reflexivity.
  - reflexivity.
Defined.

(** C5. On an input volume whose element type is not single-bit,
    [VEuclideanDist3d] fails with [InvalidInputKind]: it returns no result,
    neither engine has run, and the store, with any destination buffer the
    caller supplied, is as it was. *)
Theorem C5_non_bit_input_is_rejected
    (h : store) (src : positive) (dest : VImage) (repn : VRepnKind) (img : VImageRec) :
  h !! src = Some img ->
  VPixelRepn img <> VBitRepn ->
  VEuclideanDist3d src dest repn h = (Fatal InvalidInputKind, h).
Proof.
  intros Hsrc Hrepn.
  unfold VEuclideanDist3d, mbind, M_bind, load.
  rewrite Hsrc. rewrite bool_decide_true by exact Hrepn. reflexivity.
Qed.

Lemma C5_non_bit_input_is_rejected_witness :
  VEuclideanDist3d 1%positive (Some 2%positive) VShortRepn
    (<[1%positive := mkImage 1 1 2 VUByteRepn (IntPixels [1; 0]) []]>
       {[2%positive := mkImage 1 1 2 VShortRepn (IntPixels [7; 7]) []]})
  = (Fatal InvalidInputKind,
     <[1%positive := mkImage 1 1 2 VUByteRepn (IntPixels [1; 0]) []]>
       {[2%positive := mkImage 1 1 2 VShortRepn (IntPixels [7; 7]) []]}).
Proof.
  apply (C5_non_bit_input_is_rejected _ 1%positive (Some 2%positive) VShortRepn
           (mkImage 1 1 2 VUByteRepn (IntPixels [1; 0]) [])).
  - reflexivity.
  - discriminate.
Defined.

(** ** The transform on small volumes *)


(** C2 fails on the code. In a volume of two bands of one row and one
    column, with the foreground voxel (0,0,0), the row of the background
    voxel (1,0,0) holds no foreground voxel and the true squared distance
    of (1,0,0) is 1. The column pass of the short variant gives the row the
    constant 0.5 x nrows^2 = 0.5, stored as 0: it is below the squared
    distance, and the later passes only take minima, so the short variant
    returns 0 at this background voxel, not round(10 x sqrt(1)) = 10. The
    float variant returns 1.0 there. *)
Theorem C2_empty_row_constant_is_below_the_distance :
  (forall c', 0 <= c' < 1 -> VPixel 1 1 [1; 0] 1 0 c' <> 1) /\
  is_nearest_sq_dist 2 1 1 [1; 0] 1 0 0 1 /\
  VPixel 1 1 (first_pass_short 2 1 1 [1; 0] (cleared 2 1 1)) 1 0 0 = 0 /\
  ~ (1 <= VPixel 1 1 (first_pass_short 2 1 1 [1; 0] (cleared 2 1 1)) 1 0 0) /\
  VPixel 1 1 (squared_field_short 2 1 1 [1; 0]) 1 0 0 = 0 /\
  VPixel 1 1 (VEDistShort3d_pixels 2 1 1 [1; 0]) 1 0 0 = 0 /\
  round_half_away (10 * R_sqrt.sqrt (IZR 1)) = 10 /\
  VEDistFloat3d_pixels 2 1 1 [1; 0] !! Z.to_nat (pixel_index 1 1 1 0 0) = Some 1%float.
Proof.
  split; [|split; [|split; [|split; [|split; [|split; [|split]]]]]].
  - intros c' Hc'. assert (c' = 0) as -> by lia. vm_compute. discriminate.
  - split.
    + exists 0, 0, 0. repeat split; try lia; reflexivity.
    + intros b' r' c' Hb' Hr' Hc' Hfg.
      assert (r' = 0) as -> by lia. assert (c' = 0) as -> by lia.
      assert (b' = 0 \/ b' = 1) as [-> | ->] by lia.
      * vm_compute. discriminate.
      * vm_compute in Hfg. discriminate.
  - vm_compute. reflexivity.
  - vm_compute. intros H. apply H. reflexivity.
  - vm_compute. reflexivity.
  - vm_compute. reflexivity.
  - rewrite round_half_away_tenths by lia. reflexivity.
  - vm_compute. reflexivity.
Qed.

(** C1 fails on the code. In a volume of one band, four rows and two
    columns whose only foreground voxel is (0,0,1), the voxel (0,3,0) is at
    squared distance 10. The float variant returns 2.0 there, not sqrt(10);
    the short variant returns 28, not round(10 x sqrt(10)) = 32. Row 3 holds
    no foreground voxel, so the first pass gives it ncols^2 = 4 (float) and
    0.5 x nrows^2 = 8 (short), and the later passes only take minima. *)
Theorem C1_single_foreground_distance_is_not_reached :
  is_nearest_sq_dist 1 4 2 [0; 1; 0; 0; 0; 0; 0; 0] 0 3 0 10 /\
  (VPixel 4 2 (squared_field_float 1 4 2 [0; 1; 0; 0; 0; 0; 0; 0]) 0 3 0 = 4 /\
   VEDistFloat3d_pixels 1 4 2 [0; 1; 0; 0; 0; 0; 0; 0]
     !! Z.to_nat (pixel_index 4 2 0 3 0) = Some 2%float /\
   R_sqrt.sqrt (IZR 10) <> 2%R) /\
  (VPixel 4 2 (squared_field_short 1 4 2 [0; 1; 0; 0; 0; 0; 0; 0]) 0 3 0 = 8 /\
   VPixel 4 2 (VEDistShort3d_pixels 1 4 2 [0; 1; 0; 0; 0; 0; 0; 0]) 0 3 0 = 28 /\
   round_half_away (10 * R_sqrt.sqrt (IZR 10)) = 32).
Proof.
  split; [split|split; [split; [|split]|split; [|split]]].
  - exists 0, 0, 1. repeat split; try lia; reflexivity.
  - nearest_by_cases.
  - vm_compute. reflexivity.
  - vm_compute. reflexivity.
  - intros E. pose proof (sqrt_sqrt (IZR 10) ltac:(lra)) as H.
    rewrite E in H. lra.
  - vm_compute. reflexivity.
  - vm_compute. reflexivity.
  - rewrite round_half_away_tenths by lia. reflexivity.
Qed.

(** C6 fails on the code. On a row of two voxels with the foreground voxel
    in column 0 the float variant returns (0, 2); on the reflected row it
    returns (1, 0), which is not the reflection of (0, 2). The short variant
    returns (0, 10) and (10, 0). *)
Theorem C6_float_column_reflection_is_not_preserved :
  VEDistFloat3d_pixels 1 1 2 [1; 0] = [0; 2]%float /\
  VEDistFloat3d_pixels 1 1 2 (reflect_volume ColumnAxis 1 1 2 [1; 0]) = [1; 0]%float /\
  VEDistFloat3d_pixels 1 1 2 (reflect_volume ColumnAxis 1 1 2 [1; 0])
    <> reflect_volume ColumnAxis 1 1 2 (VEDistFloat3d_pixels 1 1 2 [1; 0]) /\
  VEDistShort3d_pixels 1 1 2 (reflect_volume ColumnAxis 1 1 2 [1; 0])
    = reflect_volume ColumnAxis 1 1 2 (VEDistShort3d_pixels 1 1 2 [1; 0]).
Proof.
  split; [vm_compute; reflexivity|].
  split; [vm_compute; reflexivity|].
  split; [|vm_compute; reflexivity].
  intros E.
  apply (f_equal (fun l => match l with
                           | x :: _ => PrimFloat.eqb x 1
                           | [] => false
                           end)) in E.
  vm_compute in E. discriminate E.
Qed.

(** * Further properties *)

(** ** The window of the second and third pass loses nothing *)

Lemma pow2_nonneg (x : Z) : 0 <= x ^ 2.
Proof. rewrite Z.pow_2_r. apply Z.square_nonneg. Qed.

Lemma square_ge_of_abs (g x : Z) : 0 <= g -> g <= Z.abs x -> g * g <= x ^ 2.
Proof.
  intros Hg Hx. rewrite Z.pow_2_r, <- (Z.abs_square x).
  apply Z.mul_le_mono_nonneg; lia.
Qed.

(** A minimum over the window around [i] is a minimum over the whole line:
    a position outside the window is more than [sqrt (v i)] away, so its
    candidate exceeds the voxel's own. *)
Lemma window_covers_line (v : Z -> Z) (n extra i m : Z) :
  0 <= i < n -> 0 <= extra ->
  (forall k, 0 <= k < n -> 0 <= v k) ->
  is_min_over (fun k => v k + (i - k) ^ 2)
    (Z.max 0 (i - Z.sqrt (v i) - extra)) (Z.min n (i + Z.sqrt (v i) + 1)) m ->
  is_min_over (fun k => v k + (i - k) ^ 2) 0 n m.
Proof.
  intros Hi He Hpos [(k & Hk & E) Hlow].
  pose proof (Z.sqrt_nonneg (v i)) as Hg.
  pose proof (Z.sqrt_spec (v i) (Hpos i Hi)) as Hs. cbv zeta in Hs.
  set (g := Z.sqrt (v i)) in *.
  assert (Hown : m <= v i).
  { specialize (Hlow i ltac:(lia)). cbv beta in Hlow.
    rewrite Z.sub_diag in Hlow. simpl in Hlow. lia. }
  split.
  - exists k. split; [lia|exact E].
  - intros j Hj.
    destruct (Z_lt_le_dec j (Z.max 0 (i - g - extra))) as [Hlo|Hlo].
    + pose proof (square_ge_of_abs (g + 1) (i - j) ltac:(lia) ltac:(lia)).
      pose proof (Hpos j Hj). lia.
    + destruct (Z_lt_le_dec j (Z.min n (i + g + 1))) as [Hhi|Hhi].
      * apply Hlow. lia.
      * pose proof (square_ge_of_abs (g + 1) (i - j) ltac:(lia) ltac:(lia)).
        pose proof (Hpos j Hj). lia.
Qed.

Section SeparableMin.
Variables nbands nrows ncols : Z.
Variable src : list Z.
Variable ok : list Z -> Prop.
Variables pass2 pass3 : list Z -> list Z.

Local Abbreviation N := (Z.to_nat (nbands * nrows * ncols)).

Hypothesis ok_nonneg :
  forall d b r c, length d = N -> ok d ->
    0 <= b < nbands -> 0 <= r < nrows -> 0 <= c < ncols ->
    0 <= VPixel nrows ncols d b r c.
Hypothesis pass2_length : forall d, length (pass2 d) = length d.
Hypothesis pass2_keeps_ok : forall d, length d = N -> ok d -> ok (pass2 d).
Hypothesis pass2_foreground :
  forall d b r c, length d = N ->
    0 <= b < nbands -> 0 <= r < nrows -> 0 <= c < ncols ->
    VPixel nrows ncols src b r c = 1 ->
    VPixel nrows ncols (pass2 d) b r c = VPixel nrows ncols d b r c.
Hypothesis pass2_window :
  forall d b r c, length d = N ->
    0 <= b < nbands -> 0 <= r < nrows -> 0 <= c < ncols ->
    VPixel nrows ncols src b r c <> 1 -> ok d ->
    is_min_over (fun rr => VPixel nrows ncols d b rr c + (r - rr) ^ 2)
      (Z.max 0 (r - Z.sqrt (VPixel nrows ncols d b r c)))
      (Z.min nrows (r + Z.sqrt (VPixel nrows ncols d b r c) + 1))
      (VPixel nrows ncols (pass2 d) b r c).
Hypothesis pass3_foreground :
  forall d b r c, length d = N ->
    0 <= b < nbands -> 0 <= r < nrows -> 0 <= c < ncols ->
    VPixel nrows ncols src b r c = 1 ->
    VPixel nrows ncols (pass3 d) b r c = VPixel nrows ncols d b r c.
Hypothesis pass3_window :
  forall d b r c, length d = N ->
    0 <= b < nbands -> 0 <= r < nrows -> 0 <= c < ncols ->
    VPixel nrows ncols src b r c <> 1 -> ok d ->
    is_min_over (fun bb => VPixel nrows ncols d bb r c + (b - bb) ^ 2)
      (Z.max 0 (b - Z.sqrt (VPixel nrows ncols d b r c) - 1))
      (Z.min nbands (b + Z.sqrt (VPixel nrows ncols d b r c) + 1))
      (VPixel nrows ncols (pass3 d) b r c).

Lemma pass2_line (d : list Z) (b r c : Z) :
  length d = N -> 0 <= b < nbands -> 0 <= r < nrows -> 0 <= c < ncols ->
  VPixel nrows ncols src b r c <> 1 -> ok d ->
  is_min_over (fun rr => VPixel nrows ncols d b rr c + (r - rr) ^ 2) 0 nrows
    (VPixel nrows ncols (pass2 d) b r c).
Proof.
  intros Hd Hb Hr Hc Hbg Hok.
  apply (window_covers_line (fun rr => VPixel nrows ncols d b rr c) nrows 0 r);
    [exact Hr|lia| |].
  - intros k Hk. apply ok_nonneg; assumption.
  - cbv beta. rewrite Z.sub_0_r. apply pass2_window; assumption.
Qed.

Lemma pass3_line (d : list Z) (b r c : Z) :
  length d = N -> 0 <= b < nbands -> 0 <= r < nrows -> 0 <= c < ncols ->
  VPixel nrows ncols src b r c <> 1 -> ok d ->
  is_min_over (fun bb => VPixel nrows ncols d bb r c + (b - bb) ^ 2) 0 nbands
    (VPixel nrows ncols (pass3 d) b r c).
Proof.
  intros Hd Hb Hr Hc Hbg Hok.
  apply (window_covers_line (fun bb => VPixel nrows ncols d bb r c) nbands 1 b);
    [exact Hb|lia| |].
  - intros k Hk. apply ok_nonneg; assumption.
  - cbv beta. apply pass3_window; assumption.
Qed.

(** Fields that hold 0 at every foreground voxel. *)
Lemma own_zero_is_min (v : Z -> Z) (n i : Z) :
  0 <= i < n -> (forall k, 0 <= k < n -> 0 <= v k) -> v i = 0 ->
  is_min_over (fun k => v k + (i - k) ^ 2) 0 n (v i).
Proof.
  intros Hi Hpos Hz. split.
  - exists i. split; [exact Hi|]. rewrite Z.sub_diag. simpl. lia.
  - intros k Hk. pose proof (Hpos k Hk). pose proof (pow2_nonneg (i - k)). lia.
Qed.

Lemma pass2_line_all (d : list Z) (b r c : Z) :
  length d = N -> 0 <= b < nbands -> 0 <= r < nrows -> 0 <= c < ncols ->
  ok d -> zero_at_foreground nbands nrows ncols src d ->
  is_min_over (fun rr => VPixel nrows ncols d b rr c + (r - rr) ^ 2) 0 nrows
    (VPixel nrows ncols (pass2 d) b r c).
Proof.
  intros Hd Hb Hr Hc Hok Hz.
  destruct (Z.eq_dec (VPixel nrows ncols src b r c) 1) as [Hfg|Hbg].
  - rewrite pass2_foreground by assumption.
    apply (own_zero_is_min (fun rr => VPixel nrows ncols d b rr c) nrows r);
      [exact Hr| |apply Hz; assumption].
    intros k Hk. apply ok_nonneg; assumption.
  - apply pass2_line; assumption.
Qed.

Lemma pass3_line_all (d : list Z) (b r c : Z) :
  length d = N -> 0 <= b < nbands -> 0 <= r < nrows -> 0 <= c < ncols ->
  ok d -> zero_at_foreground nbands nrows ncols src d ->
  is_min_over (fun bb => VPixel nrows ncols d bb r c + (b - bb) ^ 2) 0 nbands
    (VPixel nrows ncols (pass3 d) b r c).
Proof.
  intros Hd Hb Hr Hc Hok Hz.
  destruct (Z.eq_dec (VPixel nrows ncols src b r c) 1) as [Hfg|Hbg].
  - rewrite pass3_foreground by assumption.
    apply (own_zero_is_min (fun bb => VPixel nrows ncols d bb r c) nbands b);
      [exact Hb| |apply Hz; assumption].
    intros k Hk. apply ok_nonneg; assumption.
  - apply pass3_line; assumption.
Qed.

Lemma pass2_keeps_zero (d : list Z) :
  length d = N -> zero_at_foreground nbands nrows ncols src d ->
  zero_at_foreground nbands nrows ncols src (pass2 d).
Proof.
  intros Hd Hz b r c Hb Hr Hc Hfg.
  rewrite pass2_foreground by assumption. apply Hz; assumption.
Qed.

(** The two passes together: the result at (b,r,c) is the least value of
    [d b' r' c + (r - r')^2 + (b - b')^2] over all rows and bands. *)
Lemma passes_upper (d : list Z) (b r c b' r' : Z) :
  length d = N -> ok d -> zero_at_foreground nbands nrows ncols src d ->
  0 <= b < nbands -> 0 <= r < nrows -> 0 <= c < ncols ->
  0 <= b' < nbands -> 0 <= r' < nrows ->
  VPixel nrows ncols (pass3 (pass2 d)) b r c
  <= VPixel nrows ncols d b' r' c + (r - r') ^ 2 + (b - b') ^ 2.
Proof.
  intros Hd Hok Hz Hb Hr Hc Hb' Hr'.
  assert (Hd2 : length (pass2 d) = N) by (rewrite pass2_length; exact Hd).
  pose proof (pass3_line_all (pass2 d) b r c Hd2 Hb Hr Hc
                (pass2_keeps_ok d Hd Hok) (pass2_keeps_zero d Hd Hz)) as [_ H3].
  pose proof (pass2_line_all d b' r c Hd Hb' Hr Hc Hok Hz) as [_ H2].
  specialize (H3 b' Hb'). specialize (H2 r' Hr'). cbv beta in H3, H2. lia.
Qed.

Lemma passes_attained (d : list Z) (b r c : Z) :
  length d = N -> ok d -> zero_at_foreground nbands nrows ncols src d ->
  0 <= b < nbands -> 0 <= r < nrows -> 0 <= c < ncols ->
  exists b' r', 0 <= b' < nbands /\ 0 <= r' < nrows /\
    VPixel nrows ncols (pass3 (pass2 d)) b r c
    = VPixel nrows ncols d b' r' c + (r - r') ^ 2 + (b - b') ^ 2.
Proof.
  intros Hd Hok Hz Hb Hr Hc.
  assert (Hd2 : length (pass2 d) = N) by (rewrite pass2_length; exact Hd).
  pose proof (pass3_line_all (pass2 d) b r c Hd2 Hb Hr Hc
                (pass2_keeps_ok d Hd Hok) (pass2_keeps_zero d Hd Hz))
    as [(b' & Hb' & E3) _].
  pose proof (pass2_line_all d b' r c Hd Hb' Hr Hc Hok Hz) as [(r' & Hr' & E2) _].
  exists b', r'. split; [exact Hb'|]. split; [exact Hr'|].
  cbv beta in E3, E2. lia.
Qed.
End SeparableMin.

(** ** The two variants as instances *)

Section Variants.
Variables nbands nrows ncols : Z.
Variable src : list Z.

Local Abbreviation N := (Z.to_nat (nbands * nrows * ncols)).

Lemma float_ok_nonneg (d : list Z) (b r c : Z) :
  length d = N -> float_field_ok nbands nrows d ->
  0 <= b < nbands -> 0 <= r < nrows -> 0 <= c < ncols ->
  0 <= VPixel nrows ncols d b r c.
Proof.
  intros Hd Hok Hb Hr Hc.
  exact (proj1 (VPixel_Forall nbands nrows ncols d Hd _ b r c Hok Hb Hr Hc)).
Qed.

Lemma short_ok_nonneg (d : list Z) (b r c : Z) :
  length d = N -> short_field_ok d ->
  0 <= b < nbands -> 0 <= r < nrows -> 0 <= c < ncols ->
  0 <= VPixel nrows ncols d b r c.
Proof.
  intros Hd Hok Hb Hr Hc.
  exact (proj1 (VPixel_Forall nbands nrows ncols d Hd _ b r c Hok Hb Hr Hc)).
Qed.

Lemma second_pass_float_length (d : list Z) :
  length (second_pass_float nbands nrows ncols src d) = length d.
Proof. rewrite second_pass_float_eq. apply second_pass_length. Qed.

Lemma third_pass_float_length (d : list Z) :
  length (third_pass_float nbands nrows ncols src d) = length d.
Proof. rewrite third_pass_float_eq. apply third_pass_length. Qed.

Lemma second_pass_short_length (d : list Z) :
  length (second_pass_short nbands nrows ncols src d) = length d.
Proof. rewrite second_pass_short_eq. apply second_pass_length. Qed.

Lemma third_pass_short_length (d : list Z) :
  length (third_pass_short nbands nrows ncols src d) = length d.
Proof. rewrite third_pass_short_eq. apply third_pass_length. Qed.

Lemma minimization_skips_foreground (d : list Z) (b r c : Z) :
  length d = N -> 0 <= b < nbands -> 0 <= r < nrows -> 0 <= c < ncols ->
  VPixel nrows ncols src b r c = 1 ->
  VPixel nrows ncols (second_pass_float nbands nrows ncols src d) b r c
    = VPixel nrows ncols d b r c /\
  VPixel nrows ncols (third_pass_float nbands nrows ncols src d) b r c
    = VPixel nrows ncols d b r c /\
  VPixel nrows ncols (second_pass_short nbands nrows ncols src d) b r c
    = VPixel nrows ncols d b r c /\
  VPixel nrows ncols (third_pass_short nbands nrows ncols src d) b r c
    = VPixel nrows ncols d b r c.
Proof.
  intros Hd Hb Hr Hc Hfg.
  rewrite second_pass_float_eq, third_pass_float_eq,
    second_pass_short_eq, third_pass_short_eq.
  rewrite !second_pass_get, !third_pass_get by assumption.
  rewrite Hfg. simpl. repeat split; reflexivity.
Qed.
End Variants.

(** ** First pass: what a column value can be *)

Lemma bit_pixel (nbands nrows ncols : Z) (src : list Z) (b r c : Z) :
  bit_volume nbands nrows ncols src ->
  0 <= b < nbands -> 0 <= r < nrows -> 0 <= c < ncols ->
  VPixel nrows ncols src b r c = 0 \/ VPixel nrows ncols src b r c = 1.
Proof.
  intros [Hlen Hbit] Hb Hr Hc.
  exact (VPixel_Forall nbands nrows ncols src Hlen _ b r c Hbit Hb Hr Hc).
Qed.

Lemma half_square_small (n : Z) :
  0 <= n <= 255 -> VShort_of_half_square n = n * n / 2 /\ 0 <= n * n / 2 <= 32767.
Proof.
  intros Hn. unfold VShort_of_half_square.
  assert (0 <= n * n <= 255 * 255) by (apply square_le_square; lia).
  rewrite Z.quot_div_nonneg by lia.
  assert (0 <= n * n / 2) by (apply Z.div_pos; lia).
  assert (Hq : n * n / 2 <= 255 * 255 / 2) by (apply Z.div_le_mono; lia).
  change (255 * 255 / 2) with 32512 in Hq.
  rewrite VShort_of_int_small by lia. lia.
Qed.

Section ColumnValues.
Variables nrows ncols : Z.
Variable src : list Z.
Variables b r c : Z.
Hypothesis c_range : 0 <= c < ncols.

Local Abbreviation pix := (VPixel nrows ncols src b r).

Lemma forward_steps_le (c' : Z) :
  c <= c' < ncols -> pix c' <> 0 ->
  0 <= forward_steps nrows ncols src b r c <= c' - c.
Proof.
  intros Hc' Hfg. unfold forward_steps.
  destruct (forward_stop_spec nrows ncols src b r c) as (Hr & Hz & _); [lia|].
  set (cc1 := forward_stop nrows ncols src b r c) in *.
  assert (cc1 <= c').
  { destruct (Z_le_gt_dec cc1 c') as [H|H]; [exact H|].
    exfalso. apply Hfg. apply Hz. lia. }
  destruct (Z.geb_spec cc1 ncols); lia.
Qed.

Lemma backward_steps_short_le (c' : Z) :
  0 <= c' <= c -> pix c' <> 0 ->
  0 <= backward_steps_short nrows ncols src b r c <= c - c'.
Proof.
  intros Hc' Hfg. unfold backward_steps_short.
  destruct (backward_stop_spec nrows ncols src b r c) as (Hr & Hz & _); [lia|].
  set (cc2 := backward_stop nrows ncols src b r c) in *.
  assert (c' <= cc2).
  { destruct (Z_le_gt_dec c' cc2) as [H|H]; [exact H|].
    exfalso. apply Hfg. apply Hz. lia. }
  destruct (Z.ltb_spec cc2 0); lia.
Qed.

Lemma backward_steps_float_le (c' : Z) :
  1 <= c' <= c -> pix c' <> 0 ->
  0 <= backward_steps_float nrows ncols src b r c <= c - c'.
Proof.
  intros Hc' Hfg. unfold backward_steps_float.
  destruct (backward_stop_spec nrows ncols src b r c) as (Hr & Hz & _); [lia|].
  set (cc2 := backward_stop nrows ncols src b r c) in *.
  assert (c' <= cc2).
  { destruct (Z_le_gt_dec c' cc2) as [H|H]; [exact H|].
    exfalso. apply Hfg. apply Hz. lia. }
  destruct (Z.leb_spec cc2 0); lia.
Qed.

Lemma forward_steps_cases :
  forward_steps nrows ncols src b r c = ncols \/
  exists c', c <= c' < ncols /\ pix c' <> 0 /\
             forward_steps nrows ncols src b r c = c' - c.
Proof.
  unfold forward_steps.
  destruct (forward_stop_spec nrows ncols src b r c) as (Hr & _ & Hs); [lia|].
  set (cc1 := forward_stop nrows ncols src b r c) in *.
  destruct (Z.geb_spec cc1 ncols) as [H|H]; [left; reflexivity|].
  right. exists cc1. split; [lia|]. split; [apply Hs; lia|reflexivity].
Qed.

Lemma backward_steps_short_cases :
  backward_steps_short nrows ncols src b r c = ncols \/
  exists c', 0 <= c' <= c /\ pix c' <> 0 /\
             backward_steps_short nrows ncols src b r c = c - c'.
Proof.
  unfold backward_steps_short.
  destruct (backward_stop_spec nrows ncols src b r c) as (Hr & _ & Hs); [lia|].
  set (cc2 := backward_stop nrows ncols src b r c) in *.
  destruct (Z.ltb_spec cc2 0) as [H|H]; [left; reflexivity|].
  right. exists cc2. split; [lia|]. split; [apply Hs; lia|reflexivity].
Qed.

Lemma backward_steps_float_cases :
  backward_steps_float nrows ncols src b r c = ncols \/
  exists c', 1 <= c' <= c /\ pix c' <> 0 /\
             backward_steps_float nrows ncols src b r c = c - c'.
Proof.
  unfold backward_steps_float.
  destruct (backward_stop_spec nrows ncols src b r c) as (Hr & _ & Hs); [lia|].
  set (cc2 := backward_stop nrows ncols src b r c) in *.
  destruct (Z.leb_spec cc2 0) as [H|H]; [left; reflexivity|].
  right. exists cc2. split; [lia|]. split; [apply Hs; lia|reflexivity].
Qed.

Lemma square_of_offset_le (d c' : Z) :
  0 <= d <= Z.abs (c - c') -> d * d <= (c - c') ^ 2.
Proof. intros H. apply square_ge_of_abs; lia. Qed.

(** A column value is at most the squared offset to any foreground voxel
    of the row; in the float variant for a foreground voxel that is not
    behind (b,r,c) in column 0. *)
Lemma first_value_short_le (c' : Z) :
  ncols * ncols <= 32767 -> 0 <= c' < ncols -> pix c' = 1 ->
  first_value_short nrows ncols src b r c <= (c - c') ^ 2.
Proof.
  intros Hn Hc' Hfg. unfold first_value_short.
  assert (Hrow : row_has_foreground nrows ncols src b r = true).
  { apply row_has_foreground_spec; [lia|]. exists c'. split; assumption. }
  rewrite Hrow.
  destruct (VPixel nrows ncols src b r c =? 1); [apply pow2_nonneg|].
  cbv zeta.
  pose proof (forward_steps_range nrows ncols src b r c c_range) as R1.
  pose proof (backward_steps_short_range nrows ncols src b r c c_range) as R2.
  assert (Hnz : pix c' <> 0) by (rewrite Hfg; discriminate).
  set (d1 := forward_steps nrows ncols src b r c) in *.
  set (d2 := backward_steps_short nrows ncols src b r c) in *.
  assert (Hd : 0 <= (if d1 <? d2 then d1 else d2) <= ncols
               /\ (if d1 <? d2 then d1 else d2) <= Z.abs (c - c')).
  { destruct (Z_le_gt_dec c c') as [Hle|Hgt].
    - pose proof (forward_steps_le c' ltac:(lia) Hnz) as H. fold d1 in H.
      destruct (Z.ltb_spec d1 d2); lia.
    - pose proof (backward_steps_short_le c' ltac:(lia) Hnz) as H. fold d2 in H.
      destruct (Z.ltb_spec d1 d2); lia. }
  destruct Hd as [Hd Habs].
  pose proof (square_le_square _ _ Hd).
  rewrite VShort_of_int_small by lia.
  apply square_of_offset_le. lia.
Qed.

Lemma first_value_float_le (c' : Z) :
  ncols * ncols <= 2 ^ 24 -> 0 <= c' < ncols -> 1 <= c' \/ c <= c' -> pix c' = 1 ->
  first_value_float nrows ncols src b r c <= (c - c') ^ 2.
Proof.
  intros Hn Hc' Hside Hfg. unfold first_value_float.
  destruct (VPixel nrows ncols src b r c =? 1); [apply pow2_nonneg|].
  cbv zeta.
  pose proof (forward_steps_range nrows ncols src b r c c_range) as R1.
  pose proof (backward_steps_float_range nrows ncols src b r c c_range) as R2.
  assert (Hnz : pix c' <> 0) by (rewrite Hfg; discriminate).
  set (d1 := forward_steps nrows ncols src b r c) in *.
  set (d2 := backward_steps_float nrows ncols src b r c) in *.
  assert (Hd : 0 <= (if d1 <=? d2 then d1 else d2) <= ncols
               /\ (if d1 <=? d2 then d1 else d2) <= Z.abs (c - c')).
  { destruct (Z_le_gt_dec c c') as [Hle|Hgt].
    - pose proof (forward_steps_le c' ltac:(lia) Hnz) as H. fold d1 in H.
      destruct (Z.leb_spec d1 d2); lia.
    - pose proof (backward_steps_float_le c' ltac:(lia) Hnz) as H. fold d2 in H.
      destruct (Z.leb_spec d1 d2); lia. }
  destruct Hd as [Hd Habs].
  pose proof (square_le_square _ _ Hd).
  rewrite VFloat_of_Z_small by lia.
  apply square_of_offset_le. lia.
Qed.
End ColumnValues.

Section ColumnCases.
Variables nbands nrows ncols : Z.
Variable src : list Z.
Variables b r c : Z.
Hypothesis src_bit : bit_volume nbands nrows ncols src.
Hypothesis b_range : 0 <= b < nbands.
Hypothesis r_range : 0 <= r < nrows.
Hypothesis c_range : 0 <= c < ncols.

Lemma nonzero_is_foreground (c' : Z) :
  0 <= c' < ncols -> VPixel nrows ncols src b r c' <> 0 ->
  VPixel nrows ncols src b r c' = 1.
Proof.
  intros Hc' Hnz.
  destruct (bit_pixel nbands nrows ncols src b r c' src_bit b_range r_range Hc'); tauto.
Qed.

(** The column value is the squared offset to a foreground voxel of the
    row, or the stand-in of the variant. *)
Lemma first_value_float_cases :
  ncols * ncols <= 2 ^ 24 ->
  first_value_float nrows ncols src b r c = ncols * ncols \/
  exists c', 0 <= c' < ncols /\ VPixel nrows ncols src b r c' = 1 /\
             first_value_float nrows ncols src b r c = (c - c') ^ 2.
Proof.
  intros Hn. unfold first_value_float.
  destruct (Z.eqb_spec (VPixel nrows ncols src b r c) 1) as [Hfg|Hbg].
  { right. exists c. split; [lia|]. split; [exact Hfg|]. rewrite Z.sub_diag. reflexivity. }
  cbv zeta.
  pose proof (forward_steps_range nrows ncols src b r c c_range) as R1.
  pose proof (backward_steps_float_range nrows ncols src b r c c_range) as R2.
  pose proof (forward_steps_cases nrows ncols src b r c c_range) as C1.
  pose proof (backward_steps_float_cases nrows ncols src b r c c_range) as C2.
  set (d1 := forward_steps nrows ncols src b r c) in *.
  set (d2 := backward_steps_float nrows ncols src b r c) in *.
  assert (Hd : 0 <= (if d1 <=? d2 then d1 else d2) <= ncols)
    by (destruct (d1 <=? d2); lia).
  pose proof (square_le_square _ _ Hd).
  rewrite VFloat_of_Z_small by lia.
  destruct (d1 <=? d2).
  - destruct C1 as [E|(c' & Hc' & Hnz & E)]; [left; rewrite E; reflexivity|].
    right. exists c'. split; [lia|]. split; [apply nonzero_is_foreground; [lia|exact Hnz]|].
    rewrite E. ring.
  - destruct C2 as [E|(c' & Hc' & Hnz & E)]; [left; rewrite E; reflexivity|].
    right. exists c'. split; [lia|]. split; [apply nonzero_is_foreground; [lia|exact Hnz]|].
    rewrite E. ring.
Qed.

Lemma first_value_short_cases :
  ncols * ncols <= 32767 -> nrows <= 255 ->
  first_value_short nrows ncols src b r c = nrows * nrows / 2 \/
  exists c', 0 <= c' < ncols /\ VPixel nrows ncols src b r c' = 1 /\
             first_value_short nrows ncols src b r c = (c - c') ^ 2.
Proof.
  intros Hn Hrows. unfold first_value_short.
  destruct (row_has_foreground nrows ncols src b r) eqn:Hrow;
    [|left; apply half_square_small; lia].
  right.
  destruct (Z.eqb_spec (VPixel nrows ncols src b r c) 1) as [Hfg|Hbg].
  { exists c. split; [lia|]. split; [exact Hfg|]. rewrite Z.sub_diag. reflexivity. }
  cbv zeta.
  apply row_has_foreground_spec in Hrow; [|lia].
  destruct Hrow as (c0 & Hc0 & Hfg0).
  assert (Hnz0 : VPixel nrows ncols src b r c0 <> 0) by (rewrite Hfg0; discriminate).
  pose proof (forward_steps_range nrows ncols src b r c c_range) as R1.
  pose proof (backward_steps_short_range nrows ncols src b r c c_range) as R2.
  pose proof (forward_steps_cases nrows ncols src b r c c_range) as C1.
  pose proof (backward_steps_short_cases nrows ncols src b r c c_range) as C2.
  assert (Hlt : forward_steps nrows ncols src b r c < ncols
                \/ backward_steps_short nrows ncols src b r c < ncols).
  { destruct (Z_le_gt_dec c c0) as [Hle|Hgt].
    - left. pose proof (forward_steps_le nrows ncols src b r c c_range c0 ltac:(lia) Hnz0). lia.
    - right. pose proof (backward_steps_short_le nrows ncols src b r c c_range c0 ltac:(lia) Hnz0). lia. }
  set (d1 := forward_steps nrows ncols src b r c) in *.
  set (d2 := backward_steps_short nrows ncols src b r c) in *.
  assert (Hd : 0 <= (if d1 <? d2 then d1 else d2) <= ncols)
    by (destruct (d1 <? d2); lia).
  pose proof (square_le_square _ _ Hd).
  rewrite VShort_of_int_small by lia.
  destruct (Z.ltb_spec d1 d2).
  - destruct C1 as [E|(c' & Hc' & Hnz & E)]; [lia|].
    exists c'. split; [lia|]. split; [apply nonzero_is_foreground; [lia|exact Hnz]|].
    rewrite E. ring.
  - destruct C2 as [E|(c' & Hc' & Hnz & E)]; [lia|].
    exists c'. split; [lia|]. split; [apply nonzero_is_foreground; [lia|exact Hnz]|].
    rewrite E. ring.
Qed.
End ColumnCases.

(** ** Output pixels *)

Lemma short_output_pixel (nbands nrows ncols : Z) (src : list Z) (b r c : Z) :
  0 <= b < nbands -> 0 <= r < nrows -> 0 <= c < ncols ->
  VPixel nrows ncols (VEDistShort3d_pixels nbands nrows ncols src) b r c
  = finalize_short_pixel (VPixel nrows ncols (squared_field_short nbands nrows ncols src) b r c).
Proof.
  intros Hb Hr Hc.
  pose proof (pixel_index_range nbands nrows ncols b r c Hb Hr Hc) as Hidx.
  rewrite VEDistShort3d_pixels_map by lia. unfold VPixel.
  apply getpix_map. rewrite squared_field_short_length. lia.
Qed.

Lemma float_output_pixel (nbands nrows ncols : Z) (src : list Z) (b r c : Z) :
  0 <= b < nbands -> 0 <= r < nrows -> 0 <= c < ncols ->
  VEDistFloat3d_pixels nbands nrows ncols src !! Z.to_nat (pixel_index nrows ncols b r c)
  = Some (finalize_float_pixel
            (VPixel nrows ncols (squared_field_float nbands nrows ncols src) b r c)).
Proof.
  intros Hb Hr Hc.
  pose proof (pixel_index_range nbands nrows ncols b r c Hb Hr Hc) as Hidx.
  rewrite VEDistFloat3d_pixels_map by lia. rewrite lookup_map.
  unfold VPixel, getpix. destruct (Z.ltb_spec (pixel_index nrows ncols b r c) 0); [lia|].
  destruct (lookup_lt_is_Some_2 (squared_field_float nbands nrows ncols src)
              (Z.to_nat (pixel_index nrows ncols b r c))) as [x Hx].
  { rewrite squared_field_float_length. lia. }
  rewrite Hx. reflexivity.
Qed.

Lemma rounded_tenths_mono (v w : Z) : 0 <= v <= w -> rounded_tenths v <= rounded_tenths w.
Proof.
  intros H. unfold rounded_tenths.
  apply Z.div_le_mono; [lia|].
  pose proof (Z.sqrt_le_mono (400 * v) (400 * w) ltac:(lia)). lia.
Qed.

(** ** The squared field of each variant *)

Section SquaredFields.
Variables nbands nrows ncols : Z.
Variable src : list Z.
Variables b r c : Z.
Hypothesis b_range : 0 <= b < nbands.
Hypothesis r_range : 0 <= r < nrows.
Hypothesis c_range : 0 <= c < ncols.

Local Abbreviation N := (Z.to_nat (nbands * nrows * ncols)).
Local Abbreviation pass1f := (first_pass_float nbands nrows ncols src (cleared nbands nrows ncols)).
Local Abbreviation pass1s := (first_pass_short nbands nrows ncols src (cleared nbands nrows ncols)).

Lemma pass1f_length : length pass1f = N.
Proof. rewrite first_pass_float_length. apply cleared_length. Qed.

Lemma pass1s_length : length pass1s = N.
Proof. rewrite first_pass_short_length. apply cleared_length. Qed.

Lemma pass1f_zero : zero_at_foreground nbands nrows ncols src pass1f.
Proof.
  intros b' r' c' Hb Hr Hc Hfg.
  rewrite first_pass_float_get by (try apply cleared_length; assumption).
  unfold first_value_float. rewrite Hfg. reflexivity.
Qed.

Lemma pass1s_zero : zero_at_foreground nbands nrows ncols src pass1s.
Proof.
  intros b' r' c' Hb Hr Hc Hfg.
  rewrite first_pass_short_get by (try apply cleared_length; assumption).
  unfold first_value_short.
  assert (Hrow : row_has_foreground nrows ncols src b' r' = true).
  { apply row_has_foreground_spec; [lia|]. exists c'. split; assumption. }
  rewrite Hrow, Hfg. reflexivity.
Qed.

Section Float.
Hypothesis rows_fit : ncols * ncols + nrows * nrows <= 2 ^ 24.
Hypothesis bands_fit : ncols * ncols + nbands * nbands <= 2 ^ 24.

Lemma pass1f_ok : float_field_ok nbands nrows pass1f.
Proof. apply first_pass_float_ok; lia. Qed.

Lemma squared_field_float_upper (b' r' : Z) :
  0 <= b' < nbands -> 0 <= r' < nrows ->
  VPixel nrows ncols (squared_field_float nbands nrows ncols src) b r c
  <= first_value_float nrows ncols src b' r' c + (r - r') ^ 2 + (b - b') ^ 2.
Proof.
  intros Hb' Hr'. unfold squared_field_float.
  rewrite <- (first_pass_float_get nbands nrows ncols src (cleared nbands nrows ncols) b' r' c)
    by (try apply cleared_length; assumption).
  apply (passes_upper nbands nrows ncols src (float_field_ok nbands nrows)
           (second_pass_float nbands nrows ncols src)
           (third_pass_float nbands nrows ncols src)); try assumption.
  - apply float_ok_nonneg.
  - apply second_pass_float_length.
  - intros d Hd Hok.
    apply (minimization_keeps_float_ok nbands nrows ncols src); try assumption; lia.
  - intros d b0 r0 c0 Hd Hb0 Hr0 Hc0 Hfg.
    apply (minimization_skips_foreground nbands nrows ncols src d b0 r0 c0); assumption.
  - intros d b0 r0 c0 Hd Hb0 Hr0 Hc0 Hbg Hok.
    apply second_pass_float_is_min; assumption.
  - intros d b0 r0 c0 Hd Hb0 Hr0 Hc0 Hfg.
    apply (minimization_skips_foreground nbands nrows ncols src d b0 r0 c0); assumption.
  - intros d b0 r0 c0 Hd Hb0 Hr0 Hc0 Hbg Hok.
    apply third_pass_float_is_min; assumption.
  - apply pass1f_length.
  - apply pass1f_ok.
  - apply pass1f_zero.
Qed.

Lemma squared_field_float_attained :
  exists b' r', 0 <= b' < nbands /\ 0 <= r' < nrows /\
    VPixel nrows ncols (squared_field_float nbands nrows ncols src) b r c
    = first_value_float nrows ncols src b' r' c + (r - r') ^ 2 + (b - b') ^ 2.
Proof.
  unfold squared_field_float.
  destruct (passes_attained nbands nrows ncols src (float_field_ok nbands nrows)
           (second_pass_float nbands nrows ncols src)
           (third_pass_float nbands nrows ncols src)) with (d := pass1f) (b := b) (r := r) (c := c)
    as (b' & r' & Hb' & Hr' & E); try assumption.
  - apply float_ok_nonneg.
  - apply second_pass_float_length.
  - intros d Hd Hok.
    apply (minimization_keeps_float_ok nbands nrows ncols src); try assumption; lia.
  - intros d b0 r0 c0 Hd Hb0 Hr0 Hc0 Hfg.
    apply (minimization_skips_foreground nbands nrows ncols src d b0 r0 c0); assumption.
  - intros d b0 r0 c0 Hd Hb0 Hr0 Hc0 Hbg Hok.
    apply second_pass_float_is_min; assumption.
  - intros d b0 r0 c0 Hd Hb0 Hr0 Hc0 Hfg.
    apply (minimization_skips_foreground nbands nrows ncols src d b0 r0 c0); assumption.
  - intros d b0 r0 c0 Hd Hb0 Hr0 Hc0 Hbg Hok.
    apply third_pass_float_is_min; assumption.
  - apply pass1f_length.
  - apply pass1f_ok.
  - apply pass1f_zero.
  - exists b', r'. split; [exact Hb'|]. split; [exact Hr'|].
    rewrite E. rewrite first_pass_float_get by (try apply cleared_length; assumption).
    reflexivity.
Qed.
End Float.

Section Short.
Hypothesis cols_fit : ncols * ncols <= 32767.
Hypothesis rows_fit : nrows <= 255.

Lemma pass1s_ok : short_field_ok pass1s.
Proof. apply first_pass_short_ok; lia. Qed.

Lemma squared_field_short_upper (b' r' : Z) :
  0 <= b' < nbands -> 0 <= r' < nrows ->
  VPixel nrows ncols (squared_field_short nbands nrows ncols src) b r c
  <= first_value_short nrows ncols src b' r' c + (r - r') ^ 2 + (b - b') ^ 2.
Proof.
  intros Hb' Hr'. unfold squared_field_short.
  rewrite <- (first_pass_short_get nbands nrows ncols src (cleared nbands nrows ncols) b' r' c)
    by (try apply cleared_length; assumption).
  apply (passes_upper nbands nrows ncols src short_field_ok
           (second_pass_short nbands nrows ncols src)
           (third_pass_short nbands nrows ncols src)); try assumption.
  - apply short_ok_nonneg.
  - apply second_pass_short_length.
  - intros d Hd Hok.
    apply (minimization_keeps_short_ok nbands nrows ncols src); try assumption; lia.
  - intros d b0 r0 c0 Hd Hb0 Hr0 Hc0 Hfg.
    apply (minimization_skips_foreground nbands nrows ncols src d b0 r0 c0); assumption.
  - intros d b0 r0 c0 Hd Hb0 Hr0 Hc0 Hbg Hok.
    apply second_pass_short_is_min; assumption.
  - intros d b0 r0 c0 Hd Hb0 Hr0 Hc0 Hfg.
    apply (minimization_skips_foreground nbands nrows ncols src d b0 r0 c0); assumption.
  - intros d b0 r0 c0 Hd Hb0 Hr0 Hc0 Hbg Hok.
    apply third_pass_short_is_min; assumption.
  - apply pass1s_length.
  - apply pass1s_ok.
  - apply pass1s_zero.
Qed.

Lemma squared_field_short_attained :
  exists b' r', 0 <= b' < nbands /\ 0 <= r' < nrows /\
    VPixel nrows ncols (squared_field_short nbands nrows ncols src) b r c
    = first_value_short nrows ncols src b' r' c + (r - r') ^ 2 + (b - b') ^ 2.
Proof.
  unfold squared_field_short.
  destruct (passes_attained nbands nrows ncols src short_field_ok
           (second_pass_short nbands nrows ncols src)
           (third_pass_short nbands nrows ncols src)) with (d := pass1s) (b := b) (r := r) (c := c)
    as (b' & r' & Hb' & Hr' & E); try assumption.
  - apply short_ok_nonneg.
  - apply second_pass_short_length.
  - intros d Hd Hok.
    apply (minimization_keeps_short_ok nbands nrows ncols src); try assumption; lia.
  - intros d b0 r0 c0 Hd Hb0 Hr0 Hc0 Hfg.
    apply (minimization_skips_foreground nbands nrows ncols src d b0 r0 c0); assumption.
  - intros d b0 r0 c0 Hd Hb0 Hr0 Hc0 Hbg Hok.
    apply second_pass_short_is_min; assumption.
  - intros d b0 r0 c0 Hd Hb0 Hr0 Hc0 Hfg.
    apply (minimization_skips_foreground nbands nrows ncols src d b0 r0 c0); assumption.
  - intros d b0 r0 c0 Hd Hb0 Hr0 Hc0 Hbg Hok.
    apply third_pass_short_is_min; assumption.
  - apply pass1s_length.
  - apply pass1s_ok.
  - apply pass1s_zero.
  - exists b', r'. split; [exact Hb'|]. split; [exact Hr'|].
    rewrite E. rewrite first_pass_short_get by (try apply cleared_length; assumption).
    reflexivity.
Qed.

Lemma squared_field_short_range :
  0 <= VPixel nrows ncols (squared_field_short nbands nrows ncols src) b r c <= 32767.
Proof.
  assert (Hok : short_field_ok (squared_field_short nbands nrows ncols src)).
  { unfold squared_field_short.
    apply (minimization_keeps_short_ok nbands nrows ncols src); try lia.
    - rewrite second_pass_short_length. apply pass1s_length.
    - apply (minimization_keeps_short_ok nbands nrows ncols src); try lia.
      + apply pass1s_length.
      + apply pass1s_ok. }
  apply (VPixel_Forall nbands nrows ncols _ (squared_field_short_length nbands nrows ncols src)
           (fun v => 0 <= v <= 32767) b r c Hok b_range r_range c_range).
Qed.
End Short.
End SquaredFields.

(** ** The squared field against the true distance *)

Lemma sq_dist_nonneg (b r c b' r' c' : Z) : 0 <= sq_dist b r c b' r' c'.
Proof.
  unfold sq_dist.
  pose proof (pow2_nonneg (b - b')). pose proof (pow2_nonneg (r - r')).
  pose proof (pow2_nonneg (c - c')). lia.
Qed.

Section AgainstDistance.
Variables nbands nrows ncols : Z.
Variable src : list Z.
Variables b r c : Z.
Hypothesis b_range : 0 <= b < nbands.
Hypothesis r_range : 0 <= r < nrows.
Hypothesis c_range : 0 <= c < ncols.

Lemma squared_field_short_le_dist (b' r' c' : Z) :
  ncols * ncols <= 32767 -> nrows <= 255 ->
  0 <= b' < nbands -> 0 <= r' < nrows -> 0 <= c' < ncols ->
  VPixel nrows ncols src b' r' c' = 1 ->
  VPixel nrows ncols (squared_field_short nbands nrows ncols src) b r c
  <= sq_dist b r c b' r' c'.
Proof.
  intros Hn Hrows Hb' Hr' Hc' Hfg.
  pose proof (squared_field_short_upper nbands nrows ncols src b r c
                b_range r_range c_range Hn Hrows b' r' Hb' Hr') as Hu.
  pose proof (first_value_short_le nrows ncols src b' r' c c_range c' Hn Hc' Hfg).
  unfold sq_dist. lia.
Qed.

Lemma squared_field_float_le_dist (b' r' c' : Z) :
  ncols * ncols + nrows * nrows <= 2 ^ 24 ->
  ncols * ncols + nbands * nbands <= 2 ^ 24 ->
  0 <= b' < nbands -> 0 <= r' < nrows -> 0 <= c' < ncols ->
  1 <= c' \/ c <= c' ->
  VPixel nrows ncols src b' r' c' = 1 ->
  VPixel nrows ncols (squared_field_float nbands nrows ncols src) b r c
  <= sq_dist b r c b' r' c'.
Proof.
  intros H1 H2 Hb' Hr' Hc' Hside Hfg.
  pose proof (squared_field_float_upper nbands nrows ncols src b r c
                b_range r_range c_range H1 H2 b' r' Hb' Hr') as Hu.
  assert (Hn : ncols * ncols <= 2 ^ 24) by nia.
  pose proof (first_value_float_le nrows ncols src b' r' c c_range c' Hn Hc' Hside Hfg).
  unfold sq_dist. lia.
Qed.

Lemma squared_field_float_range :
  ncols * ncols + nrows * nrows <= 2 ^ 24 ->
  ncols * ncols + nbands * nbands <= 2 ^ 24 ->
  0 <= VPixel nrows ncols (squared_field_float nbands nrows ncols src) b r c
  <= ncols * ncols.
Proof.
  intros H1 H2.
  assert (Hn : ncols * ncols <= 2 ^ 24) by nia.
  split.
  - destruct (squared_field_float_attained nbands nrows ncols src b r c
                b_range r_range c_range H1 H2) as (b' & r' & Hb' & Hr' & E).
    pose proof (first_value_float_range nrows ncols src b' r' c c_range Hn).
    pose proof (pow2_nonneg (r - r')). pose proof (pow2_nonneg (b - b')). lia.
  - pose proof (squared_field_float_upper nbands nrows ncols src b r c
                  b_range r_range c_range H1 H2 b r b_range r_range) as Hu.
    rewrite !Z.sub_diag in Hu. change (0 ^ 2) with 0 in Hu.
    pose proof (first_value_float_range nrows ncols src b r c c_range Hn). lia.
Qed.

Lemma squared_field_short_empty_row :
  ncols * ncols <= 32767 -> nrows <= 255 ->
  (forall c', 0 <= c' < ncols -> VPixel nrows ncols src b r c' <> 1) ->
  VPixel nrows ncols (squared_field_short nbands nrows ncols src) b r c
  <= nrows * nrows / 2.
Proof.
  intros Hn Hrows Hempty.
  pose proof (squared_field_short_upper nbands nrows ncols src b r c
                b_range r_range c_range Hn Hrows b r b_range r_range) as Hu.
  rewrite !Z.sub_diag in Hu. change (0 ^ 2) with 0 in Hu.
  assert (E : first_value_short nrows ncols src b r c = nrows * nrows / 2).
  { unfold first_value_short.
    destruct (row_has_foreground nrows ncols src b r) eqn:Hrow.
    - apply row_has_foreground_spec in Hrow; [|lia].
      destruct Hrow as (c' & Hc' & Hfg). exfalso. exact (Hempty c' Hc' Hfg).
    - apply half_square_small. lia. }
  lia.
Qed.

Section Bit.
Hypothesis src_bit : bit_volume nbands nrows ncols src.

Lemma squared_field_short_cases :
  ncols * ncols <= 32767 -> nrows <= 255 ->
  nrows * nrows / 2
    <= VPixel nrows ncols (squared_field_short nbands nrows ncols src) b r c \/
  exists b' r' c', 0 <= b' < nbands /\ 0 <= r' < nrows /\ 0 <= c' < ncols /\
    VPixel nrows ncols src b' r' c' = 1 /\
    VPixel nrows ncols (squared_field_short nbands nrows ncols src) b r c
    = sq_dist b r c b' r' c'.
Proof.
  intros Hn Hrows.
  destruct (squared_field_short_attained nbands nrows ncols src b r c
              b_range r_range c_range Hn Hrows) as (b' & r' & Hb' & Hr' & E).
  pose proof (pow2_nonneg (r - r')). pose proof (pow2_nonneg (b - b')).
  destruct (first_value_short_cases nbands nrows ncols src b' r' c
              src_bit Hb' Hr' c_range Hn Hrows) as [E1|(c' & Hc' & Hfg & E1)].
  - left. lia.
  - right. exists b', r', c'. repeat (split; [assumption|]).
    unfold sq_dist. lia.
Qed.

Lemma squared_field_float_cases :
  ncols * ncols + nrows * nrows <= 2 ^ 24 ->
  ncols * ncols + nbands * nbands <= 2 ^ 24 ->
  VPixel nrows ncols (squared_field_float nbands nrows ncols src) b r c
    = ncols * ncols \/
  exists b' r' c', 0 <= b' < nbands /\ 0 <= r' < nrows /\ 0 <= c' < ncols /\
    VPixel nrows ncols src b' r' c' = 1 /\
    VPixel nrows ncols (squared_field_float nbands nrows ncols src) b r c
    = sq_dist b r c b' r' c'.
Proof.
  intros H1 H2.
  assert (Hn : ncols * ncols <= 2 ^ 24) by nia.
  destruct (squared_field_float_attained nbands nrows ncols src b r c
              b_range r_range c_range H1 H2) as (b' & r' & Hb' & Hr' & E).
  pose proof (pow2_nonneg (r - r')). pose proof (pow2_nonneg (b - b')).
  pose proof (squared_field_float_range H1 H2).
  destruct (first_value_float_cases nbands nrows ncols src b' r' c
              src_bit Hb' Hr' c_range Hn) as [E1|(c' & Hc' & Hfg & E1)].
  - left. lia.
  - right. exists b', r', c'. repeat (split; [assumption|]).
    unfold sq_dist. lia.
Qed.
End Bit.
End AgainstDistance.

(** ** Stated properties of the passes *)

(** X1. Second pass, both variants: on a field of representable squared
    values a background voxel gets the least value of
    [d(b,rr,c) + (r - rr)^2] over every row [rr] of its column, not only
    over the rows of the window the loop visits. *)
Theorem X1_second_pass_minimizes_over_the_whole_column
    (nbands nrows ncols : Z) (src d : list Z) (b r c : Z) :
  length d = Z.to_nat (nbands * nrows * ncols) ->
  0 <= b < nbands -> 0 <= r < nrows -> 0 <= c < ncols ->
  VPixel nrows ncols src b r c <> 1 ->
  (float_field_ok nbands nrows d ->
   is_min_over (fun rr => VPixel nrows ncols d b rr c + (r - rr) ^ 2) 0 nrows
     (VPixel nrows ncols (second_pass_float nbands nrows ncols src d) b r c)) /\
  (short_field_ok d ->
   is_min_over (fun rr => VPixel nrows ncols d b rr c + (r - rr) ^ 2) 0 nrows
     (VPixel nrows ncols (second_pass_short nbands nrows ncols src d) b r c)).
Proof.
  intros Hd Hb Hr Hc Hbg. split; intros Hok.
  - apply (pass2_line nbands nrows ncols src (float_field_ok nbands nrows)
             (second_pass_float nbands nrows ncols src)); try assumption.
    + apply float_ok_nonneg.
    + intros d0 b0 r0 c0 Hd0 Hb0 Hr0 Hc0 Hbg0 Hok0.
      apply second_pass_float_is_min; assumption.
  - apply (pass2_line nbands nrows ncols src short_field_ok
             (second_pass_short nbands nrows ncols src)); try assumption.
    + apply short_ok_nonneg.
    + intros d0 b0 r0 c0 Hd0 Hb0 Hr0 Hc0 Hbg0 Hok0.
      apply second_pass_short_is_min; assumption.
Qed.

Lemma X1_second_pass_minimizes_over_the_whole_column_witness :
  is_min_over (fun rr => VPixel 4 1 [9; 4; 1; 0] 0 rr 0 + (2 - rr) ^ 2) 0 4
    (VPixel 4 1 (second_pass_float 1 4 1 [0; 0; 0; 1] [9; 4; 1; 0]) 0 2 0) /\
  is_min_over (fun rr => VPixel 4 1 [9; 4; 1; 0] 0 rr 0 + (2 - rr) ^ 2) 0 4
    (VPixel 4 1 (second_pass_short 1 4 1 [0; 0; 0; 1] [9; 4; 1; 0]) 0 2 0).
Proof.
  assert (Hbg : VPixel 4 1 [0; 0; 0; 1] 0 2 0 <> 1) by (vm_compute; discriminate).
  destruct (X1_second_pass_minimizes_over_the_whole_column
              1 4 1 [0; 0; 0; 1] [9; 4; 1; 0] 0 2 0
              eq_refl ltac:(lia) ltac:(lia) ltac:(lia) Hbg) as [Hf Hs].
  split.
  - apply Hf. unfold float_field_ok. repeat (constructor; [lia|]). constructor.
  - apply Hs. unfold short_field_ok. repeat (constructor; [lia|]). constructor.
Defined.

(** X2. Third pass, both variants: on a field of representable squared
    values a background voxel gets the least value of
    [d(bb,r,c) + (b - bb)^2] over every band [bb], not only over the bands
    of the window the loop visits. *)
Theorem X2_third_pass_minimizes_over_all_bands
    (nbands nrows ncols : Z) (src d : list Z) (b r c : Z) :
  length d = Z.to_nat (nbands * nrows * ncols) ->
  0 <= b < nbands -> 0 <= r < nrows -> 0 <= c < ncols ->
  VPixel nrows ncols src b r c <> 1 ->
  (float_field_ok nbands nrows d ->
   is_min_over (fun bb => VPixel nrows ncols d bb r c + (b - bb) ^ 2) 0 nbands
     (VPixel nrows ncols (third_pass_float nbands nrows ncols src d) b r c)) /\
  (short_field_ok d ->
   is_min_over (fun bb => VPixel nrows ncols d bb r c + (b - bb) ^ 2) 0 nbands
     (VPixel nrows ncols (third_pass_short nbands nrows ncols src d) b r c)).
Proof.
  intros Hd Hb Hr Hc Hbg. split; intros Hok.
  - apply (pass3_line nbands nrows ncols src (float_field_ok nbands nrows)
             (third_pass_float nbands nrows ncols src)); try assumption.
    + apply float_ok_nonneg.
    + intros d0 b0 r0 c0 Hd0 Hb0 Hr0 Hc0 Hbg0 Hok0.
      apply third_pass_float_is_min; assumption.
  - apply (pass3_line nbands nrows ncols src short_field_ok
             (third_pass_short nbands nrows ncols src)); try assumption.
    + apply short_ok_nonneg.
    + intros d0 b0 r0 c0 Hd0 Hb0 Hr0 Hc0 Hbg0 Hok0.
      apply third_pass_short_is_min; assumption.
Qed.

Lemma X2_third_pass_minimizes_over_all_bands_witness :
  is_min_over (fun bb => VPixel 1 1 [0; 1; 4; 16] bb 0 0 + (3 - bb) ^ 2) 0 4
    (VPixel 1 1 (third_pass_float 4 1 1 [1; 0; 0; 0] [0; 1; 4; 16]) 3 0 0) /\
  is_min_over (fun bb => VPixel 1 1 [0; 1; 4; 16] bb 0 0 + (3 - bb) ^ 2) 0 4
    (VPixel 1 1 (third_pass_short 4 1 1 [1; 0; 0; 0] [0; 1; 4; 16]) 3 0 0).
Proof.
  assert (Hbg : VPixel 1 1 [1; 0; 0; 0] 3 0 0 <> 1) by (vm_compute; discriminate).
  destruct (X2_third_pass_minimizes_over_all_bands
              4 1 1 [1; 0; 0; 0] [0; 1; 4; 16] 3 0 0
              eq_refl ltac:(lia) ltac:(lia) ltac:(lia) Hbg) as [Hf Hs].
  split.
  - apply Hf. unfold float_field_ok. repeat (constructor; [lia|]). constructor.
  - apply Hs. unfold short_field_ok. repeat (constructor; [lia|]). constructor.
Defined.

(** X3. The three passes together, both variants, on volumes whose squared
    extents the element type represents: the squared field at (b,r,c) is
    the least value of [pass1(b',r',c) + (r - r')^2 + (b - b')^2] over all
    bands b' and rows r', where pass1 is the field the first pass leaves;
    no sum is below it and one of them equals it. *)
Theorem X3_squared_field_is_the_least_sum_over_rows_and_bands
    (nbands nrows ncols : Z) (src : list Z) (b r c : Z) :
  0 <= b < nbands -> 0 <= r < nrows -> 0 <= c < ncols ->
  (ncols * ncols + nrows * nrows <= 2 ^ 24 ->
   ncols * ncols + nbands * nbands <= 2 ^ 24 ->
   let pass1 := first_pass_float nbands nrows ncols src (cleared nbands nrows ncols) in
   let v := VPixel nrows ncols (squared_field_float nbands nrows ncols src) b r c in
   (forall b' r', 0 <= b' < nbands -> 0 <= r' < nrows ->
      v <= VPixel nrows ncols pass1 b' r' c + (r - r') ^ 2 + (b - b') ^ 2) /\
   (exists b' r', 0 <= b' < nbands /\ 0 <= r' < nrows /\
      v = VPixel nrows ncols pass1 b' r' c + (r - r') ^ 2 + (b - b') ^ 2)) /\
  (ncols * ncols <= 32767 -> nrows <= 255 ->
   let pass1 := first_pass_short nbands nrows ncols src (cleared nbands nrows ncols) in
   let v := VPixel nrows ncols (squared_field_short nbands nrows ncols src) b r c in
   (forall b' r', 0 <= b' < nbands -> 0 <= r' < nrows ->
      v <= VPixel nrows ncols pass1 b' r' c + (r - r') ^ 2 + (b - b') ^ 2) /\
   (exists b' r', 0 <= b' < nbands /\ 0 <= r' < nrows /\
      v = VPixel nrows ncols pass1 b' r' c + (r - r') ^ 2 + (b - b') ^ 2)).
Proof.
  intros Hb Hr Hc. split; intros H1 H2; cbv zeta; split.
  - intros b' r' Hb' Hr'.
    rewrite first_pass_float_get by (try apply cleared_length; assumption).
    apply squared_field_float_upper; assumption.
  - destruct (squared_field_float_attained nbands nrows ncols src b r c Hb Hr Hc H1 H2)
      as (b' & r' & Hb' & Hr' & E).
    exists b', r'. split; [exact Hb'|]. split; [exact Hr'|].
    rewrite first_pass_float_get by (try apply cleared_length; assumption). exact E.
  - intros b' r' Hb' Hr'.
    rewrite first_pass_short_get by (try apply cleared_length; assumption).
    apply squared_field_short_upper; assumption.
  - destruct (squared_field_short_attained nbands nrows ncols src b r c Hb Hr Hc H1 H2)
      as (b' & r' & Hb' & Hr' & E).
    exists b', r'. split; [exact Hb'|]. split; [exact Hr'|].
    rewrite first_pass_short_get by (try apply cleared_length; assumption). exact E.
Qed.

Lemma X3_squared_field_is_the_least_sum_over_rows_and_bands_witness :
  VPixel 2 2 (squared_field_short 2 2 2 [0; 0; 0; 0; 0; 0; 0; 1]) 0 0 0
  <= VPixel 2 2 (first_pass_short 2 2 2 [0; 0; 0; 0; 0; 0; 0; 1] (cleared 2 2 2)) 1 1 0
     + (0 - 1) ^ 2 + (0 - 1) ^ 2.
Proof.
  destruct (X3_squared_field_is_the_least_sum_over_rows_and_bands
              2 2 2 [0; 0; 0; 0; 0; 0; 0; 1] 0 0 0
              ltac:(lia) ltac:(lia) ltac:(lia)) as [_ Hs].
  destruct (Hs ltac:(vm_compute; discriminate) ltac:(lia)) as [Hu _].
  apply Hu; lia.
Defined.

(** X4. The short variant never exceeds the true distance, on volumes of
    at most 255 rows with ncols^2 <= 32767: for every foreground voxel
    (b',r',c') the squared value at (b,r,c) is at most the squared
    Euclidean distance between the two, and the output is at most
    round(10 x distance). *)
Theorem X4_short_variant_never_exceeds_the_distance
    (nbands nrows ncols : Z) (src : list Z) (b r c b' r' c' : Z) :
  0 <= b < nbands -> 0 <= r < nrows -> 0 <= c < ncols ->
  0 <= b' < nbands -> 0 <= r' < nrows -> 0 <= c' < ncols ->
  ncols * ncols <= 32767 -> nrows <= 255 ->
  VPixel nrows ncols src b' r' c' = 1 ->
  VPixel nrows ncols (squared_field_short nbands nrows ncols src) b r c
    <= sq_dist b r c b' r' c' /\
  VPixel nrows ncols (VEDistShort3d_pixels nbands nrows ncols src) b r c
    <= round_half_away (10 * R_sqrt.sqrt (IZR (sq_dist b r c b' r' c'))).
Proof.
  intros Hb Hr Hc Hb' Hr' Hc' Hn Hrows Hfg.
  pose proof (squared_field_short_le_dist nbands nrows ncols src b r c Hb Hr Hc
                b' r' c' Hn Hrows Hb' Hr' Hc' Hfg) as Hle.
  split; [exact Hle|].
  pose proof (squared_field_short_range nbands nrows ncols src b r c Hb Hr Hc Hn Hrows)
    as Hrange.
  rewrite short_output_pixel by assumption.
  rewrite finalize_short_pixel_exact by exact Hrange.
  rewrite round_half_away_tenths by apply sq_dist_nonneg.
  apply rounded_tenths_mono. lia.
Qed.

Lemma X4_short_variant_never_exceeds_the_distance_witness :
  VPixel 4 2 (squared_field_short 1 4 2 [0; 1; 0; 0; 0; 0; 0; 0]) 0 3 0
    <= sq_dist 0 3 0 0 0 1 /\
  VPixel 4 2 (VEDistShort3d_pixels 1 4 2 [0; 1; 0; 0; 0; 0; 0; 0]) 0 3 0
    <= round_half_away (10 * R_sqrt.sqrt (IZR (sq_dist 0 3 0 0 0 1))).
Proof.
  apply (X4_short_variant_never_exceeds_the_distance
           1 4 2 [0; 1; 0; 0; 0; 0; 0; 0] 0 3 0 0 0 1); try lia.
  reflexivity.
Defined.



(** X6. Every squared value of the short variant on a bit volume is the
    squared Euclidean distance to some foreground voxel, or it is at least
    the stand-in nrows^2 / 2 (integer division) that the first pass gives
    to the rows without foreground. *)
Theorem X6_short_value_is_a_distance_or_at_least_the_stand_in
    (nbands nrows ncols : Z) (src : list Z) (b r c : Z) :
  bit_volume nbands nrows ncols src ->
  0 <= b < nbands -> 0 <= r < nrows -> 0 <= c < ncols ->
  ncols * ncols <= 32767 -> nrows <= 255 ->
  nrows * nrows / 2
    <= VPixel nrows ncols (squared_field_short nbands nrows ncols src) b r c \/
  exists b' r' c', 0 <= b' < nbands /\ 0 <= r' < nrows /\ 0 <= c' < ncols /\
    VPixel nrows ncols src b' r' c' = 1 /\
    VPixel nrows ncols (squared_field_short nbands nrows ncols src) b r c
    = sq_dist b r c b' r' c'.
Proof.
  intros Hbit Hb Hr Hc Hn Hrows.
  apply squared_field_short_cases; assumption.
Qed.

Lemma X6_short_value_is_a_distance_or_at_least_the_stand_in_witness :
  2 * 2 / 2 <= VPixel 2 2 (squared_field_short 1 2 2 [0; 1; 0; 0]) 0 1 0 \/
  exists b' r' c', 0 <= b' < 1 /\ 0 <= r' < 2 /\ 0 <= c' < 2 /\
    VPixel 2 2 [0; 1; 0; 0] b' r' c' = 1 /\
    VPixel 2 2 (squared_field_short 1 2 2 [0; 1; 0; 0]) 0 1 0 = sq_dist 0 1 0 b' r' c'.
Proof.
  apply (X6_short_value_is_a_distance_or_at_least_the_stand_in
           1 2 2 [0; 1; 0; 0] 0 1 0); try lia.
  split; [reflexivity|]. repeat (constructor; [lia|]). constructor.
Defined.

(** X7. Every squared value of the float variant on a bit volume is the
    squared Euclidean distance to some foreground voxel, or it is ncols^2,
    the stand-in of the first pass for a scan that finds no foreground. *)
Theorem X7_float_value_is_a_distance_or_the_stand_in
    (nbands nrows ncols : Z) (src : list Z) (b r c : Z) :
  bit_volume nbands nrows ncols src ->
  0 <= b < nbands -> 0 <= r < nrows -> 0 <= c < ncols ->
  ncols * ncols + nrows * nrows <= 2 ^ 24 ->
  ncols * ncols + nbands * nbands <= 2 ^ 24 ->
  VPixel nrows ncols (squared_field_float nbands nrows ncols src) b r c
    = ncols * ncols \/
  exists b' r' c', 0 <= b' < nbands /\ 0 <= r' < nrows /\ 0 <= c' < ncols /\
    VPixel nrows ncols src b' r' c' = 1 /\
    VPixel nrows ncols (squared_field_float nbands nrows ncols src) b r c
    = sq_dist b r c b' r' c'.
Proof.
  intros Hbit Hb Hr Hc H1 H2.
  apply squared_field_float_cases; assumption.
Qed.

Lemma X7_float_value_is_a_distance_or_the_stand_in_witness :
  VPixel 2 2 (squared_field_float 1 2 2 [0; 1; 0; 0]) 0 1 0 = 2 * 2 \/
  exists b' r' c', 0 <= b' < 1 /\ 0 <= r' < 2 /\ 0 <= c' < 2 /\
    VPixel 2 2 [0; 1; 0; 0] b' r' c' = 1 /\
    VPixel 2 2 (squared_field_float 1 2 2 [0; 1; 0; 0]) 0 1 0 = sq_dist 0 1 0 b' r' c'.
Proof.
  apply (X7_float_value_is_a_distance_or_the_stand_in
           1 2 2 [0; 1; 0; 0] 0 1 0); try lia.
  split; [reflexivity|]. repeat (constructor; [lia|]). constructor.
Defined.

(** X8. The short variant is exact wherever the true squared distance D to
    the nearest foreground voxel is at most nrows^2 / 2 (integer division):
    there the squared value is D and the output is round(10 x sqrt D). *)
Theorem X8_short_variant_is_exact_up_to_the_stand_in
    (nbands nrows ncols : Z) (src : list Z) (b r c D : Z) :
  bit_volume nbands nrows ncols src ->
  0 <= b < nbands -> 0 <= r < nrows -> 0 <= c < ncols ->
  ncols * ncols <= 32767 -> nrows <= 255 ->
  is_nearest_sq_dist nbands nrows ncols src b r c D ->
  D <= nrows * nrows / 2 ->
  VPixel nrows ncols (squared_field_short nbands nrows ncols src) b r c = D /\
  VPixel nrows ncols (VEDistShort3d_pixels nbands nrows ncols src) b r c
    = round_half_away (10 * R_sqrt.sqrt (IZR D)).
Proof.
  intros Hbit Hb Hr Hc Hn Hrows [(b0 & r0 & c0 & Hb0 & Hr0 & Hc0 & Hfg0 & ED) Hleast] HD.
  pose proof (squared_field_short_le_dist nbands nrows ncols src b r c Hb Hr Hc
                b0 r0 c0 Hn Hrows Hb0 Hr0 Hc0 Hfg0) as Hle.
  rewrite <- ED in Hle.
  assert (E : VPixel nrows ncols (squared_field_short nbands nrows ncols src) b r c = D).
  { destruct (squared_field_short_cases nbands nrows ncols src b r c Hb Hr Hc Hbit Hn Hrows)
      as [Hge|(b' & r' & c' & Hb' & Hr' & Hc' & Hfg & E)].
    - lia.
    - pose proof (Hleast b' r' c' Hb' Hr' Hc' Hfg). lia. }
  split; [exact E|].
  pose proof (squared_field_short_range nbands nrows ncols src b r c Hb Hr Hc Hn Hrows)
    as Hrange.
  rewrite short_output_pixel by assumption.
  rewrite finalize_short_pixel_exact by exact Hrange.
  rewrite E. symmetry. apply round_half_away_tenths.
  rewrite ED. apply sq_dist_nonneg.
Qed.

Lemma X8_short_variant_is_exact_up_to_the_stand_in_witness :
  VPixel 3 2 (squared_field_short 1 3 2 [0; 1; 0; 0; 0; 0]) 0 1 0 = 2 /\
  VPixel 3 2 (VEDistShort3d_pixels 1 3 2 [0; 1; 0; 0; 0; 0]) 0 1 0
    = round_half_away (10 * R_sqrt.sqrt (IZR 2)).
Proof.
  apply (X8_short_variant_is_exact_up_to_the_stand_in
           1 3 2 [0; 1; 0; 0; 0; 0] 0 1 0 2); try lia.
  - split; [reflexivity|]. repeat (constructor; [lia|]). constructor.
  - split.
    + exists 0, 0, 1. repeat split; try lia; reflexivity.
    + intros b' r' c' Hb' Hr' Hc' Hfg.
      assert (b' = 0) as -> by lia.
      assert (r' = 0 \/ r' = 1 \/ r' = 2) as [-> | [-> | ->]] by lia;
        (assert (c' = 0 \/ c' = 1) as [-> | ->] by lia);
        first [ vm_compute in Hfg; discriminate Hfg | vm_compute; discriminate ].
  - vm_compute. discriminate.
Defined.

(** X9. The float variant is exact at (b,r,c) when a nearest foreground
    voxel (b',r',c') lies in a column c' >= 1 or c' >= c, and the true
    squared distance D is at most ncols^2: the squared value is D and the
    output pixel is the square root the finalization takes of D. *)
Theorem X9_float_variant_is_exact_off_column_0
    (nbands nrows ncols : Z) (src : list Z) (b r c b' r' c' D : Z) :
  bit_volume nbands nrows ncols src ->
  0 <= b < nbands -> 0 <= r < nrows -> 0 <= c < ncols ->
  ncols * ncols + nrows * nrows <= 2 ^ 24 ->
  ncols * ncols + nbands * nbands <= 2 ^ 24 ->
  is_nearest_sq_dist nbands nrows ncols src b r c D ->
  0 <= b' < nbands -> 0 <= r' < nrows -> 0 <= c' < ncols ->
  VPixel nrows ncols src b' r' c' = 1 ->
  D = sq_dist b r c b' r' c' ->
  1 <= c' \/ c <= c' ->
  D <= ncols * ncols ->
  VPixel nrows ncols (squared_field_float nbands nrows ncols src) b r c = D /\
  VEDistFloat3d_pixels nbands nrows ncols src !! Z.to_nat (pixel_index nrows ncols b r c)
    = Some (finalize_float_pixel D).
Proof.
  intros Hbit Hb Hr Hc H1 H2 [_ Hleast] Hb' Hr' Hc' Hfg' ED Hside HD.
  pose proof (squared_field_float_le_dist nbands nrows ncols src b r c Hb Hr Hc
                b' r' c' H1 H2 Hb' Hr' Hc' Hside Hfg') as Hle.
  rewrite <- ED in Hle.
  assert (E : VPixel nrows ncols (squared_field_float nbands nrows ncols src) b r c = D).
  { destruct (squared_field_float_cases nbands nrows ncols src b r c Hb Hr Hc Hbit H1 H2)
      as [Hge|(b0 & r0 & c0 & Hb0 & Hr0 & Hc0 & Hfg & E)].
    - lia.
    - pose proof (Hleast b0 r0 c0 Hb0 Hr0 Hc0 Hfg). lia. }
  split; [exact E|].
  rewrite float_output_pixel by assumption. rewrite E. reflexivity.
Qed.

Lemma X9_float_variant_is_exact_off_column_0_witness :
  VPixel 3 2 (squared_field_float 1 3 2 [0; 1; 0; 0; 0; 0]) 0 1 0 = 2 /\
  VEDistFloat3d_pixels 1 3 2 [0; 1; 0; 0; 0; 0] !! Z.to_nat (pixel_index 3 2 0 1 0)
    = Some (finalize_float_pixel 2).
Proof.
  apply (X9_float_variant_is_exact_off_column_0
           1 3 2 [0; 1; 0; 0; 0; 0] 0 1 0 0 0 1 2); try lia.
  - split; [reflexivity|]. repeat (constructor; [lia|]). constructor.
  - split.
    + exists 0, 0, 1. repeat split; try lia; reflexivity.
    + intros b' r' c' Hb' Hr' Hc' Hfg.
      assert (b' = 0) as -> by lia.
      assert (r' = 0 \/ r' = 1 \/ r' = 2) as [-> | [-> | ->]] by lia;
        (assert (c' = 0 \/ c' = 1) as [-> | ->] by lia);
        first [ vm_compute in Hfg; discriminate Hfg | vm_compute; discriminate ].
  - reflexivity.
  - reflexivity.
Defined.



(** X11. Short variant: at a voxel of a row that holds no foreground voxel
    the squared value is at most nrows^2 / 2 (integer division), however
    far the nearest foreground voxel is; in a volume of a single row that
    bound is 0, so such a voxel gets the output 0, the value of a
    foreground voxel. *)
Theorem X11_short_row_without_foreground_is_capped
    (nbands nrows ncols : Z) (src : list Z) (b r c : Z) :
  0 <= b < nbands -> 0 <= r < nrows -> 0 <= c < ncols ->
  ncols * ncols <= 32767 -> nrows <= 255 ->
  (forall c', 0 <= c' < ncols -> VPixel nrows ncols src b r c' <> 1) ->
  VPixel nrows ncols (squared_field_short nbands nrows ncols src) b r c
    <= nrows * nrows / 2 /\
  (nrows = 1 ->
   VPixel nrows ncols (VEDistShort3d_pixels nbands nrows ncols src) b r c = 0).
Proof.
  intros Hb Hr Hc Hn Hrows Hempty.
  pose proof (squared_field_short_empty_row nbands nrows ncols src b r c Hb Hr Hc
                Hn Hrows Hempty) as Hle.
  pose proof (squared_field_short_range nbands nrows ncols src b r c Hb Hr Hc Hn Hrows)
    as Hrange.
  split; [exact Hle|]. intros Hone. subst nrows.
  rewrite short_output_pixel by assumption.
  change (1 * 1 / 2) with 0 in Hle.
  replace (VPixel 1 ncols (squared_field_short nbands 1 ncols src) b r c)
    with 0 by lia.
  vm_compute. reflexivity.
Qed.

Lemma X11_short_row_without_foreground_is_capped_witness :
  VPixel 1 2 (squared_field_short 3 1 2 [1; 1; 0; 0; 0; 0]) 2 0 1 <= 1 * 1 / 2 /\
  VPixel 1 2 (VEDistShort3d_pixels 3 1 2 [1; 1; 0; 0; 0; 0]) 2 0 1 = 0.
Proof.
  assert (Hempty : forall c', 0 <= c' < 2 -> VPixel 1 2 [1; 1; 0; 0; 0; 0] 2 0 c' <> 1).
  { intros c' Hc'. assert (c' = 0 \/ c' = 1) as [-> | ->] by lia; vm_compute; discriminate. }
  destruct (X11_short_row_without_foreground_is_capped
              3 1 2 [1; 1; 0; 0; 0; 0] 2 0 1
              ltac:(lia) ltac:(lia) ltac:(lia) ltac:(lia) ltac:(lia) Hempty) as [Hle Hzero].
  split; [exact Hle|apply Hzero; reflexivity].
Defined.

(** X12. Ranges of the results. The squared values of the float variant
    lie between 0 and ncols^2; the squared values of the short variant
    between 0 and 32767, and its outputs between 0 and 1810. *)
Theorem X12_results_stay_in_range
    (nbands nrows ncols : Z) (src : list Z) (b r c : Z) :
  0 <= b < nbands -> 0 <= r < nrows -> 0 <= c < ncols ->
  (ncols * ncols + nrows * nrows <= 2 ^ 24 ->
   ncols * ncols + nbands * nbands <= 2 ^ 24 ->
   0 <= VPixel nrows ncols (squared_field_float nbands nrows ncols src) b r c
     <= ncols * ncols) /\
  (ncols * ncols <= 32767 -> nrows <= 255 ->
   0 <= VPixel nrows ncols (squared_field_short nbands nrows ncols src) b r c <= 32767 /\
   0 <= VPixel nrows ncols (VEDistShort3d_pixels nbands nrows ncols src) b r c <= 1810).
Proof.
  intros Hb Hr Hc. split; intros H1 H2.
  - apply squared_field_float_range; assumption.
  - pose proof (squared_field_short_range nbands nrows ncols src b r c Hb Hr Hc H1 H2)
      as Hrange.
    split; [exact Hrange|].
    rewrite short_output_pixel by assumption.
    rewrite finalize_short_pixel_exact by exact Hrange.
    apply rounded_tenths_range. exact Hrange.
Qed.

Lemma X12_results_stay_in_range_witness :
  0 <= VPixel 2 3 (squared_field_float 2 2 3 [0; 0; 0; 0; 0; 0; 1; 0; 0; 0; 0; 0]) 1 1 2
    <= 3 * 3 /\
  0 <= VPixel 2 3 (VEDistShort3d_pixels 2 2 3 [0; 0; 0; 0; 0; 0; 1; 0; 0; 0; 0; 0]) 1 1 2
    <= 1810.
Proof.
  destruct (X12_results_stay_in_range
              2 2 3 [0; 0; 0; 0; 0; 0; 1; 0; 0; 0; 0; 0] 1 1 2
              ltac:(lia) ltac:(lia) ltac:(lia)) as [Hf Hs].
  split.
  - apply Hf; vm_compute; discriminate.
  - apply Hs; vm_compute; discriminate.
Defined.

(** ** The first pass writes every voxel *)

Lemma volume_ext (nbands nrows ncols : Z) (d d' : list Z) :
  0 <= nbands -> 0 <= nrows -> 0 <= ncols ->
  length d = Z.to_nat (nbands * nrows * ncols) ->
  length d' = Z.to_nat (nbands * nrows * ncols) ->
  (forall b r c, 0 <= b < nbands -> 0 <= r < nrows -> 0 <= c < ncols ->
                 VPixel nrows ncols d b r c = VPixel nrows ncols d' b r c) ->
  d = d'.
Proof.
  intros Hnb Hnr Hnc Hd Hd' Hv. apply list_eq. intros i.
  destruct (d !! i) as [x|] eqn:Hx.
  - pose proof (lookup_lt_Some _ _ _ Hx) as Hi.
    destruct (lookup_lt_is_Some_2 d' i) as [y Hy]; [lia|].
    destruct (pixel_index_decode nbands nrows ncols (Z.of_nat i))
      as (b & r & c & Hb & Hr & Hc & E); [assumption..|lia|].
    specialize (Hv b r c Hb Hr Hc). unfold VPixel in Hv.
    rewrite E, (getpix_lookup _ _ _ Hx), (getpix_lookup _ _ _ Hy) in Hv.
    rewrite Hy, Hv. reflexivity.
  - symmetry. apply lookup_ge_None. apply lookup_ge_None in Hx. lia.
Qed.

(** X13. The first pass of either variant assigns every voxel, so the
    field it leaves does not depend on what the destination held before:
    clearing the destination (VFillImage and, in the short variant, the
    zeroing loop) has no influence on the result, and nothing of a reused
    destination survives. *)
Theorem X13_first_pass_overwrites_the_destination
    (nbands nrows ncols : Z) (src d d' : list Z) :
  0 <= nbands -> 0 <= nrows -> 0 <= ncols ->
  length d = Z.to_nat (nbands * nrows * ncols) ->
  length d' = Z.to_nat (nbands * nrows * ncols) ->
  first_pass_float nbands nrows ncols src d = first_pass_float nbands nrows ncols src d' /\
  first_pass_short nbands nrows ncols src d = first_pass_short nbands nrows ncols src d'.
Proof.
  intros Hnb Hnr Hnc Hd Hd'. split.
  - apply (volume_ext nbands nrows ncols); try assumption.
    + rewrite first_pass_float_length. exact Hd.
    + rewrite first_pass_float_length. exact Hd'.
    + intros b r c Hb Hr Hc. rewrite !first_pass_float_get by assumption. reflexivity.
  - apply (volume_ext nbands nrows ncols); try assumption.
    + rewrite first_pass_short_length. exact Hd.
    + rewrite first_pass_short_length. exact Hd'.
    + intros b r c Hb Hr Hc. rewrite !first_pass_short_get by assumption. reflexivity.
Qed.

Lemma X13_first_pass_overwrites_the_destination_witness :
  first_pass_float 1 2 2 [0; 1; 0; 0] [0; 0; 0; 0]
    = first_pass_float 1 2 2 [0; 1; 0; 0] [7; 8; 9; 10] /\
  first_pass_short 1 2 2 [0; 1; 0; 0] [0; 0; 0; 0]
    = first_pass_short 1 2 2 [0; 1; 0; 0] [7; 8; 9; 10].
Proof.
  apply (X13_first_pass_overwrites_the_destination 1 2 2 [0; 1; 0; 0]
           [0; 0; 0; 0] [7; 8; 9; 10]); try lia; reflexivity.
Defined.

(** ** The dispatcher *)

(** X14. On a bit image [VEuclideanDist3d] rejects every requested output
    representation other than short and float with [UnsupportedOutputKind]:
    no engine runs, no destination is selected and the store is as it
    was. *)
Theorem X14_unsupported_output_kind_is_rejected
    (h : store) (src : positive) (dest : VImage) (repn : VRepnKind) (img : VImageRec) :
  h !! src = Some img ->
  VPixelRepn img = VBitRepn ->
  repn <> VShortRepn -> repn <> VFloatRepn ->
  VEuclideanDist3d src dest repn h = (Fatal UnsupportedOutputKind, h).
Proof.
  intros Hsrc Hbit Hs Hf.
  unfold VEuclideanDist3d, mbind, M_bind, load.
  rewrite Hsrc.
  rewrite bool_decide_false by (intros Hne; apply Hne; exact Hbit).
  unfold mret, M_ret.
  rewrite (bool_decide_false _ Hs), (bool_decide_false _ Hf). reflexivity.
Qed.

Lemma X14_unsupported_output_kind_is_rejected_witness :
  VEuclideanDist3d 1%positive (Some 2%positive) VUByteRepn
    (<[1%positive := mkImage 1 1 2 VBitRepn (IntPixels [1; 0]) []]>
       {[2%positive := mkImage 1 1 2 VShortRepn (IntPixels [7; 7]) []]})
  = (Fatal UnsupportedOutputKind,
     <[1%positive := mkImage 1 1 2 VBitRepn (IntPixels [1; 0]) []]>
       {[2%positive := mkImage 1 1 2 VShortRepn (IntPixels [7; 7]) []]}).
Proof.
  apply (X14_unsupported_output_kind_is_rejected _ 1%positive (Some 2%positive) VUByteRepn
           (mkImage 1 1 2 VBitRepn (IntPixels [1; 0]) [])).
  - reflexivity.
  - reflexivity.
  - discriminate.
  - discriminate.
Defined.

(** ** The float finalization on squares *)

Lemma same_float_sound (x y : float) : same_float x y = true -> Prim2SF x = Prim2SF y.
Proof.
  unfold same_float.
  destruct (Prim2SF x) as [s|s| |s m e], (Prim2SF y) as [s'|s'| |s' m' e'];
    try discriminate; intros H.
  - apply eqb_prop in H. congruence.
  - apply eqb_prop in H. congruence.
  - reflexivity.
  - apply andb_true_iff in H. destruct H as [H He].
    apply andb_true_iff in H. destruct H as [Hs Hm].
    apply eqb_prop in Hs. apply Pos.eqb_eq in Hm. apply Z.eqb_eq in He. congruence.
Qed.

Lemma squares_agree_sound (fuel : nat) (k0 : Z) :
  squares_agree fuel k0 = true ->
  forall k, k0 <= k < k0 + Z.of_nat fuel ->
            Prim2SF (finalize_float_pixel (k * k)) = Prim2SF (double_of_Z k).
Proof.
  revert k0. induction fuel as [|f IH]; intros k0 H k Hk; [lia|].
  simpl in H. apply andb_true_iff in H. destruct H as [H0 H1].
  destruct (Z.eq_dec k k0) as [->|Hne]; [apply same_float_sound; exact H0|].
  apply (IH (k0 + 1) H1). lia.
Qed.

Lemma squares_agree_all : squares_agree (Z.to_nat 4097) 0 = true.
Proof. vm_compute. reflexivity. Qed.

(** X15. The float finalization is exact on the squares it can meet: for
    0 <= k <= 4096 the pixel value k^2 is replaced by the float k, with
    the same sign, mantissa and exponent as the conversion of k. *)
Theorem X15_float_finalization_is_exact_on_squares (k : Z) :
  0 <= k <= 4096 ->
  Prim2SF (finalize_float_pixel (k * k)) = Prim2SF (double_of_Z k).
Proof.
  intros Hk. apply (squares_agree_sound (Z.to_nat 4097) 0 squares_agree_all). lia.
Qed.

Lemma X15_float_finalization_is_exact_on_squares_witness :
  Prim2SF (finalize_float_pixel (3 * 3)) = Prim2SF (double_of_Z 3).
Proof. apply (X15_float_finalization_is_exact_on_squares 3). lia. Defined.

(** ** Reflections *)

Lemma pixel_index_coords (nbands nrows ncols b r c : Z) :
  0 <= b < nbands -> 0 <= r < nrows -> 0 <= c < ncols ->
  pixel_index nrows ncols b r c / (nrows * ncols) = b /\
  (pixel_index nrows ncols b r c / ncols) mod nrows = r /\
  pixel_index nrows ncols b r c mod ncols = c.
Proof.
  intros Hb Hr Hc. unfold pixel_index.
  assert (E1 : ((b * nrows + r) * ncols + c) / ncols = b * nrows + r).
  { symmetry. apply (Z.div_unique _ _ _ c); lia. }
  split; [|split].
  - symmetry. apply (Z.div_unique _ _ _ (r * ncols + c)); [|lia].
    left. nia.
  - rewrite E1. symmetry. apply (Z.mod_unique _ _ b); lia.
  - symmetry. apply (Z.mod_unique _ _ (b * nrows + r)); lia.
Qed.

Lemma reflect_index_pixel (a : axis) (nbands nrows ncols b r c : Z) :
  0 <= b < nbands -> 0 <= r < nrows -> 0 <= c < ncols ->
  reflect_index a nbands nrows ncols (pixel_index nrows ncols b r c)
  = let '(b', r', c') := reflect_voxel a nbands nrows ncols (b, r, c) in
    pixel_index nrows ncols b' r' c'.
Proof.
  intros Hb Hr Hc.
  destruct (pixel_index_coords nbands nrows ncols b r c Hb Hr Hc) as (E1 & E2 & E3).
  unfold reflect_index. cbv zeta. rewrite E1, E2, E3. destruct a; reflexivity.
Qed.

Lemma omap_total {A B : Type} (f : A -> option B) (g : A -> B) (ks : list A) :
  Forall (fun k => f k = Some (g k)) ks -> omap f ks = map g ks.
Proof.
  induction 1 as [|k ks Hk _ IH]; [reflexivity|].
  simpl. rewrite Hk. f_equal. exact IH.
Qed.

Lemma omap_fmap_commute {A B C : Type} (f : B -> C) (h : A -> option B)
    (h' : A -> option C) (ks : list A) :
  (forall k, h' k = f <$> h k) -> omap h' ks = map f (omap h ks).
Proof.
  intros E. induction ks as [|k ks IH]; [reflexivity|].
  simpl. rewrite E. destruct (h k); simpl; [f_equal|]; exact IH.
Qed.

Lemma reflect_volume_map {A B : Type} (f : A -> B) (a : axis) (nbands nrows ncols : Z)
    (l : list A) :
  reflect_volume a nbands nrows ncols (map f l)
  = map f (reflect_volume a nbands nrows ncols l).
Proof.
  unfold reflect_volume. rewrite length_map.
  apply omap_fmap_commute. intros k. apply lookup_map.
Qed.

Section ReflectVolume.
Variable a : axis.
Variables nbands nrows ncols : Z.
Hypothesis nbands_nonneg : 0 <= nbands.
Hypothesis nrows_nonneg : 0 <= nrows.
Hypothesis ncols_nonneg : 0 <= ncols.

Local Abbreviation N := (Z.to_nat (nbands * nrows * ncols)).

Lemma reflect_voxel_range (b r c : Z) :
  0 <= b < nbands -> 0 <= r < nrows -> 0 <= c < ncols ->
  let '(b', r', c') := reflect_voxel a nbands nrows ncols (b, r, c) in
  0 <= b' < nbands /\ 0 <= r' < nrows /\ 0 <= c' < ncols.
Proof. intros Hb Hr Hc. destruct a; simpl; lia. Qed.

Lemma reflect_index_range (i : Z) :
  0 <= i < nbands * nrows * ncols ->
  0 <= reflect_index a nbands nrows ncols i < nbands * nrows * ncols.
Proof.
  intros Hi.
  destruct (pixel_index_decode nbands nrows ncols i)
    as (b & r & c & Hb & Hr & Hc & E); try assumption.
  rewrite <- E, reflect_index_pixel by assumption.
  pose proof (reflect_voxel_range b r c Hb Hr Hc) as H.
  destruct (reflect_voxel a nbands nrows ncols (b, r, c)) as [[b' r'] c'].
  destruct H as (Hb' & Hr' & Hc').
  apply pixel_index_range; assumption.
Qed.

Lemma reflect_volume_as_map (l : list Z) :
  length l = N ->
  reflect_volume a nbands nrows ncols l
  = map (fun i => getpix l (reflect_index a nbands nrows ncols (Z.of_nat i)))
        (seq 0 (length l)).
Proof.
  intros Hl. unfold reflect_volume. apply omap_total.
  apply Forall_forall. intros k Hk. apply elem_of_seq in Hk.
  pose proof (reflect_index_range (Z.of_nat k) ltac:(lia)) as Hi.
  destruct (lookup_lt_is_Some_2 l
              (Z.to_nat (reflect_index a nbands nrows ncols (Z.of_nat k)))) as [x Hx];
    [lia|].
  rewrite Hx. f_equal. symmetry.
  rewrite <- (getpix_lookup l _ x Hx). f_equal. lia.
Qed.

Lemma reflect_volume_length (l : list Z) :
  length l = N -> length (reflect_volume a nbands nrows ncols l) = N.
Proof.
  intros Hl. rewrite reflect_volume_as_map by exact Hl.
  rewrite length_map, length_seq. exact Hl.
Qed.

Lemma VPixel_reflect (l : list Z) (b r c : Z) :
  length l = N -> 0 <= b < nbands -> 0 <= r < nrows -> 0 <= c < ncols ->
  VPixel nrows ncols (reflect_volume a nbands nrows ncols l) b r c
  = let '(b', r', c') := reflect_voxel a nbands nrows ncols (b, r, c) in
    VPixel nrows ncols l b' r' c'.
Proof.
  intros Hl Hb Hr Hc.
  pose proof (pixel_index_range nbands nrows ncols b r c Hb Hr Hc) as Hi.
  rewrite reflect_volume_as_map by exact Hl.
  unfold VPixel at 1.
  set (i := pixel_index nrows ncols b r c) in *.
  assert (E : map (fun i => getpix l (reflect_index a nbands nrows ncols (Z.of_nat i)))
                (seq 0 (length l)) !! Z.to_nat i
              = Some (getpix l (reflect_index a nbands nrows ncols i))).
  { rewrite lookup_map, lookup_seq_lt by lia. simpl. rewrite Z2Nat.id by lia. reflexivity. }
  rewrite <- (Z2Nat.id i) at 1 by lia.
  rewrite (getpix_lookup _ _ _ E).
  unfold i. rewrite reflect_index_pixel by assumption.
  destruct (reflect_voxel a nbands nrows ncols (b, r, c)) as [[b' r'] c'].
  reflexivity.
Qed.
End ReflectVolume.

(** ** The first pass depends on the pixels of the row only *)

Section RowContent.
Variables nrows ncols : Z.
Variables src src' : list Z.
Variables b r b' r' : Z.
Hypothesis same_row : forall c, 0 <= c < ncols ->
  VPixel nrows ncols src' b' r' c = VPixel nrows ncols src b r c.

Lemma forward_stop_ext (c : Z) :
  0 <= c <= ncols ->
  forward_stop nrows ncols src' b' r' c = forward_stop nrows ncols src b r c.
Proof.
  intros Hc.
  destruct (forward_stop_spec nrows ncols src' b' r' c) as (R' & Z' & S'); [lia|].
  destruct (forward_stop_spec nrows ncols src b r c) as (R & Z0 & S); [lia|].
  set (x := forward_stop nrows ncols src' b' r' c) in *.
  set (y := forward_stop nrows ncols src b r c) in *.
  destruct (Z.lt_trichotomy x y) as [Hlt|[E|Hgt]]; [|exact E|].
  - exfalso. apply S'; [lia|]. rewrite same_row by lia. apply Z0. lia.
  - exfalso. apply S; [lia|]. rewrite <- same_row by lia. apply Z'. lia.
Qed.

Lemma backward_stop_ext (c : Z) :
  -1 <= c < ncols ->
  backward_stop nrows ncols src' b' r' c = backward_stop nrows ncols src b r c.
Proof.
  intros Hc.
  destruct (backward_stop_spec nrows ncols src' b' r' c) as (R' & Z' & S'); [lia|].
  destruct (backward_stop_spec nrows ncols src b r c) as (R & Z0 & S); [lia|].
  set (x := backward_stop nrows ncols src' b' r' c) in *.
  set (y := backward_stop nrows ncols src b r c) in *.
  destruct (Z.lt_trichotomy x y) as [Hlt|[E|Hgt]]; [|exact E|].
  - exfalso. apply S; [lia|]. rewrite <- same_row by lia. apply Z'. lia.
  - exfalso. apply S'; [lia|]. rewrite same_row by lia. apply Z0. lia.
Qed.

Lemma row_has_foreground_ext :
  0 <= ncols ->
  row_has_foreground nrows ncols src' b' r' = row_has_foreground nrows ncols src b r.
Proof.
  intros Hn.
  pose proof (row_has_foreground_spec nrows ncols src' b' r' Hn) as H'.
  pose proof (row_has_foreground_spec nrows ncols src b r Hn) as H.
  destruct (row_has_foreground nrows ncols src' b' r') eqn:E';
    destruct (row_has_foreground nrows ncols src b r) eqn:E; try reflexivity.
  - destruct (proj1 H' eq_refl) as (c & Hc & Hfg).
    rewrite same_row in Hfg by exact Hc.
    symmetry. apply H. exists c. split; assumption.
  - destruct (proj1 H eq_refl) as (c & Hc & Hfg).
    rewrite <- same_row in Hfg by exact Hc.
    apply H'. exists c. split; assumption.
Qed.

Lemma first_value_float_ext (c : Z) :
  0 <= c < ncols ->
  first_value_float nrows ncols src' b' r' c = first_value_float nrows ncols src b r c.
Proof.
  intros Hc. unfold first_value_float, forward_steps, backward_steps_float.
  rewrite same_row, forward_stop_ext, backward_stop_ext by lia. reflexivity.
Qed.

Lemma first_value_short_ext (c : Z) :
  0 <= c < ncols ->
  first_value_short nrows ncols src' b' r' c = first_value_short nrows ncols src b r c.
Proof.
  intros Hc. unfold first_value_short, forward_steps, backward_steps_short.
  rewrite row_has_foreground_ext, same_row, forward_stop_ext, backward_stop_ext by lia.
  reflexivity.
Qed.
End RowContent.

(** Reflected along the columns, the forward scan of the one row is the
    backward scan of the other. *)
Section RowReversed.
Variables nrows ncols : Z.
Variables src src' : list Z.
Variables b r b' r' : Z.
Hypothesis reversed_row : forall c, 0 <= c < ncols ->
  VPixel nrows ncols src' b' r' c = VPixel nrows ncols src b r (ncols - 1 - c).

Lemma forward_stop_reversed (c : Z) :
  0 <= c < ncols ->
  forward_stop nrows ncols src' b' r' c
  = ncols - 1 - backward_stop nrows ncols src b r (ncols - 1 - c).
Proof.
  intros Hc.
  destruct (forward_stop_spec nrows ncols src' b' r' c) as (R' & Z' & S'); [lia|].
  destruct (backward_stop_spec nrows ncols src b r (ncols - 1 - c)) as (R & Z0 & S); [lia|].
  set (x := forward_stop nrows ncols src' b' r' c) in *.
  set (y := backward_stop nrows ncols src b r (ncols - 1 - c)) in *.
  destruct (Z.lt_trichotomy x (ncols - 1 - y)) as [Hlt|[E|Hgt]]; [|exact E|].
  - exfalso. apply S'; [lia|]. rewrite reversed_row by lia. apply Z0. lia.
  - exfalso. apply S; [lia|].
    replace y with (ncols - 1 - (ncols - 1 - y)) by lia.
    rewrite <- reversed_row by lia. apply Z'. lia.
Qed.

Lemma backward_stop_reversed (c : Z) :
  0 <= c < ncols ->
  backward_stop nrows ncols src' b' r' c
  = ncols - 1 - forward_stop nrows ncols src b r (ncols - 1 - c).
Proof.
  intros Hc.
  destruct (backward_stop_spec nrows ncols src' b' r' c) as (R' & Z' & S'); [lia|].
  destruct (forward_stop_spec nrows ncols src b r (ncols - 1 - c)) as (R & Z0 & S); [lia|].
  set (x := backward_stop nrows ncols src' b' r' c) in *.
  set (y := forward_stop nrows ncols src b r (ncols - 1 - c)) in *.
  destruct (Z.lt_trichotomy x (ncols - 1 - y)) as [Hlt|[E|Hgt]]; [|exact E|].
  - exfalso. apply S; [lia|].
    replace y with (ncols - 1 - (ncols - 1 - y)) by lia.
    rewrite <- reversed_row by lia. apply Z'. lia.
  - exfalso. apply S'; [lia|]. rewrite reversed_row by lia. apply Z0. lia.
Qed.

Lemma row_has_foreground_reversed :
  0 <= ncols ->
  row_has_foreground nrows ncols src' b' r' = row_has_foreground nrows ncols src b r.
Proof.
  intros Hn.
  pose proof (row_has_foreground_spec nrows ncols src' b' r' Hn) as H'.
  pose proof (row_has_foreground_spec nrows ncols src b r Hn) as H.
  destruct (row_has_foreground nrows ncols src' b' r') eqn:E';
    destruct (row_has_foreground nrows ncols src b r) eqn:E; try reflexivity.
  - destruct (proj1 H' eq_refl) as (c & Hc & Hfg).
    rewrite reversed_row in Hfg by exact Hc.
    symmetry. apply H. exists (ncols - 1 - c). split; [lia|exact Hfg].
  - destruct (proj1 H eq_refl) as (c & Hc & Hfg).
    apply H'. exists (ncols - 1 - c). split; [lia|].
    rewrite reversed_row by lia. replace (ncols - 1 - (ncols - 1 - c)) with c by lia.
    exact Hfg.
Qed.

Lemma first_value_short_reversed (c : Z) :
  0 <= c < ncols ->
  first_value_short nrows ncols src' b' r' c
  = first_value_short nrows ncols src b r (ncols - 1 - c).
Proof.
  intros Hc. unfold first_value_short, forward_steps, backward_steps_short.
  rewrite row_has_foreground_reversed, reversed_row by lia.
  rewrite forward_stop_reversed, backward_stop_reversed by lia.
  destruct (forward_stop_spec nrows ncols src b r (ncols - 1 - c)) as (R1 & _); [lia|].
  destruct (backward_stop_spec nrows ncols src b r (ncols - 1 - c)) as (R2 & _); [lia|].
  set (x := forward_stop nrows ncols src b r (ncols - 1 - c)) in *.
  set (y := backward_stop nrows ncols src b r (ncols - 1 - c)) in *.
  destruct (row_has_foreground nrows ncols src b r); [|reflexivity].
  destruct (VPixel nrows ncols src b r (ncols - 1 - c) =? 1); [reflexivity|].
  cbv zeta. f_equal.
  destruct (Z.geb_spec (ncols - 1 - y) ncols), (Z.ltb_spec (ncols - 1 - x) 0),
    (Z.geb_spec x ncols), (Z.ltb_spec y 0); try lia;
    repeat match goal with
           | |- context [?p <? ?q] => destruct (Z.ltb_spec p q)
           end; try lia; f_equal; lia.
Qed.
End RowReversed.

(** ** Isometries of the bands and rows *)

Section FieldSymmetry.
Variables nbands nrows ncols : Z.
Variables src src' : list Z.
Variables sb sr : Z -> Z.
Hypothesis sb_range : forall x, 0 <= x < nbands -> 0 <= sb x < nbands.
Hypothesis sr_range : forall x, 0 <= x < nrows -> 0 <= sr x < nrows.
Hypothesis sb_inv : forall x, 0 <= x < nbands -> sb (sb x) = x.
Hypothesis sr_inv : forall x, 0 <= x < nrows -> sr (sr x) = x.
Hypothesis sb_iso : forall x y, 0 <= x < nbands -> 0 <= y < nbands ->
  (sb x - sb y) ^ 2 = (x - y) ^ 2.
Hypothesis sr_iso : forall x y, 0 <= x < nrows -> 0 <= y < nrows ->
  (sr x - sr y) ^ 2 = (x - y) ^ 2.
Variables b r c c0 : Z.
Hypothesis b_range : 0 <= b < nbands.
Hypothesis r_range : 0 <= r < nrows.
Hypothesis c_range : 0 <= c < ncols.
Hypothesis c0_range : 0 <= c0 < ncols.

Lemma squared_field_float_moved :
  ncols * ncols + nrows * nrows <= 2 ^ 24 ->
  ncols * ncols + nbands * nbands <= 2 ^ 24 ->
  (forall b1 r1, 0 <= b1 < nbands -> 0 <= r1 < nrows ->
     first_value_float nrows ncols src' b1 r1 c
     = first_value_float nrows ncols src (sb b1) (sr r1) c0) ->
  VPixel nrows ncols (squared_field_float nbands nrows ncols src') b r c
  = VPixel nrows ncols (squared_field_float nbands nrows ncols src) (sb b) (sr r) c0.
Proof.
  intros H1 H2 Hfirst.
  pose proof (sb_range b b_range) as Hsb. pose proof (sr_range r r_range) as Hsr.
  apply Z.le_antisymm.
  - destruct (squared_field_float_attained nbands nrows ncols src (sb b) (sr r) c0
                Hsb Hsr c0_range H1 H2) as (b1 & r1 & Hb1 & Hr1 & E).
    pose proof (squared_field_float_upper nbands nrows ncols src' b r c
                  b_range r_range c_range H1 H2 (sb b1) (sr r1)
                  (sb_range b1 Hb1) (sr_range r1 Hr1)) as Hu.
    rewrite Hfirst in Hu by auto.
    rewrite sb_inv, sr_inv in Hu by assumption.
    rewrite <- (sb_iso b (sb b1)), <- (sr_iso r (sr r1)) in Hu by auto.
    rewrite sb_inv, sr_inv in Hu by assumption. lia.
  - destruct (squared_field_float_attained nbands nrows ncols src' b r c
                b_range r_range c_range H1 H2) as (b1 & r1 & Hb1 & Hr1 & E).
    pose proof (squared_field_float_upper nbands nrows ncols src (sb b) (sr r) c0
                  Hsb Hsr c0_range H1 H2 (sb b1) (sr r1)
                  (sb_range b1 Hb1) (sr_range r1 Hr1)) as Hu.
    rewrite Hfirst in E by assumption.
    rewrite sb_iso, sr_iso in Hu by assumption. lia.
Qed.

Lemma squared_field_short_moved :
  ncols * ncols <= 32767 -> nrows <= 255 ->
  (forall b1 r1, 0 <= b1 < nbands -> 0 <= r1 < nrows ->
     first_value_short nrows ncols src' b1 r1 c
     = first_value_short nrows ncols src (sb b1) (sr r1) c0) ->
  VPixel nrows ncols (squared_field_short nbands nrows ncols src') b r c
  = VPixel nrows ncols (squared_field_short nbands nrows ncols src) (sb b) (sr r) c0.
Proof.
  intros H1 H2 Hfirst.
  pose proof (sb_range b b_range) as Hsb. pose proof (sr_range r r_range) as Hsr.
  apply Z.le_antisymm.
  - destruct (squared_field_short_attained nbands nrows ncols src (sb b) (sr r) c0
                Hsb Hsr c0_range H1 H2) as (b1 & r1 & Hb1 & Hr1 & E).
    pose proof (squared_field_short_upper nbands nrows ncols src' b r c
                  b_range r_range c_range H1 H2 (sb b1) (sr r1)
                  (sb_range b1 Hb1) (sr_range r1 Hr1)) as Hu.
    rewrite Hfirst in Hu by auto.
    rewrite sb_inv, sr_inv in Hu by assumption.
    rewrite <- (sb_iso b (sb b1)), <- (sr_iso r (sr r1)) in Hu by auto.
    rewrite sb_inv, sr_inv in Hu by assumption. lia.
  - destruct (squared_field_short_attained nbands nrows ncols src' b r c
                b_range r_range c_range H1 H2) as (b1 & r1 & Hb1 & Hr1 & E).
    pose proof (squared_field_short_upper nbands nrows ncols src (sb b) (sr r) c0
                  Hsb Hsr c0_range H1 H2 (sb b1) (sr r1)
                  (sb_range b1 Hb1) (sr_range r1 Hr1)) as Hu.
    rewrite Hfirst in E by assumption.
    rewrite sb_iso, sr_iso in Hu by assumption. lia.
Qed.
End FieldSymmetry.

Lemma reflection_is_isometry (n x y : Z) : (n - 1 - x - (n - 1 - y)) ^ 2 = (x - y) ^ 2.
Proof. rewrite !Z.pow_2_r. ring. Qed.

(** ** The squared field of a reflected volume *)

Section ReflectedField.
Variables nbands nrows ncols : Z.
Variable src : list Z.
Hypothesis src_length : length src = Z.to_nat (nbands * nrows * ncols).
Variables b r c : Z.
Hypothesis b_range : 0 <= b < nbands.
Hypothesis r_range : 0 <= r < nrows.
Hypothesis c_range : 0 <= c < ncols.

Lemma squared_field_float_reflected (a : axis) :
  a <> ColumnAxis ->
  ncols * ncols + nrows * nrows <= 2 ^ 24 ->
  ncols * ncols + nbands * nbands <= 2 ^ 24 ->
  VPixel nrows ncols
    (squared_field_float nbands nrows ncols (reflect_volume a nbands nrows ncols src)) b r c
  = VPixel nrows ncols
      (reflect_volume a nbands nrows ncols (squared_field_float nbands nrows ncols src)) b r c.
Proof.
  intros Ha H1 H2.
  rewrite (VPixel_reflect a nbands nrows ncols) by
    (try apply squared_field_float_length; lia).
  destruct a; [| |contradiction]; cbn [reflect_voxel].
  - apply (squared_field_float_moved nbands nrows ncols src _
             (fun x => nbands - 1 - x) (fun x => x)); try assumption;
      try (intros; lia); try (intros; apply reflection_is_isometry); try reflexivity.
    intros b1 r1 Hb1 Hr1. apply first_value_float_ext; [|exact c_range].
    intros c1 Hc1.
    rewrite (VPixel_reflect BandAxis nbands nrows ncols) by (assumption || lia).
    reflexivity.
  - apply (squared_field_float_moved nbands nrows ncols src _
             (fun x => x) (fun x => nrows - 1 - x)); try assumption;
      try (intros; lia); try (intros; apply reflection_is_isometry); try reflexivity.
    intros b1 r1 Hb1 Hr1. apply first_value_float_ext; [|exact c_range].
    intros c1 Hc1.
    rewrite (VPixel_reflect RowAxis nbands nrows ncols) by (assumption || lia).
    reflexivity.
Qed.

Lemma squared_field_short_reflected (a : axis) :
  ncols * ncols <= 32767 -> nrows <= 255 ->
  VPixel nrows ncols
    (squared_field_short nbands nrows ncols (reflect_volume a nbands nrows ncols src)) b r c
  = VPixel nrows ncols
      (reflect_volume a nbands nrows ncols (squared_field_short nbands nrows ncols src)) b r c.
Proof.
  intros H1 H2.
  rewrite (VPixel_reflect a nbands nrows ncols) by
    (try apply squared_field_short_length; lia).
  destruct a; cbn [reflect_voxel].
  - apply (squared_field_short_moved nbands nrows ncols src _
             (fun x => nbands - 1 - x) (fun x => x)); try assumption;
      try (intros; lia); try (intros; apply reflection_is_isometry); try reflexivity.
    intros b1 r1 Hb1 Hr1. apply first_value_short_ext; [|exact c_range].
    intros c1 Hc1.
    rewrite (VPixel_reflect BandAxis nbands nrows ncols) by (assumption || lia).
    reflexivity.
  - apply (squared_field_short_moved nbands nrows ncols src _
             (fun x => x) (fun x => nrows - 1 - x)); try assumption;
      try (intros; lia); try (intros; apply reflection_is_isometry); try reflexivity.
    intros b1 r1 Hb1 Hr1. apply first_value_short_ext; [|exact c_range].
    intros c1 Hc1.
    rewrite (VPixel_reflect RowAxis nbands nrows ncols) by (assumption || lia).
    reflexivity.
  - apply (squared_field_short_moved nbands nrows ncols src _
             (fun x => x) (fun x => x)); try assumption;
      try (intros; lia); try reflexivity.
    intros b1 r1 Hb1 Hr1. apply first_value_short_reversed; [|exact c_range].
    intros c1 Hc1.
    rewrite (VPixel_reflect ColumnAxis nbands nrows ncols) by (assumption || lia).
    reflexivity.
Qed.
End ReflectedField.

(** X16. The short variant commutes with the reflection of the volume
    along any of the three axes: the squared field of the reflected volume
    is the reflected squared field, and the output of the reflected volume
    is the reflected output. *)
Theorem X16_short_variant_commutes_with_reflections
    (a : axis) (nbands nrows ncols : Z) (src : list Z) :
  0 <= nbands -> 0 <= nrows -> 0 <= ncols ->
  length src = Z.to_nat (nbands * nrows * ncols) ->
  ncols * ncols <= 32767 -> nrows <= 255 ->
  squared_field_short nbands nrows ncols (reflect_volume a nbands nrows ncols src)
    = reflect_volume a nbands nrows ncols (squared_field_short nbands nrows ncols src) /\
  VEDistShort3d_pixels nbands nrows ncols (reflect_volume a nbands nrows ncols src)
    = reflect_volume a nbands nrows ncols (VEDistShort3d_pixels nbands nrows ncols src).
Proof.
  intros Hnb Hnr Hnc Hsrc H1 H2.
  assert (E : squared_field_short nbands nrows ncols (reflect_volume a nbands nrows ncols src)
              = reflect_volume a nbands nrows ncols (squared_field_short nbands nrows ncols src)).
  { apply (volume_ext nbands nrows ncols); try assumption.
    - apply squared_field_short_length.
    - apply reflect_volume_length; try assumption. apply squared_field_short_length.
    - intros b r c Hb Hr Hc. apply squared_field_short_reflected; assumption. }
  split; [exact E|].
  rewrite !VEDistShort3d_pixels_map by nia.
  rewrite E. symmetry. apply reflect_volume_map.
Qed.

Lemma X16_short_variant_commutes_with_reflections_witness :
  squared_field_short 1 2 3 (reflect_volume ColumnAxis 1 2 3 [1; 0; 0; 0; 0; 0])
    = reflect_volume ColumnAxis 1 2 3 (squared_field_short 1 2 3 [1; 0; 0; 0; 0; 0]) /\
  VEDistShort3d_pixels 1 2 3 (reflect_volume ColumnAxis 1 2 3 [1; 0; 0; 0; 0; 0])
    = reflect_volume ColumnAxis 1 2 3 (VEDistShort3d_pixels 1 2 3 [1; 0; 0; 0; 0; 0]).
Proof.
  apply (X16_short_variant_commutes_with_reflections ColumnAxis 1 2 3 [1; 0; 0; 0; 0; 0]);
    try lia; reflexivity.
Defined.

(** X17. The float variant commutes with the reflection of the volume
    along the band axis and along the row axis: the squared field and the
    output of the reflected volume are the reflected squared field and the
    reflected output. (Along the column axis it does not, because of the
    backward scan of the first pass.) *)
Theorem X17_float_variant_commutes_with_band_and_row_reflections
    (a : axis) (nbands nrows ncols : Z) (src : list Z) :
  a <> ColumnAxis ->
  0 <= nbands -> 0 <= nrows -> 0 <= ncols ->
  length src = Z.to_nat (nbands * nrows * ncols) ->
  ncols * ncols + nrows * nrows <= 2 ^ 24 ->
  ncols * ncols + nbands * nbands <= 2 ^ 24 ->
  squared_field_float nbands nrows ncols (reflect_volume a nbands nrows ncols src)
    = reflect_volume a nbands nrows ncols (squared_field_float nbands nrows ncols src) /\
  VEDistFloat3d_pixels nbands nrows ncols (reflect_volume a nbands nrows ncols src)
    = reflect_volume a nbands nrows ncols (VEDistFloat3d_pixels nbands nrows ncols src).
Proof.
  intros Ha Hnb Hnr Hnc Hsrc H1 H2.
  assert (E : squared_field_float nbands nrows ncols (reflect_volume a nbands nrows ncols src)
              = reflect_volume a nbands nrows ncols (squared_field_float nbands nrows ncols src)).
  { apply (volume_ext nbands nrows ncols); try assumption.
    - apply squared_field_float_length.
    - apply reflect_volume_length; try assumption. apply squared_field_float_length.
    - intros b r c Hb Hr Hc. apply squared_field_float_reflected; assumption. }
  split; [exact E|].
  rewrite !VEDistFloat3d_pixels_map by nia.
  rewrite E. symmetry. apply reflect_volume_map.
Qed.

Lemma X17_float_variant_commutes_with_band_and_row_reflections_witness :
  squared_field_float 1 2 2 (reflect_volume RowAxis 1 2 2 [1; 0; 0; 0])
    = reflect_volume RowAxis 1 2 2 (squared_field_float 1 2 2 [1; 0; 0; 0]) /\
  VEDistFloat3d_pixels 1 2 2 (reflect_volume RowAxis 1 2 2 [1; 0; 0; 0])
    = reflect_volume RowAxis 1 2 2 (VEDistFloat3d_pixels 1 2 2 [1; 0; 0; 0]).
Proof.
  apply (X17_float_variant_commutes_with_band_and_row_reflections
           RowAxis 1 2 2 [1; 0; 0; 0]); try lia; try reflexivity; discriminate.
Defined.
